(** * Sweep and ablation drivers of the neuron-descriptions repository

    A shallow embedding of [run_captioner_sweep.py] and [run_cnn_cert.py].
    Both scripts are straight-line drivers around the [lv] library, [torch],
    [numpy] and [wandb]: what they own is the control flow, the files they
    read and write, and the arguments they hand to the library.  The
    embedding keeps exactly that: the file system is a finite map from paths
    to nodes, every library call that matters is an event of a trace, and a
    Python exception is an error value that stops the run. *)

From Stdlib Require Import ZArith List String Ascii Bool Lia.
From Stdlib Require Import Floats.
From stdpp Require Import base option list gmap strings pretty.

Set Warnings "-inexact-float".
#[local] Open Scope Z_scope.

(** ** Python exceptions the scripts can meet *)

Inductive error :=
| AssertionError
| FileNotFoundError
| FileExistsError
| NotADirectoryError
| IsADirectoryError
| UnicodeDecodeError
| UnpicklingError
| ZeroDivisionError
| ValueError
| OverflowError
| IndexError
| KeyError
| TypeError.

Definition result (A : Type) : Type := error + A.

Definition result_bind {A B : Type} (r : result A) (k : A → result B) : result B :=
  match r with
  | inl e => inl e
  | inr a => k a
  end.

(** ** Strings: the [str] methods the scripts call *)

Module Str.

Definition LF : ascii := "010"%char.
Definition CR : ascii := "013"%char.

(** [c.lower()] on one ASCII character; captions are ASCII text. *)
Definition lower_ascii (c : ascii) : ascii :=
  let n := nat_of_ascii c in
  if (Nat.leb 65 n && Nat.leb n 90)%bool then ascii_of_nat (n + 32)%nat else c.

(** [s.lower()]. *)
Fixpoint lower (s : string) : string :=
  match s with
  | EmptyString => EmptyString
  | String c s' => String (lower_ascii c) (lower s')
  end.

(** [w in s]: [w] occurs in [s] as a contiguous substring. *)
Fixpoint contains (w s : string) : bool :=
  (String.prefix w s ||
   match s with
   | EmptyString => false
   | String _ s' => contains w s'
   end)%bool.

(** [sep.join(l)]. *)
Fixpoint join (sep : string) (l : list string) : string :=
  match l with
  | [] => EmptyString
  | [x] => x
  | x :: rest => String.append x (String.append sep (join sep rest))
  end.

(** [s.split(c)] for a one-character separator: never the empty list. *)
Fixpoint split (c : ascii) (s : string) : list string :=
  match s with
  | EmptyString => [EmptyString]
  | String a s' =>
      if Ascii.eqb a c then EmptyString :: split c s'
      else match split c s' with
           | h :: t => String a h :: t
           | [] => [String a EmptyString]
           end
  end.

(** What a text-mode [read()] returns for the stored characters: with the
    default [newline=None] every ["\r\n"] and every lone ["\r"] comes back
    as ["\n"]. *)
Fixpoint universal_newlines (s : string) : string :=
  match s with
  | EmptyString => EmptyString
  | String a s' =>
      if Ascii.eqb a CR then
        match s' with
        | String b s'' =>
            if Ascii.eqb b LF then String LF (universal_newlines s'')
            else String LF (universal_newlines s')
        | EmptyString => String LF EmptyString
        end
      else String a (universal_newlines s')
  end.

(** [c] occurs in [s]. *)
Fixpoint has_char (c : ascii) (s : string) : bool :=
  match s with
  | EmptyString => false
  | String a s' => (Ascii.eqb a c || has_char c s')%bool
  end.

(** [s.endswith(suf)]: some tail of [s] is [suf]. *)
Fixpoint ends_with (suf s : string) : bool :=
  (String.eqb s suf ||
   match s with
   | EmptyString => false
   | String _ s' => ends_with suf s'
   end)%bool.

End Str.

(** ** numpy: [arange] and the conversions around it *)

Module Numpy.

(** The least integer not below a float, as [arange] needs it for its
    length: a NaN is a ValueError, an infinity an OverflowError. *)
Definition float_ceil (f : float) : result Z :=
  match Prim2SF f with
  | S754_zero _ => inr 0
  | S754_finite s m e =>
      let v := if s then Z.neg m else Z.pos m in
      inr (if 0 <=? e then v * 2 ^ e else - ((- v) / 2 ^ (- e)))
  | S754_nan => inl ValueError
  | S754_infinity _ => inl OverflowError
  end.

(** [int(f)]: truncation towards zero; [int(nan)] is a ValueError and
    [int(inf)] an OverflowError. *)
Definition float_to_int (f : float) : result Z :=
  match Prim2SF f with
  | S754_zero _ => inr 0
  | S754_finite s m e =>
      let a := if 0 <=? e then Z.pos m * 2 ^ e else Z.pos m / 2 ^ (- e) in
      inr (if s then - a else a)
  | S754_nan => inl ValueError
  | S754_infinity _ => inl OverflowError
  end.

(** A count as a float64 (exact below 2^53; counts here are list lengths). *)
Definition float_of_nat (n : nat) : float :=
  PrimFloat.of_uint63 (Uint63.of_Z (Z.of_nat n)).

(** ceil(a / b) for integers, [b] not 0. *)
Definition ceil_div (a b : Z) : Z := - ((- a) / b).

(** [numpy.arange(start, stop, step)] on Python ints: ceil((stop - start) /
    step) values [start + i * step]; a zero step divides by zero.  (numpy
    takes the quotient in float64, which is exact for arguments below 2^53.) *)
Definition arange_int (start stop step : Z) : result (list Z) :=
  if step =? 0 then inl ZeroDivisionError
  else inr (map (λ i : nat, start + Z.of_nat i * step)
                (seq 0 (Z.to_nat (ceil_div (stop - start) step)))).

(** [numpy.arange(start, stop, step)] on Python floats.  The length is
    ceil((stop - start) / step) computed in float64; the buffer holds
    [start], then [start + step], and from the third slot on
    [start + i * delta] with [delta = (start + step) - start]. *)
Definition arange_float (start stop step : float) : result (list float) :=
  if PrimFloat.eqb step 0%float then inl ZeroDivisionError
  else match float_ceil ((stop - start) / step)%float with
       | inl e => inl e
       | inr n =>
           let next := (start + step)%float in
           let delta := (next - start)%float in
           inr (map (λ i : nat,
                       match i with
                       | O => start
                       | S O => next
                       | _ => (start + float_of_nat i * delta)%float
                       end)
                    (seq 0 (Z.to_nat n)))
       end.

End Numpy.

(** ** The file system the scripts see through [pathlib], [shutil] and [torch] *)

Module FS.

(** A path is its list of components, outermost first; the empty path is
    the directory every relative path starts from. *)
Abbreviation path := (list string).

(** What [torch.save] and the models' [save] put in a file. *)
Inductive payload :=
| PSplits (keys : list string)
| PLanguageModel
| PCaptioner
| PStateDict
| PScores (scores : list float)
| PUnits (units : list nat).

Inductive node :=
| Dir
| TextFile (s : string)
| Pickle (x : payload).

Abbreviation disk := (gmap (list string) node).

Definition node_at (d : disk) (p : path) : option node :=
  match p with
  | [] => Some Dir
  | _ => d !! p
  end.

(** [p.exists()], [p.is_file()], [p.is_dir()]. *)
Definition exists_ (d : disk) (p : path) : bool :=
  match node_at d p with Some _ => true | None => false end.

Definition is_file (d : disk) (p : path) : bool :=
  match node_at d p with
  | Some (TextFile _) | Some (Pickle _) => true
  | _ => false
  end.

Definition is_dir (d : disk) (p : path) : bool :=
  match node_at d p with Some Dir => true | _ => false end.

(** [p.parent] and [p.name]. *)
Definition parent (p : path) : path := removelast p.
Definition name (p : path) : string := List.last p EmptyString.

(** [p / child]. *)
Definition child (p : path) (c : string) : path := p ++ [c].

(** [shutil.rmtree(p)]: the directory and everything below it goes. *)
Definition rmtree (d : disk) (p : path) : result disk :=
  match node_at d p with
  | None => inl FileNotFoundError
  | Some Dir => inr (filter (λ kv : path * node, ¬ p `prefix_of` kv.1) d)
  | Some _ => inl NotADirectoryError
  end.

(** [p.mkdir(exist_ok=True, parents=True)], walking down from the start
    directory: an existing directory is kept, a missing one is created, a
    regular file in the way is an error. *)
Fixpoint mkdir_walk (d : disk) (base : path) (rest : list string) : result disk :=
  match rest with
  | [] => inr d
  | c :: rest' =>
      let p := base ++ [c] in
      match d !! p with
      | Some Dir => mkdir_walk d p rest'
      | Some _ =>
          inl (match rest' with [] => FileExistsError | _ => NotADirectoryError end)
      | None => mkdir_walk (<[p := Dir]> d) p rest'
      end
  end.

Definition mkdir_parents (d : disk) (p : path) : result disk := mkdir_walk d [] p.

(** Opening [p] for writing and storing [n] there. *)
Definition write_node (d : disk) (p : path) (n : node) : result disk :=
  match node_at d p with
  | Some Dir => inl IsADirectoryError
  | _ =>
      match node_at d (parent p) with
      | Some Dir => inr (<[p := n]> d)
      | Some _ => inl NotADirectoryError
      | None => inl FileNotFoundError
      end
  end.

(** [handle.read()] on [p.open('r')]. *)
Definition read_text (d : disk) (p : path) : result string :=
  match node_at d p with
  | Some (TextFile s) => inr (Str.universal_newlines s)
  | Some (Pickle _) => inl UnicodeDecodeError
  | Some Dir => inl IsADirectoryError
  | None => inl FileNotFoundError
  end.

(** [torch.load(p)]. *)
Definition unpickle (d : disk) (p : path) : result payload :=
  match node_at d p with
  | Some (Pickle x) => inr x
  | Some (TextFile _) => inl UnpicklingError
  | Some Dir => inl IsADirectoryError
  | None => inl FileNotFoundError
  end.

(** The entries directly inside [p], as [p.iterdir()] lists them. *)
Definition iterdir (d : disk) (p : path) : result (list path) :=
  match node_at d p with
  | Some Dir =>
      inr (filter (λ q : path, parent q = p ∧ q ≠ []) (fst <$> map_to_list d))
  | Some _ => inl NotADirectoryError
  | None => inl FileNotFoundError
  end.

(** [shutil.copy(src, dst_dir)]: a regular file is copied under its own
    name into the directory. *)
Definition copy_into (d : disk) (src dst_dir : path) : result disk :=
  match node_at d src with
  | Some Dir => inl IsADirectoryError
  | None => inl FileNotFoundError
  | Some n =>
      if is_dir d dst_dir then write_node d (child dst_dir (name src)) n
      else write_node d dst_dir n
  end.

End FS.

Import FS.

(** ** Values handed to the library and to wandb *)

Inductive pyval :=
| VStr (s : string)
| VBool (b : bool)
| VInt (z : Z)
| VFloat (f : float).

(** Keyword arguments, in the order the call site writes them. *)
Abbreviation kwargs := (list (string * pyval)).

Inductive metric := Bleu | Rouge | BertScore.

Inductive wandb_image := WandbImage (sample : nat) (caption : string).

(** A value of the record [evaluate] logs; a score keeps the metric it came
    from. *)
Inductive logval :=
| LCondition (kw : kwargs)
| LScore (m : metric) (x : float)
| LSamples (imgs : list wandb_image).

(** The record one ablation trial logs ([samples] left out). *)
Record trial_log := TrialLog {
  tl_experiment : string;
  tl_version : string;
  tl_condition : string;
  tl_trial : nat;
  tl_frac_ablated : float;
  tl_n_ablated : nat;
  tl_accuracy : float
}.

(** ** Effects: a trace of library calls over the disk, stopped by an exception *)

Inductive event :=
| EvRmtree (p : path)
| EvMkdir (p : path)
| EvCopy (src dst : path)
| EvTorchLoad (p : path)
| EvTorchSave (x : payload) (p : path)
| EvReadText (p : path)
| EvWriteText (p : path) (s : string)
| EvRandomSplit
| EvFixedSplit
| EvLmLoad (p : path)
| EvLmFit
| EvLmSave (p : path)
| EvDecoderLoad (p : path)
| EvEncoderBuild
| EvDecoderBuild (with_lm : bool)
| EvEncoderMap (split : string)
| EvDecoderFit (features : bool)
| EvDecoderSave (p : path)
| EvBertScorer
| EvDecoderPredict (kw : kwargs) (features : bool)
| EvBleu
| EvRouge
| EvBertScore
| EvSamples (kw : kwargs)
| EvWandbLog (log : gmap string logval)
| EvCnnBuild
| EvCnnLoadState (p : path)
| EvCnnFit
| EvDissect (layer : string)
| EvCaption
| EvScoreUnit (index : nat)
| EvFineTune (ablated : list nat)
| EvTestAccuracy (ablated : list nat)
| EvWandbTrial (t : trial_log).

Record outcome (A : Type) := Outcome {
  trace : list event;
  final : disk;
  res : result A
}.
Arguments Outcome {A} _ _ _.
Arguments trace {A} _.
Arguments final {A} _.
Arguments res {A} _.

(** A run from a disk: the calls made, the disk left behind and either a
    value or the exception that stopped it. *)
Definition M (A : Type) : Type := disk → outcome A.

Definition ret {A : Type} (a : A) : M A := λ d, Outcome [] d (inr a).

Definition bind {A B : Type} (m : M A) (k : A → M B) : M B :=
  λ d,
    let o := m d in
    match res o with
    | inl e => Outcome (trace o) (final o) (inl e)
    | inr a =>
        let o' := k a (final o) in
        Outcome (trace o ++ trace o') (final o') (res o')
    end.

Definition emit (e : event) : M unit := λ d, Outcome [e] d (inr tt).
Definition raise {A : Type} (e : error) : M A := λ d, Outcome [] d (inl e).
Definition get_disk : M disk := λ d, Outcome [] d (inr d).
Definition put_disk (d' : disk) : M unit := λ _, Outcome [] d' (inr tt).

Definition lift {A : Type} (r : result A) : M A :=
  match r with
  | inl e => raise e
  | inr a => ret a
  end.

(** [assert b]. *)
Definition py_assert (b : bool) : M unit :=
  if b then ret tt else raise AssertionError.

#[global] Instance M_ret : MRet M := @ret.
#[global] Instance M_bind : MBind M := λ A B k m, bind m k.

(** [for x in l: body x]. *)
Fixpoint for_each {A : Type} (l : list A) (body : A → M unit) : M unit :=
  match l with
  | [] => ret tt
  | x :: l' => body x ;; for_each l' body
  end.

(** A disk update that can fail, recorded as the event [e]. *)
Definition update_disk (e : event) (f : disk → result disk) : M unit :=
  emit e ;;
  d ← get_disk;
  d' ← lift (f d);
  put_disk d'.

Definition path_exists (p : path) : M bool := λ d, Outcome [] d (inr (exists_ d p)).
Definition path_is_file (p : path) : M bool := λ d, Outcome [] d (inr (is_file d p)).

Definition torch_save (x : payload) (p : path) : M unit :=
  update_disk (EvTorchSave x p) (λ d, write_node d p (Pickle x)).

Definition torch_load (p : path) : M payload :=
  emit (EvTorchLoad p) ;;
  d ← get_disk;
  lift (unpickle d p).

(** ** What both scripts start with *)

(** [x or default] for an optional string: [None] and [''] are falsy. *)
Definition py_or (x : option string) (default : string) : string :=
  match x with
  | Some (String c s) => String c s
  | _ => default
  end.

(** [args.device or 'cuda' if cuda.is_available() else 'cpu']: the
    conditional expression binds loosest, so the [or] is its first branch. *)
Definition select_device (device : option string) (cuda_is_available : bool) : string :=
  if cuda_is_available then py_or device "cuda" else "cpu".

(** The other grouping, [args.device or ('cuda' if ... else 'cpu')], which
    Python does not choose. *)
Definition select_device_other_grouping (device : option string)
    (cuda_is_available : bool) : string :=
  py_or device (if cuda_is_available then "cuda" else "cpu").

(** [if args.clear_results_dir and results_dir.exists(): shutil.rmtree(results_dir)]
    then [results_dir.mkdir(exist_ok=True, parents=True)]. *)
Definition setup_results_dir (clear_results_dir : bool) (results_dir : path) : M unit :=
  there ← path_exists results_dir;
  (if (clear_results_dir && there)%bool
   then update_disk (EvRmtree results_dir) (λ d, rmtree d results_dir)
   else ret tt) ;;
  update_disk (EvMkdir results_dir) (λ d, mkdir_parents d results_dir).

(** [x in l] for strings. *)
Definition py_in (x : string) (l : list string) : bool := existsb (String.eqb x) l.

(** A model's [load]: the file is unpickled; what the library makes of the
    object is its own business. *)
Definition model_load (e : event) (p : path) : M unit :=
  emit e ;;
  d ← get_disk;
  _ ← lift (unpickle d p);
  mret tt.

(** A model's [save], and [torch.save] of a state dict. *)
Definition model_save (e : event) (x : payload) (p : path) : M unit :=
  update_disk e (λ d, write_node d p (Pickle x)).

(** [splits = torch.load(f)] followed by [splits[key]]. *)
Definition load_splits (f : path) (key : string) : M unit :=
  x ← torch_load f;
  match x with
  | PSplits keys => if py_in key keys then emit EvFixedSplit else raise KeyError
  | _ => raise TypeError
  end.

(** * run_captioner_sweep.py *)

Module Sweep.

Definition SWEEP_GREEDY : string := "greedy".
Definition SWEEP_BEAM : string := "beam".
Definition SWEEP_GREEDY_MI : string := "greedy-mi".
Definition SWEEP_BEAM_MI : string := "beam-mi".
Definition SWEEP_RERANK : string := "rerank".
Definition SWEEPS : list string :=
  [SWEEP_GREEDY; SWEEP_BEAM; SWEEP_GREEDY_MI; SWEEP_BEAM_MI; SWEEP_RERANK].

Definition ENCODER_RESNET101 : string := "resnet101".

Definition SCORE_BLEU : string := "bleu".
Definition SCORE_ROUGE : string := "rouge".
Definition SCORE_BERT_SCORE : string := "bert-score".
Definition SCORES : list string := [SCORE_BLEU; SCORE_ROUGE; SCORE_BERT_SCORE].

(** The parsed command line (the wandb names and the data directory play no
    part below). *)
Record args := Args {
  sweeps : list string;
  encoder : string;
  scores : list string;
  pretrained : option path;
  precompute_features : bool;
  beam_size_min : Z;
  beam_size_max : Z;
  beam_size_step : Z;
  mi_temperature_min : float;
  mi_temperature_max : float;
  mi_temperature_step : float;
  results_dir : option path;
  clear_results_dir : bool;
  device : option string
}.

Definition default_args : args :=
  {| sweeps := SWEEPS; encoder := ENCODER_RESNET101; scores := SCORES;
     pretrained := None; precompute_features := false;
     beam_size_min := 5; beam_size_max := 50; beam_size_step := 5;
     mi_temperature_min := 0.05; mi_temperature_max := 0.75;
     mi_temperature_step := 0.05;
     results_dir := None; clear_results_dir := false; device := None |}.

(** What the machine and the [lv] library answer during one run. *)
Record lv := Lv {
  cuda_is_available : bool;
  env_results_dir : path;
  decoder_predict : kwargs → list string;
  decoder_bleu : list string → float * list float;
  decoder_rouge : list string → list (string * list (string * float));
  decoder_bert_score : list string → list (string * float);
  random_neuron_wandb_images : list string → kwargs → list wandb_image
}.

Definition key (a : args) : string :=
  String.append "captioner-" (String.append (encoder a) "-sweep").

Definition the_device (l : lv) (a : args) : string :=
  select_device (device a) (cuda_is_available l).

Definition the_results_dir (l : lv) (a : args) : path :=
  match results_dir a with
  | Some p => p
  | None => child (env_results_dir l) (key a)
  end.

Definition splits_file (rd : path) : path := child rd "splits.pth".
Definition lm_file (rd : path) : path := child rd "lm.pth".
Definition captioner_file (rd : path) : path := child rd "captioner.pth".

(** [for child in args.pretrained.iterdir(): shutil.copy(child, results_dir)]. *)
Definition import_pretrained (a : args) (rd : path) : M unit :=
  match pretrained a with
  | None => mret tt
  | Some src =>
      d ← get_disk;
      children ← lift (iterdir d src);
      for_each children (λ c, update_disk (EvCopy c rd) (λ d, copy_into d c rd))
  end.

(** [bert_scorer]: built exactly when the BERTScore is asked for. *)
Definition prepare_bert_scorer (a : args) : M bool :=
  if py_in SCORE_BERT_SCORE (scores a) then emit EvBertScorer ;; mret true
  else mret false.

(** The train/test splits. *)
Definition load_or_make_splits (rd : path) : M unit :=
  there ← path_exists (splits_file rd);
  if (there : bool) then load_splits (splits_file rd) "train"
  else emit EvRandomSplit ;; torch_save (PSplits ["train"; "test"]) (splits_file rd).

(** The language model; the result says whether [lm] is set. *)
Definition load_or_train_lm (a : args) (rd : path) : M bool :=
  there ← path_exists (lm_file rd);
  if (there : bool) then model_load (EvLmLoad (lm_file rd)) (lm_file rd) ;; mret true
  else if (py_in SWEEP_GREEDY_MI (sweeps a) || py_in SWEEP_BEAM_MI (sweeps a))%bool
  then emit EvLmFit ;;
       model_save (EvLmSave (lm_file rd)) PLanguageModel (lm_file rd) ;;
       mret true
  else mret false.

(** The captioner. *)
Definition load_or_train_captioner (a : args) (rd : path) (lm : bool) : M unit :=
  c ← path_is_file (captioner_file rd);
  s ← path_is_file (splits_file rd);
  if ((c : bool) && (s : bool))%bool
  then model_load (EvDecoderLoad (captioner_file rd)) (captioner_file rd)
  else emit EvEncoderBuild ;;
       emit (EvDecoderBuild lm) ;;
       (if precompute_features a then emit (EvEncoderMap "train") else mret tt) ;;
       emit (EvDecoderFit (precompute_features a)) ;;
       model_save (EvDecoderSave (captioner_file rd)) PCaptioner (captioner_file rd).

Definition featurize_test (a : args) : M unit :=
  if precompute_features a then emit (EvEncoderMap "test") else mret tt.

(** The assignments [log[k] = v] of one metric, in order. *)
Definition bleu_entries (b : float * list float) : list (string * logval) :=
  ("bleu", LScore Bleu b.1)
  :: imap (λ index precision,
             (String.append "bleu-" (pretty (index + 1)%nat), LScore Bleu precision))
          b.2.

Definition rouge_entries (r : list (string * list (string * float)))
    : list (string * logval) :=
  flat_map (λ ks : string * list (string * float),
              map (λ e : string * float,
                     (String.append ks.1 (String.append "-" e.1), LScore Rouge e.2))
                  ks.2)
           r.

Definition bert_entries (b : list (string * float)) : list (string * logval) :=
  map (λ e : string * float,
         (String.append "bert_score-" e.1, LScore BertScore e.2))
      b.

Definition assign_all (entries : list (string * logval)) (log : gmap string logval)
    : gmap string logval :=
  fold_left (λ log kv, <[kv.1 := kv.2]> log) entries log.

(** [evaluate] with its keyword arguments.  [bert_scorer] says whether the
    global scorer is set and [features] whether test features were
    precomputed; the first assertion of the source, that the decoder is a
    [Decoder], holds on both ways the script gets one. *)
Definition evaluate (l : lv) (a : args) (bert_scorer features : bool) (kw : kwargs)
    : M unit :=
  emit (EvDecoderPredict kw features) ;;
  let predictions := decoder_predict l kw in
  let log : gmap string logval := {["condition" := LCondition kw]} in
  log ← (if py_in SCORE_BLEU (scores a)
         then emit EvBleu ;;
              mret (assign_all (bleu_entries (decoder_bleu l predictions)) log)
         else mret log);
  log ← (if py_in SCORE_ROUGE (scores a)
         then emit EvRouge ;;
              mret (assign_all (rouge_entries (decoder_rouge l predictions)) log)
         else mret log);
  log ← (if py_in SCORE_BERT_SCORE (scores a)
         then py_assert bert_scorer ;;
              emit EvBertScore ;;
              mret (assign_all (bert_entries (decoder_bert_score l predictions)) log)
         else mret log);
  emit (EvSamples kw) ;;
  emit (EvWandbLog
          (<["samples" := LSamples (random_neuron_wandb_images l predictions kw)]> log)).

Definition kw_greedy : kwargs :=
  [("strategy", VStr "greedy"); ("mi", VBool false)].
Definition kw_beam (beam_size : Z) : kwargs :=
  [("strategy", VStr "beam"); ("mi", VBool false); ("beam_size", VInt beam_size)].
Definition kw_greedy_mi (temperature : float) : kwargs :=
  [("strategy", VStr "greedy"); ("mi", VBool true); ("temperature", VFloat temperature)].
Definition kw_beam_mi (beam_size : Z) (temperature : float) : kwargs :=
  [("strategy", VStr "beam"); ("beam_size", VInt beam_size); ("mi", VBool true);
   ("temperature", VFloat temperature)].
Definition kw_rerank (beam_size : Z) (temperature : float) : kwargs :=
  [("strategy", VStr "rerank"); ("beam_size", VInt beam_size);
   ("temperature", VFloat temperature)].

Definition beam_sizes (a : args) : result (list Z) :=
  Numpy.arange_int (beam_size_min a) (beam_size_max a) (beam_size_step a).

Definition temperatures (a : args) : result (list float) :=
  Numpy.arange_float (mi_temperature_min a) (mi_temperature_max a)
                     (mi_temperature_step a).

(** The body of [for sweep in args.sweeps]; [ev] is [evaluate]. *)
Definition run_sweep (ev : kwargs → M unit) (a : args) (sweep : string) : M unit :=
  if String.eqb sweep SWEEP_GREEDY then ev kw_greedy
  else if String.eqb sweep SWEEP_BEAM then
    bs ← lift (beam_sizes a);
    for_each bs (λ beam_size, ev (kw_beam beam_size))
  else if String.eqb sweep SWEEP_GREEDY_MI then
    ts ← lift (temperatures a);
    for_each ts (λ temperature, ev (kw_greedy_mi temperature))
  else if String.eqb sweep SWEEP_BEAM_MI then
    bs ← lift (beam_sizes a);
    for_each bs (λ beam_size,
      ts ← lift (temperatures a);
      for_each ts (λ temperature, ev (kw_beam_mi beam_size temperature)))
  else
    py_assert (String.eqb sweep SWEEP_RERANK) ;;
    bs ← lift (beam_sizes a);
    for_each bs (λ beam_size,
      ts ← lift (temperatures a);
      for_each ts (λ temperature, ev (kw_rerank beam_size temperature))).

(** The script, top to bottom.  [wandb.init] and [zoo.datasets] come first
    in the source; they touch neither the results directory nor the control
    flow, and the device goes only into library calls. *)
Definition main (l : lv) (a : args) : M unit :=
  let rd := the_results_dir l a in
  setup_results_dir (clear_results_dir a) rd ;;
  import_pretrained a rd ;;
  bert_scorer ← prepare_bert_scorer a;
  load_or_make_splits rd ;;
  lm ← load_or_train_lm a rd;
  load_or_train_captioner a rd lm ;;
  featurize_test a ;;
  for_each (sweeps a)
           (run_sweep (evaluate l a bert_scorer (precompute_features a)) a).

End Sweep.

(** * run_cnn_cert.py *)

Module Cert.

Definition VERSION_ORIGINAL : string := "original".
Definition VERSION_5PCT : string := "5pct".
Definition VERSION_10PCT : string := "10pct".
Definition VERSION_50PCT : string := "50pct".
Definition VERSION_100PCT : string := "100pct".
Definition VERSIONS : list string :=
  [VERSION_ORIGINAL; VERSION_5PCT; VERSION_10PCT; VERSION_50PCT; VERSION_100PCT].

Definition CONDITION_SORT_SPURIOUS : string := "sort-spurious".
Definition CONDITION_SORT_ALL : string := "sort-all".
Definition CONDITION_RANDOM : string := "random".
Definition CONDITIONS : list string :=
  [CONDITION_SORT_SPURIOUS; CONDITION_SORT_ALL; CONDITION_RANDOM].

(** The parsed command line (training hyperparameters and wandb names play
    no part below). *)
Record args := Args {
  experiments : list string;
  versions : list string;
  conditions : list string;
  cnn : string;
  n_random_trials : Z;
  fine_tune : bool;
  results_dir : option path;
  clear_results_dir : bool;
  ablation_min : float;
  ablation_max : float;
  ablation_step_size : float;
  device : option string
}.

(** What the machine, [random] and the [lv] library answer during one run.
    The two experiment keys are constants of [lv.dissection.zoo]; [layers]
    comes with the CNN from the zoo, [n_units] is [len(dissected)],
    [decoder_predict] the captions of the dissected units, [unit_accuracy]
    the validation accuracy with one unit ablated, [ablated_accuracy] the
    test accuracy with a list of units ablated, and [randbelow] the draws of
    the random generator in a given trial. *)
Record lv := Lv {
  KEY_SPURIOUS_IMAGENET_TEXT : string;
  KEY_SPURIOUS_IMAGENET_COLOR : string;
  cuda_is_available : bool;
  env_results_dir : path;
  layers : list string;
  n_units : string → string → nat;
  decoder_predict : string → string → list string;
  unit_accuracy : string → string → nat → float;
  ablated_accuracy : string → string → list nat → float;
  randbelow : string → string → string → nat → nat → nat → nat
}.

Definition EXPERIMENTS (l : lv) : list string :=
  [KEY_SPURIOUS_IMAGENET_TEXT l; KEY_SPURIOUS_IMAGENET_COLOR l].

Definition the_device (l : lv) (a : args) : string :=
  select_device (device a) (cuda_is_available l).

Definition the_results_dir (l : lv) (a : args) : path :=
  match results_dir a with
  | Some p => p
  | None => child (env_results_dir l) "cnn-cert"
  end.

Definition TEXT_WORDS : list string := ["word"; "text"; "letter"].
Definition COLOR_WORDS : list string :=
  ["red"; "yellow"; "green"; "blue"; "cyan"; "purple"; "brown"; "black";
   "white"; "gray"].

Definition target_words (l : lv) (experiment : string) : M (list string) :=
  if String.eqb experiment (KEY_SPURIOUS_IMAGENET_TEXT l) then mret TEXT_WORDS
  else py_assert (String.eqb experiment (KEY_SPURIOUS_IMAGENET_COLOR l)) ;;
       mret COLOR_WORDS.

Definition stem (a : args) (version : string) : string :=
  String.append (cnn a) (String.append "-" version).

Definition splits_file (experiment_dir : path) : path :=
  child experiment_dir "splits.pth".
Definition cnn_file (a : args) (experiment_dir : path) (version : string) : path :=
  child experiment_dir (String.append (stem a version) ".pth").
Definition captions_file (a : args) (experiment_dir : path) (version : string) : path :=
  child experiment_dir (String.append (stem a version) "-captions.txt").
Definition candidates_file (a : args) (experiment_dir : path) (version : string) : path :=
  child experiment_dir (String.append (stem a version) "-units.txt").
Definition scores_file (a : args) (experiment_dir : path) (version : string) : path :=
  child experiment_dir (String.append (stem a version) "-scores.pth").

(** The train/val splits. *)
Definition load_or_make_splits (experiment_dir : path) : M unit :=
  there ← path_exists (splits_file experiment_dir);
  if (there : bool) then load_splits (splits_file experiment_dir) "val"
  else emit EvRandomSplit ;;
       torch_save (PSplits ["train"; "val"]) (splits_file experiment_dir).

(** The trained classifier. *)
Definition load_or_fit_cnn (a : args) (experiment_dir : path) (version : string)
    : M unit :=
  let f := cnn_file a experiment_dir version in
  there ← path_exists f;
  if (there : bool) then _ ← torch_load f; emit (EvCnnLoadState f)
  else emit EvCnnFit ;; torch_save PStateDict f.

Definition newline : string := String Str.LF EmptyString.

(** The captions of the dissected units, one per unit. *)
Definition load_or_predict_captions (l : lv) (a : args) (experiment : string)
    (experiment_dir : path) (version : string) : M (list string) :=
  let f := captions_file a experiment_dir version in
  there ← path_exists f;
  if (there : bool) then
    emit (EvReadText f) ;;
    d ← get_disk;
    text ← lift (read_text d f);
    let captions := Str.split Str.LF text in
    py_assert (Nat.eqb (length captions) (n_units l experiment version)) ;;
    mret captions
  else
    emit EvCaption ;;
    let captions := decoder_predict l experiment version in
    let text := Str.join newline captions in
    update_disk (EvWriteText f text) (λ d, write_node d f (TextFile text)) ;;
    mret captions.

(** [[index for index, caption in enumerate(captions)
      if any(word in caption.lower() for word in target_words)]]. *)
Definition candidate_indices (target_words : list string) (captions : list string)
    : list nat :=
  map fst
      (List.filter
         (λ ic : nat * string,
            existsb (λ word, Str.contains word (Str.lower ic.2)) target_words)
         (imap (λ index caption, (index, caption)) captions)).

(** The per-unit scores, wanted only by the two sorting conditions. *)
Definition load_or_compute_scores (l : lv) (a : args) (experiment : string)
    (experiment_dir : path) (version : string) : M (option payload) :=
  let sort_spurious := py_in CONDITION_SORT_SPURIOUS (conditions a) in
  let sort_all := py_in CONDITION_SORT_ALL (conditions a) in
  if (sort_spurious || sort_all)%bool then
    let f := scores_file a experiment_dir version in
    there ← path_exists f;
    if (there : bool) then x ← torch_load f; mret (Some x)
    else
      let units := seq 0 (n_units l experiment version) in
      for_each units (λ index, emit (EvScoreUnit index)) ;;
      let scores := PScores (map (unit_accuracy l experiment version) units) in
      torch_save scores f ;;
      mret (Some scores)
  else mret None.

(** [scores.__getitem__(index)]. *)
Definition getitem (scores : payload) (index : nat) : result float :=
  match scores with
  | PScores xs =>
      match xs !! index with
      | Some x => inr x
      | None => inl IndexError
      end
  | _ => inl TypeError
  end.

Fixpoint keyed (scores : payload) (indices : list nat) : result (list (nat * float)) :=
  match indices with
  | [] => inr []
  | i :: rest =>
      result_bind (getitem scores i) (λ x,
      result_bind (keyed scores rest) (λ tl, inr ((i, x) :: tl)))
  end.

Fixpoint insert_desc (x : nat * float) (sorted : list (nat * float))
    : list (nat * float) :=
  match sorted with
  | [] => [x]
  | y :: rest =>
      if PrimFloat.ltb y.2 x.2 then x :: y :: rest else y :: insert_desc x rest
  end.

(** [sorted(indices, key=scores.__getitem__, reverse=True)]: descending,
    equal keys in their original order. *)
Definition sorted_by_score (scores : payload) (indices : list nat) : result (list nat) :=
  result_bind (keyed scores indices) (λ ks,
  inr (map fst (fold_left (λ acc x, insert_desc x acc) ks []))).

(** The pool loop of [random.sample]: draw [i] picks slot [j] below the
    [n - i] live slots, which is taken and refilled with the last live one.
    [draw i bound] stands for the [i]-th [randbelow(bound)] of the call. *)
Fixpoint sample_pool (draw : nat → nat → nat) (pool : list nat) (n i k : nat)
    : list nat :=
  match k with
  | O => []
  | S k' =>
      let j := (draw i (n - i) mod (n - i))%nat in
      nth j pool O
      :: sample_pool draw (<[j := nth (n - i - 1) pool O]> pool) n (S i) k'
  end.

(** [random.sample(population, k=k)]. *)
Definition random_sample (draw : nat → nat → nat) (population : list nat) (k : nat)
    : result (list nat) :=
  if Nat.ltb (length population) k then inl ValueError
  else inr (sample_pool draw population (length population) 0 k).

(** [l[:k]]: a negative [k] counts from the end. *)
Definition slice_to {A : Type} (l : list A) (k : Z) : list A :=
  if 0 <=? k then firstn (Z.to_nat k) l
  else firstn (Z.to_nat (Z.of_nat (length l) + k)) l.

(** The units one trial may ablate, most eligible first. *)
Definition choose_indices (l : lv) (experiment version condition : string)
    (trial : nat) (n_dissected : nat) (candidates : list nat)
    (scores : option payload) : M (list nat) :=
  if String.eqb condition CONDITION_SORT_SPURIOUS then
    match scores with
    | None => raise AssertionError
    | Some s => lift (sorted_by_score s candidates)
    end
  else if String.eqb condition CONDITION_SORT_ALL then
    match scores with
    | None => raise AssertionError
    | Some s =>
        all ← lift (sorted_by_score s (seq 0 n_dissected));
        mret (firstn (length candidates) all)
    end
  else
    py_assert (String.eqb condition CONDITION_RANDOM) ;;
    lift (random_sample (randbelow l experiment version condition trial)
                        (seq 0 n_dissected) (length candidates)).

(** [int(fraction * len(indices))]. *)
Definition n_to_ablate (fraction : float) (indices : list nat) : result Z :=
  Numpy.float_to_int (fraction * Numpy.float_of_nat (length indices))%float.

(** One pass of [for fraction in fractions]. *)
Definition run_fraction (l : lv) (a : args) (experiment version condition : string)
    (trial : nat) (indices : list nat) (fraction : float) : M unit :=
  k ← lift (n_to_ablate fraction indices);
  let ablated_indices := slice_to indices k in
  (if fine_tune a then emit (EvFineTune ablated_indices) else mret tt) ;;
  emit (EvTestAccuracy ablated_indices) ;;
  emit (EvWandbTrial
          {| tl_experiment := experiment;
             tl_version := version;
             tl_condition := condition;
             tl_trial := trial;
             tl_frac_ablated := fraction;
             tl_n_ablated := length ablated_indices;
             tl_accuracy := ablated_accuracy l experiment version ablated_indices |}).

Definition fractions (a : args) : result (list float) :=
  Numpy.arange_float (ablation_min a) (ablation_max a) (ablation_step_size a).

(** How many trials a condition gets: [range(1, trials + 1)]. *)
Definition trials (a : args) (condition : string) : list nat :=
  seq 1 (Z.to_nat (if String.eqb condition CONDITION_RANDOM
                   then n_random_trials a else 1)).

(** [for condition in args.conditions] with everything below it. *)
Definition run_conditions (l : lv) (a : args) (experiment version : string)
    (n_dissected : nat) (candidates : list nat) (scores : option payload) : M unit :=
  for_each (conditions a) (λ condition,
    for_each (trials a condition) (λ trial,
      indices ← choose_indices l experiment version condition trial
                               n_dissected candidates scores;
      fs ← lift (fractions a);
      for_each fs (run_fraction l a experiment version condition trial indices))).

(** One pass of [for version in args.versions].  What [dissect.discriminative]
    writes below its own directory [<cnn>-<version>/] is the library's. *)
Definition run_version (l : lv) (a : args) (experiment : string)
    (experiment_dir : path) (words : list string) (version : string) : M unit :=
  load_or_make_splits experiment_dir ;;
  emit EvCnnBuild ;;
  load_or_fit_cnn a experiment_dir version ;;
  for_each (layers l) (λ layer, emit (EvDissect layer)) ;;
  captions ← load_or_predict_captions l a experiment experiment_dir version;
  let candidates := candidate_indices words captions in
  torch_save (PUnits candidates) (candidates_file a experiment_dir version) ;;
  scores ← load_or_compute_scores l a experiment experiment_dir version;
  run_conditions l a experiment version (n_units l experiment version)
                 candidates scores.

(** The script, top to bottom.  [wandb.init], the loading of the captioner
    from the zoo and of the two datasets of a version are left out: they
    touch neither the results directory nor the control flow. *)
Definition main (l : lv) (a : args) : M unit :=
  let rd := the_results_dir l a in
  setup_results_dir (clear_results_dir a) rd ;;
  for_each (experiments a) (λ experiment,
    let experiment_dir := child rd experiment in
    update_disk (EvMkdir experiment_dir) (λ d, mkdir_parents d experiment_dir) ;;
    words ← target_words l experiment;
    for_each (versions a) (run_version l a experiment experiment_dir words)).

End Cert.

(** ** What a trace shows *)

(** The keyword arguments of the [decoder.predict] calls, one per call of
    [evaluate], in order. *)
Definition calls_of (t : list event) : list kwargs :=
  flat_map (λ e, match e with EvDecoderPredict kw _ => [kw] | _ => [] end) t.

(** The records given to [wandb.log] by the sweep script, in order. *)
Definition logs_of (t : list event) : list (gmap string logval) :=
  flat_map (λ e, match e with EvWandbLog log => [log] | _ => [] end) t.

(** The records given to [wandb.log] by the ablation script, in order. *)
Definition trials_of (t : list event) : list trial_log :=
  flat_map (λ e, match e with EvWandbTrial r => [r] | _ => [] end) t.

(** The loop position a trial record was logged at. *)
Definition trial_key (r : trial_log) : string * string * string * nat * float :=
  (tl_experiment r, tl_version r, tl_condition r, tl_trial r, tl_frac_ablated r).

(** [w] occurs in [s]: [s] is some text, then [w], then some text. *)
Definition occurs_in (w s : string) : Prop :=
  ∃ before after : string, s = String.append before (String.append w after).


(** The record as [evaluate] builds it, metric by metric. *)
Definition log_after_bleu (l : Sweep.lv) (a : Sweep.args) (kw : kwargs)
    : gmap string logval :=
  let log : gmap string logval := {["condition" := LCondition kw]} in
  if py_in Sweep.SCORE_BLEU (Sweep.scores a)
  then Sweep.assign_all
         (Sweep.bleu_entries (Sweep.decoder_bleu l (Sweep.decoder_predict l kw))) log
  else log.

Definition log_after_rouge (l : Sweep.lv) (a : Sweep.args) (kw : kwargs)
    : gmap string logval :=
  if py_in Sweep.SCORE_ROUGE (Sweep.scores a)
  then Sweep.assign_all
         (Sweep.rouge_entries (Sweep.decoder_rouge l (Sweep.decoder_predict l kw)))
         (log_after_bleu l a kw)
  else log_after_bleu l a kw.

Definition log_after_bert (l : Sweep.lv) (a : Sweep.args) (kw : kwargs)
    : gmap string logval :=
  if py_in Sweep.SCORE_BERT_SCORE (Sweep.scores a)
  then Sweep.assign_all
         (Sweep.bert_entries (Sweep.decoder_bert_score l (Sweep.decoder_predict l kw)))
         (log_after_rouge l a kw)
  else log_after_rouge l a kw.

Definition logged (l : Sweep.lv) (a : Sweep.args) (kw : kwargs) : gmap string logval :=
  <["samples" := LSamples (Sweep.random_neuron_wandb_images
                             l (Sweep.decoder_predict l kw) kw)]>
    (log_after_bert l a kw).

Definition evaluate_trace (a : Sweep.args) (features : bool) (kw : kwargs)
    (log : gmap string logval) : list event :=
  [EvDecoderPredict kw features]
  ++ (if py_in Sweep.SCORE_BLEU (Sweep.scores a) then [EvBleu] else [])
  ++ (if py_in Sweep.SCORE_ROUGE (Sweep.scores a) then [EvRouge] else [])
  ++ (if py_in Sweep.SCORE_BERT_SCORE (Sweep.scores a) then [EvBertScore] else [])
  ++ [EvSamples kw; EvWandbLog log].

(** Whether [--scores] names the metric. *)
Definition asked_for (a : Sweep.args) (m : metric) : bool :=
  match m with
  | Bleu => py_in Sweep.SCORE_BLEU (Sweep.scores a)
  | Rouge => py_in Sweep.SCORE_ROUGE (Sweep.scores a)
  | BertScore => py_in Sweep.SCORE_BERT_SCORE (Sweep.scores a)
  end.


(** The two nested loops of the [beam-mi] and [rerank] sweeps. *)
Definition grid (ev : kwargs → M unit) (a : Sweep.args) (kw : Z → float → kwargs)
    : M unit :=
  bs ← lift (Sweep.beam_sizes a);
  for_each bs (λ beam_size,
    ts ← lift (Sweep.temperatures a);
    for_each ts (λ temperature, ev (kw beam_size temperature))).


(** The loop position of a logged trial, or nothing for any other event. *)
Definition key_of (e : event) : list (string * string * string * nat * float) :=
  match e with
  | EvWandbTrial r => [trial_key r]
  | _ => []
  end.

(** The loop positions [run_cnn_cert.py] passes through, outermost loop
    first: experiments, versions, conditions, trial numbers, fractions. *)
Definition trial_nest (a : Cert.args) (fs : list float)
    : list (string * string * string * nat * float) :=
  flat_map (λ experiment,
    flat_map (λ version,
      flat_map (λ condition,
        flat_map (λ trial,
          map (λ fraction, (experiment, version, condition, trial, fraction)) fs)
          (Cert.trials a condition))
        (Cert.conditions a))
      (Cert.versions a))
    (Cert.experiments a).

(** Whether a caption names one of the target words. *)
Definition names_target (words : list string) (caption : string) : bool :=
  existsb (λ word, Str.contains word (Str.lower caption)) words.


(** A computation that never logs a trial. *)
Definition silent {A : Type} (m : M A) : Prop := ∀ d, trials_of (trace (m d)) = [].


(** ** Sample inputs *)

Module Sample.

(** A stand-in for the library during a sweep: one prediction, two BLEU
    precisions, one ROUGE kind and one BERTScore kind. *)
Definition sweep_lv : Sweep.lv :=
  {| Sweep.cuda_is_available := false;
     Sweep.env_results_dir := ["results"];
     Sweep.decoder_predict := λ _, ["a red word"];
     Sweep.decoder_bleu := λ _, (0.5%float, [0.75%float; 0.25%float]);
     Sweep.decoder_rouge := λ _, [("rouge1", [("precision", 0.5%float)])];
     Sweep.decoder_bert_score := λ _, [("f", 0.5%float)];
     Sweep.random_neuron_wandb_images :=
       λ predictions _, imap WandbImage predictions |}.

(** [--sweeps greedy --scores bleu], everything else at its default. *)
Definition greedy_args : Sweep.args :=
  {| Sweep.sweeps := ["greedy"]; Sweep.encoder := Sweep.ENCODER_RESNET101;
     Sweep.scores := ["bleu"];
     Sweep.pretrained := None; Sweep.precompute_features := false;
     Sweep.beam_size_min := 5; Sweep.beam_size_max := 50; Sweep.beam_size_step := 5;
     Sweep.mi_temperature_min := 0.05; Sweep.mi_temperature_max := 0.75;
     Sweep.mi_temperature_step := 0.05;
     Sweep.results_dir := None; Sweep.clear_results_dir := false;
     Sweep.device := None |}.

(** [--sweeps rerank --beam-size-min 5 --beam-size-max 10
     --mi-temperature-min 1 --mi-temperature-max 1.3 --mi-temperature-step .1]. *)
Definition rerank_args : Sweep.args :=
  {| Sweep.sweeps := ["rerank"]; Sweep.encoder := Sweep.ENCODER_RESNET101;
     Sweep.scores := Sweep.SCORES;
     Sweep.pretrained := None; Sweep.precompute_features := false;
     Sweep.beam_size_min := 5; Sweep.beam_size_max := 10; Sweep.beam_size_step := 5;
     Sweep.mi_temperature_min := 1; Sweep.mi_temperature_max := 1.3;
     Sweep.mi_temperature_step := 0.1;
     Sweep.results_dir := None; Sweep.clear_results_dir := false;
     Sweep.device := None |}.

(** A stand-in for the library during an ablation run: four dissected units
    with their captions; unit [i] scores [i]. *)
Definition cert_lv : Cert.lv :=
  {| Cert.KEY_SPURIOUS_IMAGENET_TEXT := "spurious-imagenet-text";
     Cert.KEY_SPURIOUS_IMAGENET_COLOR := "spurious-imagenet-color";
     Cert.cuda_is_available := false;
     Cert.env_results_dir := ["results"];
     Cert.layers := ["layer4"];
     Cert.n_units := λ _ _, 4%nat;
     Cert.decoder_predict := λ _ _, ["Red text"; "a dog"; "LETTERS"; "the word"];
     Cert.unit_accuracy := λ _ _ index, Numpy.float_of_nat index;
     Cert.ablated_accuracy := λ _ _ _, 0.5%float;
     Cert.randbelow := λ _ _ _ trial i _, (trial + i)%nat |}.

(** The same library on a network with no unit to dissect. *)
Definition empty_cert_lv : Cert.lv :=
  {| Cert.KEY_SPURIOUS_IMAGENET_TEXT := "spurious-imagenet-text";
     Cert.KEY_SPURIOUS_IMAGENET_COLOR := "spurious-imagenet-color";
     Cert.cuda_is_available := false;
     Cert.env_results_dir := ["results"];
     Cert.layers := [];
     Cert.n_units := λ _ _, 0%nat;
     Cert.decoder_predict := λ _ _, [];
     Cert.unit_accuracy := λ _ _ _, 0%float;
     Cert.ablated_accuracy := λ _ _ _, 0%float;
     Cert.randbelow := λ _ _ _ _ _ _, 0%nat |}.

(** The text experiment on the 50pct data, every condition, two random
    trials, fractions 0 and 0.5. *)
Definition cert_args : Cert.args :=
  {| Cert.experiments := ["spurious-imagenet-text"];
     Cert.versions := [Cert.VERSION_50PCT];
     Cert.conditions := Cert.CONDITIONS;
     Cert.cnn := "resnet18";
     Cert.n_random_trials := 2;
     Cert.fine_tune := false;
     Cert.results_dir := None;
     Cert.clear_results_dir := false;
     Cert.ablation_min := 0;
     Cert.ablation_max := 1;
     Cert.ablation_step_size := 0.5;
     Cert.device := None |}.

Definition experiment_dir : path := ["results"; "cnn-cert"; "spurious-imagenet-text"].

(** A disk holding the experiment directory and nothing else. *)
Definition fresh_disk : disk :=
  <[experiment_dir := Dir]>
    (<[["results"; "cnn-cert"] := Dir]> (<[["results"] := Dir]> ∅)).

End Sample.
(** ** What a run does to the disk, and what it computes again *)

(** [d'] still has every regular file and every directory of [d]. *)
Definition keeps (d d' : disk) : Prop :=
  ∀ p, (is_file d p = true → is_file d' p = true)
       ∧ (is_dir d p = true → is_dir d' p = true).

(** Away from the tree below [rd] the disk [d'] holds what [d] held, and
    nothing new but directories on the way down to [rd]. *)
Definition same_outside (rd : path) (d d' : disk) : Prop :=
  ∀ p, ¬ rd `prefix_of` p →
       (∀ n, d !! p = Some n → d' !! p = Some n)
       ∧ (∀ n, d' !! p = Some n → d !! p = Some n ∨ (n = Dir ∧ p `prefix_of` rd)).

(** A computation whose disk, from any start, is related by [R] to the one
    it started from, whether it returns or raises. *)
Definition steps (R : disk → disk → Prop) {A : Type} (m : M A) : Prop :=
  ∀ d, R d (final (m d)).

(** A computation that never makes an event [P] holds of. *)
Definition never (P : event → bool) {A : Type} (m : M A) : Prop :=
  ∀ d, Forall (λ e, P e = false) (trace (m d)).

(** The work a cache file saves, and the writing of the cache itself: the
    random split, the fitting of the language model, of the captioner and of
    the classifier, the captioning and the scoring of the units.  The list of
    candidate units is written on every run and is no cache. *)
Definition makes_cache (e : event) : bool :=
  match e with
  | EvRandomSplit | EvLmFit | EvLmSave _
  | EvEncoderBuild | EvDecoderBuild _ | EvDecoderFit _ | EvDecoderSave _
  | EvCnnFit | EvCaption | EvWriteText _ _ | EvScoreUnit _ => true
  | EvTorchSave (PUnits _) _ => false
  | EvTorchSave _ _ => true
  | EvEncoderMap split => String.eqb split "train"
  | _ => false
  end.

Definition is_random_split (e : event) : bool :=
  match e with EvRandomSplit => true | _ => false end.

(** How often a run splits a dataset at random. *)
Definition random_splits (t : list event) : nat :=
  length (List.filter is_random_split t).

(** The [condition] entry of each record given to [wandb.log]. *)
Definition conditions_of (t : list event) : list (option logval) :=
  map (λ log : gmap string logval, log !! "condition") (logs_of t).

(** The evaluations one sweep asks for, given the beam sizes and the
    temperatures. *)
Definition schedule (bs : list Z) (ts : list float) (sweep : string) : list kwargs :=
  if String.eqb sweep Sweep.SWEEP_GREEDY then [Sweep.kw_greedy]
  else if String.eqb sweep Sweep.SWEEP_BEAM then map Sweep.kw_beam bs
  else if String.eqb sweep Sweep.SWEEP_GREEDY_MI then map Sweep.kw_greedy_mi ts
  else if String.eqb sweep Sweep.SWEEP_BEAM_MI
  then flat_map (λ beam_size, map (Sweep.kw_beam_mi beam_size) ts) bs
  else if String.eqb sweep Sweep.SWEEP_RERANK
  then flat_map (λ beam_size, map (Sweep.kw_rerank beam_size) ts) bs
  else [].

(** The score [sorted] compares a unit by. *)
Definition score_of (xs : list float) (index : nat) : float := nth index xs 0%float.

(** The events of one call of [evaluate] that a sweep is read off from. *)
Definition evaluates (e : event) : bool :=
  match e with
  | EvDecoderPredict _ _ | EvWandbLog _ => true
  | _ => false
  end.

(** The results directory as a finished run of [run_captioner_sweep.py]
    leaves it: the directory and its parents, the splits with their [train]
    key, the captioner, and the language model if an MI sweep wanted one. *)
Definition settled (a : Sweep.args) (rd : path) (d : disk) : Prop :=
  (∀ q, q `prefix_of` rd → q ≠ [] → d !! q = Some Dir)
  ∧ (∃ keys, d !! Sweep.splits_file rd = Some (Pickle (PSplits keys))
             ∧ py_in "train" keys = true)
  ∧ ((∃ x, d !! Sweep.lm_file rd = Some (Pickle x))
     ∨ (d !! Sweep.lm_file rd = None
        ∧ (py_in Sweep.SWEEP_GREEDY_MI (Sweep.sweeps a)
           || py_in Sweep.SWEEP_BEAM_MI (Sweep.sweeps a))%bool = false))
  ∧ (∃ x, d !! Sweep.captioner_file rd = Some (Pickle x)).

(** [for sweep in args.sweeps] as [main] runs it. *)
Definition sweep_loop (l : Sweep.lv) (a : Sweep.args) : M unit :=
  for_each (Sweep.sweeps a)
           (Sweep.run_sweep
              (Sweep.evaluate l a (py_in Sweep.SCORE_BERT_SCORE (Sweep.scores a))
                              (Sweep.precompute_features a)) a).

(** What a run on a settled results directory does before its sweeps. *)
Definition loads (a : Sweep.args) (rd : path) (d : disk) : list event :=
  [EvMkdir rd]
  ++ (if py_in Sweep.SCORE_BERT_SCORE (Sweep.scores a) then [EvBertScorer] else [])
  ++ [EvTorchLoad (Sweep.splits_file rd); EvFixedSplit]
  ++ (if exists_ d (Sweep.lm_file rd) then [EvLmLoad (Sweep.lm_file rd)] else [])
  ++ [EvDecoderLoad (Sweep.captioner_file rd)]
  ++ (if Sweep.precompute_features a then [EvEncoderMap "test"] else []).

(** The cache files of one version of one experiment are there. *)
Definition cached (a : Cert.args) (ed : path) (version : string) (d : disk) : Prop :=
  exists_ d (Cert.splits_file ed) = true
  ∧ exists_ d (Cert.cnn_file a ed version) = true
  ∧ exists_ d (Cert.captions_file a ed version) = true
  ∧ ((py_in Cert.CONDITION_SORT_SPURIOUS (Cert.conditions a)
      || py_in Cert.CONDITION_SORT_ALL (Cert.conditions a))%bool = true →
     exists_ d (Cert.scores_file a ed version) = true).

(** A property of the disk that adding files and directories cannot undo. *)
Definition stable (C : disk → Prop) : Prop := ∀ d d', keeps d d' → C d → C d'.

(** A computation that, when it returns, leaves a disk with [C]. *)
Definition ensures (C : disk → Prop) {A : Type} (m : M A) : Prop :=
  ∀ d x, res (m d) = inr x → C (final (m d)).

(** A computation that makes no event [P] holds of when started on a disk
    with [C]. *)
Definition calm (C : disk → Prop) (P : event → bool) {A : Type} (m : M A) : Prop :=
  ∀ d, C d → Forall (λ e, P e = false) (trace (m d)).

(** What [run_version] does once the splits are there. *)
Definition after_splits (l : Cert.lv) (a : Cert.args) (experiment : string)
    (ed : path) (words : list string) (version : string) : M unit :=
  emit EvCnnBuild ;;
  Cert.load_or_fit_cnn a ed version ;;
  for_each (Cert.layers l) (λ layer, emit (EvDissect layer)) ;;
  captions ← Cert.load_or_predict_captions l a experiment ed version;
  let candidates := Cert.candidate_indices words captions in
  torch_save (PUnits candidates) (Cert.candidates_file a ed version) ;;
  scores ← Cert.load_or_compute_scores l a experiment ed version;
  Cert.run_conditions l a experiment version (Cert.n_units l experiment version)
                      candidates scores.

(** No score in the list is less than a later one. *)
Definition descending (scores : list float) : Prop :=
  ∀ (i j : nat) (x y : float),
    (i < j)%nat → scores !! i = Some x → scores !! j = Some y →
    PrimFloat.ltb x y = false.

(** The events of the calls of [evaluate] with the given keyword arguments,
    one call after the other. *)
Definition evaluations (l : Sweep.lv) (a : Sweep.args) (kws : list kwargs) : list event :=
  flat_map (λ kw, evaluate_trace a (Sweep.precompute_features a) kw (logged l a kw)) kws.

(** [--pretrained zoo --results-dir results --sweeps greedy --scores bleu],
    and a disk with a captioner in [zoo] and an empty results directory. *)
Definition pretrained_args : Sweep.args :=
  {| Sweep.sweeps := ["greedy"]; Sweep.encoder := Sweep.ENCODER_RESNET101;
     Sweep.scores := ["bleu"];
     Sweep.pretrained := Some ["zoo"]; Sweep.precompute_features := false;
     Sweep.beam_size_min := 5; Sweep.beam_size_max := 50; Sweep.beam_size_step := 5;
     Sweep.mi_temperature_min := 0.05; Sweep.mi_temperature_max := 0.75;
     Sweep.mi_temperature_step := 0.05;
     Sweep.results_dir := Some ["results"]; Sweep.clear_results_dir := false;
     Sweep.device := None |}.

Definition zoo_disk : disk :=
  <[["zoo"; "captioner.pth"] := Pickle PCaptioner]>
    (<[["zoo"] := Dir]> (<[["results"] := Dir]> ∅)).

(** The loading of a cache file. *)
Definition reads_cache (e : event) : bool :=
  match e with
  | EvTorchLoad _ | EvFixedSplit | EvLmLoad _ | EvDecoderLoad _ | EvCnnLoadState _
  | EvReadText _ => true
  | _ => false
  end.

(** Nothing lies below [rd]. *)
Definition empty_below (rd : path) (d : disk) : Prop :=
  ∀ p, rd `prefix_of` p → p ≠ rd → d !! p = None.

Definition is_lm_fit (e : event) : bool :=
  match e with EvLmFit => true | _ => false end.

(** What [run_version] does only after it has its captions: writing the
    candidate units, scoring the units, and the ablation trials. *)
Definition past_captions (e : event) : bool :=
  match e with
  | EvTorchSave (PUnits _) _ | EvScoreUnit _ | EvFineTune _ | EvTestAccuracy _
  | EvWandbTrial _ => true
  | _ => false
  end.

(** A computation whose every AssertionError leaves a trace with [Q]. *)
Definition blames (Q : list event → Prop) {A : Type} (m : M A) : Prop :=
  ∀ d, res (m d) = inl AssertionError → Q (trace (m d)).

(** A result that is no AssertionError. *)
Definition sound {A : Type} (r : result A) : Prop := r ≠ inl AssertionError.

(** The last call was the reading of a captions file. *)
Definition stopped_at_captions (t : list event) : Prop :=
  ∃ f t', t = t' ++ [EvReadText f].

(** [--sweeps nope --scores bert-score]: no such sweep. *)
Definition unknown_sweep_args : Sweep.args :=
  {| Sweep.sweeps := ["nope"]; Sweep.encoder := Sweep.ENCODER_RESNET101;
     Sweep.scores := ["bert-score"];
     Sweep.pretrained := None; Sweep.precompute_features := false;
     Sweep.beam_size_min := 5; Sweep.beam_size_max := 50; Sweep.beam_size_step := 5;
     Sweep.mi_temperature_min := 0.05; Sweep.mi_temperature_max := 0.75;
     Sweep.mi_temperature_step := 0.05;
     Sweep.results_dir := None; Sweep.clear_results_dir := false;
     Sweep.device := None |}.

(** [--conditions nope] on the sample experiment. *)
Definition unknown_condition_args : Cert.args :=
  {| Cert.experiments := ["spurious-imagenet-text"];
     Cert.versions := [Cert.VERSION_50PCT];
     Cert.conditions := ["nope"];
     Cert.cnn := "resnet18";
     Cert.n_random_trials := 2;
     Cert.fine_tune := false;
     Cert.results_dir := None;
     Cert.clear_results_dir := false;
     Cert.ablation_min := 0;
     Cert.ablation_max := 1;
     Cert.ablation_step_size := 0.5;
     Cert.device := None |}.

(** ** Rounding as the floats of the scripts do it *)

(** [m / 2^n] rounded to the nearest integer, a tie to the even one. *)
Definition rne (m n : Z) : Z :=
  let q := m / 2 ^ n in
  match 2 * (m mod 2 ^ n) ?= 2 ^ n with
  | Lt => q
  | Eq => if Z.even q then q else q + 1
  | Gt => q + 1
  end.

(** The exponent a positive value [X * 2^B] is rounded at, less [B], and
    the rounded value over [2^B]; [c] is [emin - B]. *)
Definition rnd_exp (c X : Z) : Z := Z.max (Z.log2 X + 1 - prec) c.

Definition rnd (c X : Z) : Z := rne X (rnd_exp c X) * 2 ^ rnd_exp c X.

(** The record [shr_1] has reached after dropping the [k] low bits of [m]:
    the quotient, the last bit dropped, and whether a bit before it was set. *)
Definition shifted (m k : Z) (mrs : shr_record) : Prop :=
  ∃ r, 0 ≤ shr_m mrs ∧ m = shr_m mrs * 2 ^ k + r ∧ 0 ≤ r < 2 ^ k
       ∧ (shr_r mrs = true ↔ 2 ^ k ≤ 2 * r)
       ∧ (shr_s mrs = true ↔ r ≠ 0 ∧ 2 * r ≠ 2 ^ k).

(** A float that is not negative and, over [2^B], has the value [V]; an
    overflow to infinity has any. *)
Definition rounds_to (B V : Z) (x : spec_float) : Prop :=
  match x with
  | S754_zero false => V = 0
  | S754_finite false m e => B ≤ e ∧ Z.pos m * 2 ^ (e - B) = V
  | S754_infinity false => True
  | _ => False
  end.
(** ** The effect monad, run on a disk *)

Ltac unfold_m :=
  cbv beta delta [update_disk torch_save torch_load model_load model_save
                  path_exists path_is_file py_assert lift get_disk put_disk
                  emit raise mbind M_bind mret M_ret bind ret] in *;
  cbn [trace final res app] in *.

Lemma setup_results_dir_run (clear : bool) (rd : path) (d : disk) :
  setup_results_dir clear rd d =
  if (clear && exists_ d rd)%bool then
    match rmtree d rd with
    | inl e => Outcome [EvRmtree rd] d (inl e)
    | inr d1 =>
        match mkdir_parents d1 rd with
        | inl e => Outcome [EvRmtree rd; EvMkdir rd] d1 (inl e)
        | inr d2 => Outcome [EvRmtree rd; EvMkdir rd] d2 (inr tt)
        end
    end
  else
    match mkdir_parents d rd with
    | inl e => Outcome [EvMkdir rd] d (inl e)
    | inr d2 => Outcome [EvMkdir rd] d2 (inr tt)
    end.
Proof.
  unfold setup_results_dir. unfold_m. cbn.
  destruct (clear && exists_ d rd)%bool; cbn.
  - destruct (rmtree d rd) as [e|d1]; cbn; [reflexivity|].
    destruct (mkdir_parents d1 rd); reflexivity.
  - destruct (mkdir_parents d rd); reflexivity.
Qed.

Lemma mkdir_walk_keeps (rest : list string) :
  ∀ (d : disk) (base : path) (d' : disk),
    mkdir_walk d base rest = inr d' →
    ∀ p n, d !! p = Some n → d' !! p = Some n.
Proof.
  induction rest as [|c rest IH]; intros d base d' Hw p n Hp; cbn in Hw.
  - by simplify_eq.
  - destruct (d !! (base ++ [c])) as [[| |]|] eqn:Hc; try discriminate.
    + eauto.
    + eapply IH; [exact Hw|].
      rewrite lookup_insert_ne; [done|]. congruence.
Qed.

Lemma mkdir_walk_frame (rest : list string) :
  ∀ (d : disk) (base : path) (d' : disk),
    mkdir_walk d base rest = inr d' →
    ∀ p, (∀ q, q `prefix_of` rest → q ≠ [] → p ≠ base ++ q) → d' !! p = d !! p.
Proof.
  induction rest as [|c rest IH]; intros d base d' Hw p Hp; cbn in Hw.
  - by simplify_eq.
  - assert (Hrest : ∀ q, q `prefix_of` rest → q ≠ [] → p ≠ (base ++ [c]) ++ q).
    { intros q Hq Hne. rewrite <- app_assoc. cbn. apply Hp; [|done].
      by apply prefix_cons. }
    destruct (d !! (base ++ [c])) as [[| |]|] eqn:Hc; try discriminate.
    + eauto.
    + rewrite (IH _ _ _ Hw p Hrest).
      apply lookup_insert_ne. intros Heq. eapply (Hp [c]); [|done|done].
      apply prefix_cons, prefix_nil.
Qed.

Lemma mkdir_walk_creates (rest : list string) :
  ∀ (d : disk) (base : path),
    (∀ q, q `prefix_of` rest → q ≠ [] →
          d !! (base ++ q) = None ∨ d !! (base ++ q) = Some Dir) →
    ∃ d', mkdir_walk d base rest = inr d' ∧
          ∀ q, q `prefix_of` rest → q ≠ [] → d' !! (base ++ q) = Some Dir.
Proof.
  induction rest as [|c rest IH]; intros d base Hfree; cbn.
  - exists d. split; [done|]. intros q Hq Hne.
    apply prefix_nil_inv in Hq. done.
  - assert (Hsplit : ∀ q, q `prefix_of` c :: rest → q ≠ [] →
                         ∃ q', q = c :: q' ∧ q' `prefix_of` rest).
    { intros [|x q'] Hq Hne; [done|].
      pose proof (prefix_cons_inv_1 _ _ _ _ Hq) as ->.
      apply prefix_cons_inv_2 in Hq. eauto. }
    assert (Hhead : [c] `prefix_of` c :: rest) by apply prefix_cons, prefix_nil.
    destruct (Hfree [c] Hhead ltac:(done)) as [Hc|Hc]; rewrite Hc.
    + destruct (IH (<[base ++ [c] := Dir]> d) (base ++ [c])) as (d' & Hw & Hd').
      { intros q Hq Hne. rewrite <- app_assoc. cbn.
        rewrite lookup_insert_ne.
        - apply Hfree; [by apply prefix_cons|done].
        - intros Heq. apply app_inv_head in Heq. destruct q; done. }
      exists d'. split; [done|]. intros q Hq Hne.
      destruct (Hsplit q Hq Hne) as (q' & -> & Hq').
      destruct q' as [|x q''].
      * eapply mkdir_walk_keeps; [exact Hw|]. apply lookup_insert_eq.
      * specialize (Hd' (x :: q'') Hq' ltac:(done)).
        by rewrite <- app_assoc in Hd'.
    + destruct (IH d (base ++ [c])) as (d' & Hw & Hd').
      { intros q Hq Hne. rewrite <- app_assoc. cbn.
        apply Hfree; [by apply prefix_cons|done]. }
      exists d'. split; [done|]. intros q Hq Hne.
      destruct (Hsplit q Hq Hne) as (q' & -> & Hq').
      destruct q' as [|x q''].
      * eapply mkdir_walk_keeps; [exact Hw|]. done.
      * specialize (Hd' (x :: q'') Hq' ltac:(done)).
        by rewrite <- app_assoc in Hd'.
Qed.

Lemma rmtree_lookup (d d1 : disk) (rd p : path) :
  rmtree d rd = inr d1 →
  d1 !! p = if decide (rd `prefix_of` p) then None else d !! p.
Proof.
  unfold rmtree. destruct (node_at d rd) as [[| |]|]; try discriminate.
  intros [= <-]. destruct (decide (rd `prefix_of` p)) as [Hp|Hp].
  - apply map_lookup_filter_None. right. intros n _ Hn. by apply Hn.
  - destruct (d !! p) as [n|] eqn:Hd.
    + apply map_lookup_filter_Some. done.
    + apply map_lookup_filter_None. by left.
Qed.

Lemma lookup_is_node_at (d : disk) (q : path) : q ≠ [] → node_at d q = d !! q.
Proof. by destruct q. Qed.

(** ** Device selection *)

(** C8.  In both scripts the device is ['cpu'] whenever
    [cuda.is_available()] is false, whatever [--device] says; with CUDA the
    argument is used when it is given and non-empty and ['cuda'] otherwise.
    This is the grouping [(args.device or 'cuda') if ... else 'cpu']; under
    the other grouping a given device would survive without CUDA. *)
Theorem device_is_cpu_without_cuda :
  (∀ device, select_device device false = "cpu") ∧
  (∀ device, select_device device true = py_or device "cuda") ∧
  (∀ l a, Sweep.the_device l a =
          if Sweep.cuda_is_available l then py_or (Sweep.device a) "cuda" else "cpu") ∧
  (∀ l a, Cert.the_device l a =
          if Cert.cuda_is_available l then py_or (Cert.device a) "cuda" else "cpu") ∧
  select_device (Some "cuda:1") false = "cpu" ∧
  select_device_other_grouping (Some "cuda:1") false = "cuda:1".
Proof. repeat split. Qed.

(** ** Directory setup *)

(** C7.  [shutil.rmtree] is called exactly when [--clear-results-dir] is set
    and the results directory exists; when it is set and the directory is
    there, everything below the directory is gone afterwards; in every other
    case, and so whenever the flag is not set, each entry that was on the
    disk is still there unchanged; and a results directory that is absent,
    with no regular file in the way, is created together with its parents. *)
Theorem setup_results_dir_spec (clear : bool) (rd : path) (d : disk) :
  let o := setup_results_dir clear rd d in
  (In (EvRmtree rd) (trace o) ↔ clear = true ∧ exists_ d rd = true) ∧
  (clear = true → is_dir d rd = true →
   ∀ p, rd `prefix_of` p → p ≠ rd → final o !! p = None) ∧
  (clear = false ∨ is_dir d rd = false →
   ∀ p n, d !! p = Some n → final o !! p = Some n) ∧
  (exists_ d rd = false → (∀ q, q `prefix_of` rd → is_file d q = false) →
   res o = inr tt ∧ ∀ q, q `prefix_of` rd → is_dir (final o) q = true).
Proof.
  cbv zeta. rewrite setup_results_dir_run. split; [|split; [|split]].
  - destruct (clear && exists_ d rd)%bool eqn:Hc.
    + apply andb_true_iff in Hc as [-> ->]. split; [done|]. intros _.
      destruct (rmtree d rd) as [e|d1]; cbn; [tauto|].
      destruct (mkdir_parents d1 rd); cbn; tauto.
    + split.
      * intros Hin. exfalso.
        destruct (mkdir_parents d rd); cbn in Hin; destruct Hin as [?|[]]; done.
      * intros [H1 H2]. rewrite H1, H2 in Hc. done.
  - intros -> Hdir p Hpre Hne.
    assert (exists_ d rd = true) as ->.
    { unfold is_dir, exists_ in *. by destruct (node_at d rd). }
    cbn. destruct (rmtree d rd) as [e|d1] eqn:Hrm.
    { unfold rmtree, is_dir in *. by destruct (node_at d rd) as [[| |]|]. }
    assert (d1 !! p = None) as Hgone.
    { rewrite (rmtree_lookup _ _ _ _ Hrm). by rewrite decide_True. }
    destruct (mkdir_parents d1 rd) as [e|d2] eqn:Hmk; cbn; [done|].
    rewrite (mkdir_walk_frame _ _ _ _ Hmk); [done|].
    intros q Hq _ ->. cbn in Hne, Hpre. apply Hne.
    by apply (anti_symm prefix).
  - intros Hkeep p n Hp.
    assert ((clear && exists_ d rd)%bool = true →
            ∃ e, rmtree d rd = inl e) as Hfail.
    { intros [-> Hex]%andb_true_iff. destruct Hkeep as [|Hnd]; [done|].
      unfold rmtree, is_dir, exists_ in *.
      destruct (node_at d rd) as [[| |]|]; eauto; done. }
    destruct (clear && exists_ d rd)%bool.
    + destruct Hfail as [e ->]; done.
    + destruct (mkdir_parents d rd) as [e|d2] eqn:Hmk; cbn; [done|].
      eapply mkdir_walk_keeps; eauto.
  - intros Hex Hfree.
    destruct (mkdir_walk_creates rd d []) as (d2 & Hmk & Hd2).
    { intros q Hq Hne. specialize (Hfree q Hq). unfold is_file in Hfree.
      rewrite lookup_is_node_at in Hfree by done. cbn.
      destruct (d !! q) as [[| |]|]; auto; done. }
    rewrite Hex, andb_false_r. unfold mkdir_parents. rewrite Hmk. cbn.
    split; [done|]. intros q Hq. unfold is_dir.
    destruct q as [|c q]; [done|]. cbn.
    specialize (Hd2 (c :: q) Hq ltac:(done)). cbn in Hd2. by rewrite Hd2.
Qed.

(** Setup on an empty disk without the flag: both directories are made. *)
Lemma results_dir_created_on_empty_disk :
  let o := setup_results_dir false ["results"; "cnn-cert"] ∅ in
  res o = inr tt
  ∧ ∀ q, q `prefix_of` ["results"; "cnn-cert"] → is_dir (final o) q = true.
Proof.
  apply (proj2 (proj2 (proj2
           (setup_results_dir_spec false ["results"; "cnn-cert"] ∅)))).
  - reflexivity.
  - intros q _. unfold is_file, node_at. destruct q; [done|].
    by rewrite lookup_empty.
Defined.

(** ** Running the building blocks *)

Lemma torch_save_run (x : payload) (p : path) (d : disk) :
  torch_save x p d =
  match write_node d p (Pickle x) with
  | inl e => Outcome [EvTorchSave x p] d (inl e)
  | inr d' => Outcome [EvTorchSave x p] d' (inr tt)
  end.
Proof. unfold_m. by destruct (write_node d p (Pickle x)). Qed.

Lemma model_save_run (e : event) (x : payload) (p : path) (d : disk) :
  model_save e x p d =
  match write_node d p (Pickle x) with
  | inl err => Outcome [e] d (inl err)
  | inr d' => Outcome [e] d' (inr tt)
  end.
Proof. unfold_m. by destruct (write_node d p (Pickle x)). Qed.

Lemma model_load_run (e : event) (p : path) (d : disk) :
  model_load e p d =
  Outcome [e] d (match unpickle d p with inl err => inl err | inr _ => inr tt end).
Proof. unfold_m. by destruct (unpickle d p). Qed.

Lemma load_splits_run (f : path) (key : string) (d : disk) :
  load_splits f key d =
  match unpickle d f with
  | inr (PSplits keys) =>
      if py_in key keys then Outcome [EvTorchLoad f; EvFixedSplit] d (inr tt)
      else Outcome [EvTorchLoad f] d (inl KeyError)
  | inr _ => Outcome [EvTorchLoad f] d (inl TypeError)
  | inl e => Outcome [EvTorchLoad f] d (inl e)
  end.
Proof.
  unfold load_splits. unfold_m.
  destruct (unpickle d f) as [e|[]]; cbn; try reflexivity.
  by destruct (py_in key keys).
Qed.

Lemma bind_run {A B : Type} (m : M A) (k : A → M B) (d : disk) :
  (m ≫= k) d =
  match res (m d) with
  | inl e => Outcome (trace (m d)) (final (m d)) (inl e)
  | inr a =>
      Outcome (trace (m d) ++ trace (k a (final (m d))))
              (final (k a (final (m d)))) (res (k a (final (m d))))
  end.
Proof. reflexivity. Qed.

Lemma parent_child (p : path) (c : string) : parent (child p c) = p.
Proof. apply removelast_last. Qed.

Lemma name_child (p : path) (c : string) : name (child p c) = c.
Proof. apply last_last. Qed.

Lemma child_not_root (p : path) (c : string) : child p c ≠ [].
Proof. unfold child. by destruct p. Qed.

(** Writing a file into an existing directory, where no directory has its
    name, succeeds. *)
Lemma write_node_child (d : disk) (p : path) (c : string) (n : node) :
  is_dir d p = true → is_dir d (child p c) = false →
  write_node d (child p c) n = inr (<[child p c := n]> d).
Proof.
  unfold write_node, is_dir. rewrite parent_child. intros Hp Hc.
  destruct (node_at d (child p c)) as [[| |]|]; try done;
    by destruct (node_at d p) as [[| |]|].
Qed.

Lemma exists_false_not_dir (d : disk) (p : path) :
  exists_ d p = false → is_dir d p = false.
Proof. unfold exists_, is_dir. by destruct (node_at d p). Qed.

Lemma ends_with_unfold (suf s : string) :
  Str.ends_with suf s =
  (String.eqb s suf ||
   match s with
   | EmptyString => false
   | String _ s' => Str.ends_with suf s'
   end)%bool.
Proof. by destruct s. Qed.

Lemma ends_with_refl (s : string) : Str.ends_with s s = true.
Proof. rewrite ends_with_unfold. by rewrite String.eqb_refl. Qed.

Lemma ends_with_append (suf s t : string) :
  Str.ends_with suf t = true → Str.ends_with suf (String.append s t) = true.
Proof.
  intros Ht. induction s as [|c s IH]; [done|].
  rewrite ends_with_unfold. change (String.append (String c s) t) with (String c (String.append s t)).
  cbv beta iota. rewrite IH. apply orb_true_r.
Qed.

Lemma string_length_append (s t : string) :
  String.length (String.append s t) = (String.length s + String.length t)%nat.
Proof.
  induction s as [|c s IH]; [done|].
  change (String.append (String c s) t) with (String c (String.append s t)).
  cbn [String.length]. by rewrite IH.
Qed.

Lemma ends_with_append_false (suf s t : string) :
  (String.length suf ≤ String.length t)%nat →
  Str.ends_with suf t = false → Str.ends_with suf (String.append s t) = false.
Proof.
  intros Hlen Ht. induction s as [|c s IH]; [done|].
  rewrite ends_with_unfold. change (String.append (String c s) t) with (String c (String.append s t)).
  cbv beta iota. rewrite IH, orb_false_r. apply String.eqb_neq. intros Heq.
  apply (f_equal String.length) in Heq. cbn in Heq.
  rewrite string_length_append in Heq. lia.
Qed.

(** ** The captioner cache *)

Lemma load_or_train_captioner_run (a : Sweep.args) (rd : path) (lm : bool) (d : disk) :
  Sweep.load_or_train_captioner a rd lm d =
  if (is_file d (Sweep.captioner_file rd) && is_file d (Sweep.splits_file rd))%bool
  then
    Outcome [EvDecoderLoad (Sweep.captioner_file rd)] d
            (match unpickle d (Sweep.captioner_file rd) with
             | inl e => inl e
             | inr _ => inr tt
             end)
  else
    let t := [EvEncoderBuild; EvDecoderBuild lm]
             ++ (if Sweep.precompute_features a then [EvEncoderMap "train"] else [])
             ++ [EvDecoderFit (Sweep.precompute_features a);
                 EvDecoderSave (Sweep.captioner_file rd)] in
    match write_node d (Sweep.captioner_file rd) (Pickle PCaptioner) with
    | inl e => Outcome t d (inl e)
    | inr d' => Outcome t d' (inr tt)
    end.
Proof.
  unfold Sweep.load_or_train_captioner.
  rewrite bind_run. cbn. rewrite bind_run. cbn.
  destruct (is_file d (Sweep.captioner_file rd) && is_file d (Sweep.splits_file rd))%bool.
  - rewrite model_load_run. reflexivity.
  - rewrite !bind_run. cbn.
    destruct (Sweep.precompute_features a); cbn;
      rewrite model_save_run;
      by destruct (write_node d (Sweep.captioner_file rd) (Pickle PCaptioner)).
Qed.

(** C6.  The cached captioner is loaded (its encoder comes with it) exactly
    when [captioner.pth] and [splits.pth] are both files of the results
    directory, and then nothing is trained or written.  If either is
    missing, a fresh encoder and decoder are built, the train split is
    featurized only under [--precompute-features], the decoder is fitted
    with features exactly under that flag, and the decoder is saved to
    [captioner.pth]; the save succeeds in an existing results directory
    when no directory is named [captioner.pth]. *)
Theorem captioner_loaded_or_trained (a : Sweep.args) (rd : path) (lm : bool) (d : disk) :
  let o := Sweep.load_or_train_captioner a rd lm d in
  let cached := (is_file d (Sweep.captioner_file rd)
                 && is_file d (Sweep.splits_file rd))%bool in
  (In (EvDecoderLoad (Sweep.captioner_file rd)) (trace o) ↔ cached = true) ∧
  (if cached
   then trace o = [EvDecoderLoad (Sweep.captioner_file rd)] ∧ final o = d
   else trace o =
          [EvEncoderBuild; EvDecoderBuild lm]
          ++ (if Sweep.precompute_features a then [EvEncoderMap "train"] else [])
          ++ [EvDecoderFit (Sweep.precompute_features a);
              EvDecoderSave (Sweep.captioner_file rd)]
        ∧ (is_dir d rd = true → is_dir d (Sweep.captioner_file rd) = false →
           res o = inr tt
           ∧ final o = <[Sweep.captioner_file rd := Pickle PCaptioner]> d)).
Proof.
  cbv zeta. rewrite load_or_train_captioner_run.
  destruct (is_file d (Sweep.captioner_file rd) && is_file d (Sweep.splits_file rd))%bool.
  - cbn. split; [|done]. split; [done|]. by left.
  - cbv zeta.
    split.
    + split; [|done]. intros Hin. exfalso.
      destruct (write_node d (Sweep.captioner_file rd) (Pickle PCaptioner));
        destruct (Sweep.precompute_features a); cbn in Hin;
        repeat (destruct Hin as [Hin|Hin]; [discriminate|]); done.
    + split.
      * by destruct (write_node d (Sweep.captioner_file rd) (Pickle PCaptioner)).
      * intros Hrd Hcf. unfold Sweep.captioner_file in *.
        by rewrite write_node_child.
Qed.

(** ** The other caches *)

Lemma sweep_splits_run (rd : path) (d : disk) :
  Sweep.load_or_make_splits rd d =
  if exists_ d (Sweep.splits_file rd)
  then load_splits (Sweep.splits_file rd) "train" d
  else
    match write_node d (Sweep.splits_file rd) (Pickle (PSplits ["train"; "test"])) with
    | inl e =>
        Outcome [EvRandomSplit;
                 EvTorchSave (PSplits ["train"; "test"]) (Sweep.splits_file rd)]
                d (inl e)
    | inr d' =>
        Outcome [EvRandomSplit;
                 EvTorchSave (PSplits ["train"; "test"]) (Sweep.splits_file rd)]
                d' (inr tt)
    end.
Proof.
  unfold Sweep.load_or_make_splits. rewrite bind_run. cbn.
  destruct (exists_ d (Sweep.splits_file rd)).
  - by destruct (load_splits (Sweep.splits_file rd) "train" d).
  - rewrite bind_run. cbn. rewrite torch_save_run.
    by destruct (write_node d (Sweep.splits_file rd) _).
Qed.

Lemma cert_splits_run (ed : path) (d : disk) :
  Cert.load_or_make_splits ed d =
  if exists_ d (Cert.splits_file ed)
  then load_splits (Cert.splits_file ed) "val" d
  else
    match write_node d (Cert.splits_file ed) (Pickle (PSplits ["train"; "val"])) with
    | inl e =>
        Outcome [EvRandomSplit;
                 EvTorchSave (PSplits ["train"; "val"]) (Cert.splits_file ed)]
                d (inl e)
    | inr d' =>
        Outcome [EvRandomSplit;
                 EvTorchSave (PSplits ["train"; "val"]) (Cert.splits_file ed)]
                d' (inr tt)
    end.
Proof.
  unfold Cert.load_or_make_splits. rewrite bind_run. cbn.
  destruct (exists_ d (Cert.splits_file ed)).
  - by destruct (load_splits (Cert.splits_file ed) "val" d).
  - rewrite bind_run. cbn. rewrite torch_save_run.
    by destruct (write_node d (Cert.splits_file ed) _).
Qed.

Lemma load_splits_loads (f : path) (key : string) (d : disk) :
  (trace (load_splits f key d) = [EvTorchLoad f]
   ∨ trace (load_splits f key d) = [EvTorchLoad f; EvFixedSplit])
  ∧ final (load_splits f key d) = d.
Proof.
  rewrite load_splits_run.
  destruct (unpickle d f) as [e|[]]; cbn; auto.
  destruct (py_in key keys); cbn; auto.
Qed.

Lemma load_or_train_lm_run (a : Sweep.args) (rd : path) (d : disk) :
  Sweep.load_or_train_lm a rd d =
  if exists_ d (Sweep.lm_file rd) then
    Outcome [EvLmLoad (Sweep.lm_file rd)] d
            (match unpickle d (Sweep.lm_file rd) with
             | inl e => inl e
             | inr _ => inr true
             end)
  else if (py_in Sweep.SWEEP_GREEDY_MI (Sweep.sweeps a)
           || py_in Sweep.SWEEP_BEAM_MI (Sweep.sweeps a))%bool then
    match write_node d (Sweep.lm_file rd) (Pickle PLanguageModel) with
    | inl e => Outcome [EvLmFit; EvLmSave (Sweep.lm_file rd)] d (inl e)
    | inr d' => Outcome [EvLmFit; EvLmSave (Sweep.lm_file rd)] d' (inr true)
    end
  else Outcome [] d (inr false).
Proof.
  unfold Sweep.load_or_train_lm. rewrite bind_run. cbn.
  destruct (exists_ d (Sweep.lm_file rd)).
  - rewrite bind_run, model_load_run. cbn.
    by destruct (unpickle d (Sweep.lm_file rd)).
  - destruct (py_in Sweep.SWEEP_GREEDY_MI (Sweep.sweeps a)
              || py_in Sweep.SWEEP_BEAM_MI (Sweep.sweeps a))%bool; [|done].
    unfold_m. by destruct (write_node d (Sweep.lm_file rd) _).
Qed.

Lemma load_or_fit_cnn_run (a : Cert.args) (ed : path) (version : string) (d : disk) :
  Cert.load_or_fit_cnn a ed version d =
  let f := Cert.cnn_file a ed version in
  if exists_ d f then
    match unpickle d f with
    | inl e => Outcome [EvTorchLoad f] d (inl e)
    | inr _ => Outcome [EvTorchLoad f; EvCnnLoadState f] d (inr tt)
    end
  else
    match write_node d f (Pickle PStateDict) with
    | inl e => Outcome [EvCnnFit; EvTorchSave PStateDict f] d (inl e)
    | inr d' => Outcome [EvCnnFit; EvTorchSave PStateDict f] d' (inr tt)
    end.
Proof.
  unfold Cert.load_or_fit_cnn. cbv zeta. rewrite bind_run. cbn.
  destruct (exists_ d (Cert.cnn_file a ed version)).
  - unfold_m. by destruct (unpickle d (Cert.cnn_file a ed version)).
  - rewrite bind_run. cbn. rewrite torch_save_run.
    by destruct (write_node d (Cert.cnn_file a ed version) _).
Qed.

Lemma load_or_predict_captions_run (l : Cert.lv) (a : Cert.args)
    (experiment : string) (ed : path) (version : string) (d : disk) :
  Cert.load_or_predict_captions l a experiment ed version d =
  let f := Cert.captions_file a ed version in
  if exists_ d f then
    match read_text d f with
    | inl e => Outcome [EvReadText f] d (inl e)
    | inr text =>
        if Nat.eqb (length (Str.split Str.LF text)) (Cert.n_units l experiment version)
        then Outcome [EvReadText f] d (inr (Str.split Str.LF text))
        else Outcome [EvReadText f] d (inl AssertionError)
    end
  else
    let captions := Cert.decoder_predict l experiment version in
    let text := Str.join Cert.newline captions in
    match write_node d f (TextFile text) with
    | inl e => Outcome [EvCaption; EvWriteText f text] d (inl e)
    | inr d' => Outcome [EvCaption; EvWriteText f text] d' (inr captions)
    end.
Proof.
  unfold Cert.load_or_predict_captions. cbv zeta. rewrite bind_run. cbn.
  destruct (exists_ d (Cert.captions_file a ed version)).
  - unfold_m. destruct (read_text d (Cert.captions_file a ed version)); [done|].
    cbn. by destruct (Nat.eqb _ _).
  - unfold_m. by destruct (write_node d (Cert.captions_file a ed version) _).
Qed.

Lemma for_each_emit {A : Type} (l : list A) (f : A → event) (d : disk) :
  for_each l (λ x, emit (f x)) d = Outcome (map f l) d (inr tt).
Proof.
  induction l as [|x l IH]; [done|].
  cbn [for_each]. rewrite bind_run. cbn. by rewrite IH.
Qed.

Lemma load_or_compute_scores_run (l : Cert.lv) (a : Cert.args)
    (experiment : string) (ed : path) (version : string) (d : disk) :
  Cert.load_or_compute_scores l a experiment ed version d =
  let f := Cert.scores_file a ed version in
  if (py_in Cert.CONDITION_SORT_SPURIOUS (Cert.conditions a)
      || py_in Cert.CONDITION_SORT_ALL (Cert.conditions a))%bool then
    if exists_ d f then
      match unpickle d f with
      | inl e => Outcome [EvTorchLoad f] d (inl e)
      | inr x => Outcome [EvTorchLoad f] d (inr (Some x))
      end
    else
      let units := seq 0 (Cert.n_units l experiment version) in
      let scores := PScores (map (Cert.unit_accuracy l experiment version) units) in
      let t := map EvScoreUnit units ++ [EvTorchSave scores f] in
      match write_node d f (Pickle scores) with
      | inl e => Outcome t d (inl e)
      | inr d' => Outcome t d' (inr (Some scores))
      end
  else Outcome [] d (inr None).
Proof.
  unfold Cert.load_or_compute_scores. cbv zeta.
  destruct (py_in Cert.CONDITION_SORT_SPURIOUS (Cert.conditions a)
            || py_in Cert.CONDITION_SORT_ALL (Cert.conditions a))%bool; [|done].
  rewrite bind_run. cbn.
  destruct (exists_ d (Cert.scores_file a ed version)).
  - unfold_m. by destruct (unpickle d (Cert.scores_file a ed version)).
  - rewrite bind_run, for_each_emit. cbn. rewrite bind_run, torch_save_run.
    by destruct (write_node d (Cert.scores_file a ed version) _).
Qed.

Lemma write_fresh_child (d : disk) (p : path) (c : string) (n : node) :
  exists_ d (child p c) = false → is_dir d p = true →
  write_node d (child p c) n = inr (<[child p c := n]> d).
Proof. intros Hc Hp. apply write_node_child; [done|]. by apply exists_false_not_dir. Qed.

(** C1, as the code has it.  The cache files end in [.pth] except the
    captions cache, which is the text file [<cnn>-<version>-captions.txt].
    The splits of both scripts, the trained CNN weights and the captions are
    loaded when their file exists and computed and written otherwise.  The
    language model is loaded when [lm.pth] exists; otherwise it is trained
    and saved only if [greedy-mi] or [beam-mi] is among the sweeps, and left
    unset if not.  The captioner is loaded when [captioner.pth] and
    [splits.pth] are both files, and trained and saved otherwise.  The
    per-unit scores are touched only when [sort-spurious] or [sort-all] is
    among the conditions, and then loaded when the file exists and computed
    and written otherwise.  Each write succeeds when the directory exists. *)
Theorem caches_loaded_or_made :
  (∀ rd,
     Str.ends_with ".pth" (name (Sweep.splits_file rd)) = true ∧
     Str.ends_with ".pth" (name (Sweep.lm_file rd)) = true ∧
     Str.ends_with ".pth" (name (Sweep.captioner_file rd)) = true) ∧
  (∀ a ed v,
     Str.ends_with ".pth" (name (Cert.splits_file ed)) = true ∧
     Str.ends_with ".pth" (name (Cert.cnn_file a ed v)) = true ∧
     Str.ends_with ".pth" (name (Cert.scores_file a ed v)) = true ∧
     Str.ends_with ".pth" (name (Cert.captions_file a ed v)) = false ∧
     Str.ends_with ".txt" (name (Cert.captions_file a ed v)) = true) ∧
  (∀ rd d,
     let o := Sweep.load_or_make_splits rd d in
     let f := Sweep.splits_file rd in
     if exists_ d f
     then (trace o = [EvTorchLoad f] ∨ trace o = [EvTorchLoad f; EvFixedSplit])
          ∧ final o = d
     else trace o = [EvRandomSplit; EvTorchSave (PSplits ["train"; "test"]) f]
          ∧ (is_dir d rd = true →
             res o = inr tt ∧ final o = <[f := Pickle (PSplits ["train"; "test"])]> d)) ∧
  (∀ ed d,
     let o := Cert.load_or_make_splits ed d in
     let f := Cert.splits_file ed in
     if exists_ d f
     then (trace o = [EvTorchLoad f] ∨ trace o = [EvTorchLoad f; EvFixedSplit])
          ∧ final o = d
     else trace o = [EvRandomSplit; EvTorchSave (PSplits ["train"; "val"]) f]
          ∧ (is_dir d ed = true →
             res o = inr tt ∧ final o = <[f := Pickle (PSplits ["train"; "val"])]> d)) ∧
  (∀ a rd d,
     let o := Sweep.load_or_train_lm a rd d in
     let f := Sweep.lm_file rd in
     if exists_ d f then trace o = [EvLmLoad f] ∧ final o = d
     else if (py_in Sweep.SWEEP_GREEDY_MI (Sweep.sweeps a)
              || py_in Sweep.SWEEP_BEAM_MI (Sweep.sweeps a))%bool
     then trace o = [EvLmFit; EvLmSave f]
          ∧ (is_dir d rd = true →
             res o = inr true ∧ final o = <[f := Pickle PLanguageModel]> d)
     else trace o = [] ∧ final o = d ∧ res o = inr false) ∧
  (∀ a rd lm d,
     let o := Sweep.load_or_train_captioner a rd lm d in
     let f := Sweep.captioner_file rd in
     if (is_file d f && is_file d (Sweep.splits_file rd))%bool
     then trace o = [EvDecoderLoad f] ∧ final o = d
     else In (EvDecoderFit (Sweep.precompute_features a)) (trace o)
          ∧ In (EvDecoderSave f) (trace o)
          ∧ (is_dir d rd = true → is_dir d f = false →
             res o = inr tt ∧ final o = <[f := Pickle PCaptioner]> d)) ∧
  (∀ a ed v d,
     let o := Cert.load_or_fit_cnn a ed v d in
     let f := Cert.cnn_file a ed v in
     if exists_ d f
     then (trace o = [EvTorchLoad f] ∨ trace o = [EvTorchLoad f; EvCnnLoadState f])
          ∧ final o = d
     else trace o = [EvCnnFit; EvTorchSave PStateDict f]
          ∧ (is_dir d ed = true →
             res o = inr tt ∧ final o = <[f := Pickle PStateDict]> d)) ∧
  (∀ l a e ed v d,
     let o := Cert.load_or_predict_captions l a e ed v d in
     let f := Cert.captions_file a ed v in
     let text := Str.join Cert.newline (Cert.decoder_predict l e v) in
     if exists_ d f then trace o = [EvReadText f] ∧ final o = d
     else trace o = [EvCaption; EvWriteText f text]
          ∧ (is_dir d ed = true →
             res o = inr (Cert.decoder_predict l e v)
             ∧ final o = <[f := TextFile text]> d)) ∧
  (∀ l a e ed v d,
     let o := Cert.load_or_compute_scores l a e ed v d in
     let f := Cert.scores_file a ed v in
     let units := seq 0 (Cert.n_units l e v) in
     let scores := PScores (map (Cert.unit_accuracy l e v) units) in
     if (py_in Cert.CONDITION_SORT_SPURIOUS (Cert.conditions a)
         || py_in Cert.CONDITION_SORT_ALL (Cert.conditions a))%bool
     then if exists_ d f then trace o = [EvTorchLoad f] ∧ final o = d
          else trace o = map EvScoreUnit units ++ [EvTorchSave scores f]
               ∧ (is_dir d ed = true →
                  res o = inr (Some scores) ∧ final o = <[f := Pickle scores]> d)
     else trace o = [] ∧ final o = d ∧ res o = inr None).
Proof.
  split; [|split; [|split; [|split; [|split; [|split; [|split; [|split]]]]]]].
  - intros rd. unfold Sweep.splits_file, Sweep.lm_file, Sweep.captioner_file.
    by rewrite !name_child.
  - intros a ed v.
    unfold Cert.splits_file, Cert.cnn_file, Cert.scores_file, Cert.captions_file.
    rewrite !name_child. split; [done|]. split; [|split; [|split]].
    + by apply ends_with_append.
    + by apply ends_with_append.
    + apply ends_with_append_false; [cbn; lia|done].
    + by apply ends_with_append.
  - intros rd d. cbv zeta. rewrite sweep_splits_run.
    destruct (exists_ d (Sweep.splits_file rd)) eqn:Hex.
    + apply load_splits_loads.
    + unfold Sweep.splits_file in *.
      split.
      * by destruct (write_node d (child rd "splits.pth") _).
      * intros Hrd. by rewrite write_fresh_child.
  - intros ed d. cbv zeta. rewrite cert_splits_run.
    destruct (exists_ d (Cert.splits_file ed)) eqn:Hex.
    + apply load_splits_loads.
    + unfold Cert.splits_file in *.
      split.
      * by destruct (write_node d (child ed "splits.pth") _).
      * intros Hed. by rewrite write_fresh_child.
  - intros a rd d. cbv zeta. rewrite load_or_train_lm_run.
    destruct (exists_ d (Sweep.lm_file rd)) eqn:Hex; [done|].
    destruct (py_in Sweep.SWEEP_GREEDY_MI (Sweep.sweeps a)
              || py_in Sweep.SWEEP_BEAM_MI (Sweep.sweeps a))%bool; [|done].
    unfold Sweep.lm_file in *. split.
    + by destruct (write_node d (child rd "lm.pth") _).
    + intros Hrd. by rewrite write_fresh_child.
  - intros a rd lm d. cbv zeta. rewrite load_or_train_captioner_run.
    destruct (is_file d (Sweep.captioner_file rd)
              && is_file d (Sweep.splits_file rd))%bool; [done|].
    cbv zeta. unfold Sweep.captioner_file in *. split; [|split].
    + destruct (write_node d (child rd "captioner.pth") _);
        destruct (Sweep.precompute_features a); cbn; auto 10.
    + destruct (write_node d (child rd "captioner.pth") _);
        destruct (Sweep.precompute_features a); cbn; auto 10.
    + intros Hrd Hf. by rewrite write_node_child.
  - intros a ed v d. cbv zeta. rewrite load_or_fit_cnn_run. cbv zeta.
    destruct (exists_ d (Cert.cnn_file a ed v)) eqn:Hex.
    + destruct (unpickle d (Cert.cnn_file a ed v)); cbn; auto.
    + unfold Cert.cnn_file in *. split.
      * by destruct (write_node d (child ed _) _).
      * intros Hed. by rewrite write_fresh_child.
  - intros l a e ed v d. cbv zeta. rewrite load_or_predict_captions_run. cbv zeta.
    destruct (exists_ d (Cert.captions_file a ed v)) eqn:Hex.
    + destruct (read_text d (Cert.captions_file a ed v)); cbn; [done|].
      by destruct (Nat.eqb _ _).
    + unfold Cert.captions_file in *. split.
      * by destruct (write_node d (child ed _) _).
      * intros Hed. by rewrite write_fresh_child.
  - intros l a e ed v d. cbv zeta. rewrite load_or_compute_scores_run. cbv zeta.
    destruct (py_in Cert.CONDITION_SORT_SPURIOUS (Cert.conditions a)
              || py_in Cert.CONDITION_SORT_ALL (Cert.conditions a))%bool; [|done].
    destruct (exists_ d (Cert.scores_file a ed v)) eqn:Hex.
    + by destruct (unpickle d (Cert.scores_file a ed v)).
    + unfold Cert.scores_file in *. split.
      * by destruct (write_node d (child ed _) _).
      * intros Hed. by rewrite write_fresh_child.
Qed.

(** C1 as stated fails twice.  The captions written by one run are read
    back by the next from a file whose name ends in [.txt], not [.pth]; and
    with [--sweeps greedy] and no [lm.pth] the language model is neither
    loaded nor trained nor written. *)
Lemma captions_cache_is_text_and_lm_may_stay_unset :
  let f := Cert.captions_file Sample.cert_args Sample.experiment_dir "50pct" in
  let first_run :=
    Cert.load_or_predict_captions Sample.cert_lv Sample.cert_args
      "spurious-imagenet-text" Sample.experiment_dir "50pct" Sample.fresh_disk in
  let next_run :=
    Cert.load_or_predict_captions Sample.cert_lv Sample.cert_args
      "spurious-imagenet-text" Sample.experiment_dir "50pct" (final first_run) in
  let lm_run :=
    Sweep.load_or_train_lm Sample.greedy_args ["results"] Sample.fresh_disk in
  (name f = "resnet18-50pct-captions.txt"
   ∧ Str.ends_with ".pth" (name f) = false
   ∧ In (EvWriteText f (Str.join Cert.newline
                          ["Red text"; "a dog"; "LETTERS"; "the word"]))
        (trace first_run)
   ∧ trace next_run = [EvReadText f]
   ∧ res next_run = inr ["Red text"; "a dog"; "LETTERS"; "the word"])
  ∧ (exists_ Sample.fresh_disk (Sweep.lm_file ["results"]) = false
     ∧ trace lm_run = []
     ∧ res lm_run = inr false
     ∧ final lm_run !! Sweep.lm_file ["results"] = None).
Proof. vm_compute. repeat split; auto. Qed.

(** On the sample's fresh disk the scores are computed unit by unit and
    written; the captioner of an empty results directory is trained and
    saved. *)
Lemma sample_scores_computed_and_written :
  let o := Cert.load_or_compute_scores Sample.cert_lv Sample.cert_args
             "spurious-imagenet-text" Sample.experiment_dir "50pct"
             Sample.fresh_disk in
  let f := Cert.scores_file Sample.cert_args Sample.experiment_dir "50pct" in
  let scores :=
    PScores (map (Cert.unit_accuracy Sample.cert_lv "spurious-imagenet-text" "50pct")
                 (seq 0 4)) in
  trace o = map EvScoreUnit (seq 0 4) ++ [EvTorchSave scores f]
  ∧ (is_dir Sample.fresh_disk Sample.experiment_dir = true →
     res o = inr (Some scores) ∧ final o = <[f := Pickle scores]> Sample.fresh_disk).
Proof.
  exact (proj2 (proj2 (proj2 (proj2 (proj2 (proj2 (proj2 (proj2
           caches_loaded_or_made)))))))
           Sample.cert_lv Sample.cert_args "spurious-imagenet-text"
           Sample.experiment_dir "50pct" Sample.fresh_disk).
Defined.

Lemma sample_captioner_trained_and_saved :
  let o := Sweep.load_or_train_captioner Sample.greedy_args ["results"] false
             Sample.fresh_disk in
  res o = inr tt
  ∧ final o = <[Sweep.captioner_file ["results"] := Pickle PCaptioner]> Sample.fresh_disk.
Proof.
  apply (proj2 (proj2 (captioner_loaded_or_trained Sample.greedy_args ["results"]
                         false Sample.fresh_disk))); reflexivity.
Defined.

(** ** The record [evaluate] logs *)

Lemma py_in_In (x : string) (l : list string) : py_in x l = true ↔ In x l.
Proof.
  unfold py_in. rewrite existsb_exists. split.
  - intros (y & Hy & Heq). apply String.eqb_eq in Heq. by subst.
  - intros Hx. exists x. split; [done|]. apply String.eqb_refl.
Qed.

Lemma assign_all_cons (kv : string * logval) (entries : list (string * logval))
    (log : gmap string logval) :
  Sweep.assign_all (kv :: entries) log = Sweep.assign_all entries (<[kv.1 := kv.2]> log).
Proof. reflexivity. Qed.

Lemma lookup_assign_all_other (entries : list (string * logval)) :
  ∀ (log : gmap string logval) (k : string),
    ¬ In k (map fst entries) → Sweep.assign_all entries log !! k = log !! k.
Proof.
  induction entries as [|kv entries IH]; intros log k Hk; [done|].
  rewrite assign_all_cons, IH.
  - apply lookup_insert_ne. intros Heq. apply Hk. by left.
  - intros Hin. apply Hk. by right.
Qed.

Lemma lookup_assign_all_keeps (entries : list (string * logval)) :
  ∀ (log : gmap string logval) (k : string),
    is_Some (log !! k) → is_Some (Sweep.assign_all entries log !! k).
Proof.
  induction entries as [|kv entries IH]; intros log k Hk; [done|].
  rewrite assign_all_cons. apply IH.
  destruct (decide (kv.1 = k)) as [<-|Hne].
  - rewrite lookup_insert_eq. eauto.
  - by rewrite lookup_insert_ne.
Qed.

Lemma lookup_assign_all_key (entries : list (string * logval)) :
  ∀ (log : gmap string logval) (k : string),
    In k (map fst entries) → is_Some (Sweep.assign_all entries log !! k).
Proof.
  induction entries as [|kv entries IH]; intros log k Hk; [done|].
  rewrite assign_all_cons. destruct Hk as [<-|Hk].
  - apply lookup_assign_all_keeps. rewrite lookup_insert_eq. eauto.
  - by apply IH.
Qed.

Lemma lookup_assign_all_origin (entries : list (string * logval)) :
  ∀ (log : gmap string logval) (k : string) (v : logval),
    Sweep.assign_all entries log !! k = Some v →
    In (k, v) entries ∨ log !! k = Some v.
Proof.
  induction entries as [|[k' v'] entries IH]; intros log k v Hk; [by right|].
  rewrite assign_all_cons in Hk. destruct (IH _ _ _ Hk) as [Hin|Hlog].
  - left. by right.
  - cbn in Hlog. destruct (decide (k' = k)) as [->|Hne].
    + rewrite lookup_insert_eq in Hlog. left. left. congruence.
    + rewrite lookup_insert_ne in Hlog by done. by right.
Qed.

(** Keys with a dash are the per-score keys; ['condition'], ['bleu'] and
    ['samples'] have none. *)
Lemma has_char_append (c : ascii) (x y : string) :
  Str.has_char c (String.append x (String c y)) = true.
Proof.
  induction x as [|b x IH].
  - change (String.append EmptyString (String c y)) with (String c y).
    cbn [Str.has_char]. by rewrite Ascii.eqb_refl.
  - change (String.append (String b x) (String c y))
      with (String b (String.append x (String c y))).
    cbn [Str.has_char]. rewrite IH. apply orb_true_r.
Qed.

Lemma dashed_key (x y : string) :
  Str.has_char "-" (String.append x (String.append "-" y)) = true.
Proof. apply (has_char_append "-" x y). Qed.

Lemma bleu_keys (b : float * list float) (k : string) :
  In k (map fst (Sweep.bleu_entries b)) → k = "bleu" ∨ Str.has_char "-" k = true.
Proof.
  unfold Sweep.bleu_entries. cbn [map fst In]. intros [<-|Hk]; [by left|right].
  apply in_map_iff in Hk as ([k' v] & <- & Hin).
  apply list_elem_of_In, elem_of_lookup_imap in Hin as (i & p & [= -> ->] & _).
  apply (dashed_key "bleu").
Qed.

Lemma rouge_keys (r : list (string * list (string * float))) (k : string) :
  In k (map fst (Sweep.rouge_entries r)) → Str.has_char "-" k = true.
Proof.
  intros Hk. apply in_map_iff in Hk as ([k' v] & <- & Hin).
  unfold Sweep.rouge_entries in Hin.
  apply in_flat_map in Hin as ([kind ks] & _ & Hin).
  apply in_map_iff in Hin as ([key x] & [= <- _] & _).
  apply dashed_key.
Qed.

Lemma bert_keys (b : list (string * float)) (k : string) :
  In k (map fst (Sweep.bert_entries b)) → Str.has_char "-" k = true.
Proof.
  intros Hk. apply in_map_iff in Hk as ([k' v] & <- & Hin).
  unfold Sweep.bert_entries in Hin.
  apply in_map_iff in Hin as ([kind x] & [= <- _] & _).
  apply (dashed_key "bert_score").
Qed.

Lemma bleu_values (b : float * list float) (k : string) (v : logval) :
  In (k, v) (Sweep.bleu_entries b) → ∃ x, v = LScore Bleu x.
Proof.
  unfold Sweep.bleu_entries. intros [[= _ <-]|Hin]; [eauto|].
  apply list_elem_of_In, elem_of_lookup_imap in Hin as (i & p & [= _ ->] & _).
  eauto.
Qed.

Lemma rouge_values (r : list (string * list (string * float))) (k : string)
    (v : logval) :
  In (k, v) (Sweep.rouge_entries r) → ∃ x, v = LScore Rouge x.
Proof.
  unfold Sweep.rouge_entries. intros Hin.
  apply in_flat_map in Hin as ([kind ks] & _ & Hin).
  apply in_map_iff in Hin as ([key x] & [= _ <-] & _). eauto.
Qed.

Lemma bert_values (b : list (string * float)) (k : string) (v : logval) :
  In (k, v) (Sweep.bert_entries b) → ∃ x, v = LScore BertScore x.
Proof.
  unfold Sweep.bert_entries. intros Hin.
  apply in_map_iff in Hin as ([kind x] & [= _ <-] & _). eauto.
Qed.

Lemma evaluate_run (l : Sweep.lv) (a : Sweep.args) (features : bool) (kw : kwargs)
    (d : disk) :
  Sweep.evaluate l a (py_in Sweep.SCORE_BERT_SCORE (Sweep.scores a)) features kw d =
  Outcome (evaluate_trace a features kw (logged l a kw)) d (inr tt).
Proof.
  unfold Sweep.evaluate, evaluate_trace, logged, log_after_bert, log_after_rouge,
    log_after_bleu.
  unfold_m. cbv zeta.
  destruct (py_in Sweep.SCORE_BLEU (Sweep.scores a));
    destruct (py_in Sweep.SCORE_ROUGE (Sweep.scores a));
    destruct (py_in Sweep.SCORE_BERT_SCORE (Sweep.scores a)); reflexivity.
Qed.

Lemma evaluate_calls (l : Sweep.lv) (a : Sweep.args) (features : bool) (kw : kwargs)
    (d : disk) :
  let o := Sweep.evaluate l a (py_in Sweep.SCORE_BERT_SCORE (Sweep.scores a))
                          features kw d in
  res o = inr tt ∧ final o = d ∧ calls_of (trace o) = [kw].
Proof.
  cbv zeta. rewrite evaluate_run. unfold evaluate_trace. cbn [res final trace].
  split; [done|]. split; [done|].
  destruct (py_in Sweep.SCORE_BLEU (Sweep.scores a));
    destruct (py_in Sweep.SCORE_ROUGE (Sweep.scores a));
    destruct (py_in Sweep.SCORE_BERT_SCORE (Sweep.scores a)); reflexivity.
Qed.

Lemma plain_key_not_dashed (k : string) (keys : list string) :
  Str.has_char "-" k = false →
  (∀ k', In k' keys → Str.has_char "-" k' = true) → ¬ In k keys.
Proof. intros Hk Hkeys Hin. apply Hkeys in Hin. congruence. Qed.

Lemma lookup_log_after_bleu_plain (l : Sweep.lv) (a : Sweep.args) (kw : kwargs)
    (k : string) :
  Str.has_char "-" k = false → k ≠ "bleu" →
  log_after_bleu l a kw !! k =
  ({["condition" := LCondition kw]} : gmap string logval) !! k.
Proof.
  intros Hk Hne. unfold log_after_bleu. cbv zeta.
  destruct (py_in Sweep.SCORE_BLEU (Sweep.scores a)); [|done].
  apply lookup_assign_all_other. intros Hin.
  apply bleu_keys in Hin as [?|?]; congruence.
Qed.

Lemma lookup_log_after_bleu_bleu (l : Sweep.lv) (a : Sweep.args) (kw : kwargs) :
  log_after_bleu l a kw !! "bleu" =
  if py_in Sweep.SCORE_BLEU (Sweep.scores a)
  then Some (LScore Bleu (Sweep.decoder_bleu l (Sweep.decoder_predict l kw)).1)
  else None.
Proof.
  unfold log_after_bleu. cbv zeta.
  destruct (py_in Sweep.SCORE_BLEU (Sweep.scores a)); [|done].
  unfold Sweep.bleu_entries. rewrite assign_all_cons.
  rewrite lookup_assign_all_other; [apply lookup_insert_eq|].
  apply plain_key_not_dashed; [done|]. intros k' Hk'.
  apply in_map_iff in Hk' as ([k'' v] & <- & Hin).
  apply list_elem_of_In, elem_of_lookup_imap in Hin as (i & p & [= -> ->] & _).
  apply (dashed_key "bleu").
Qed.

Lemma lookup_logged_plain (l : Sweep.lv) (a : Sweep.args) (kw : kwargs) (k : string) :
  Str.has_char "-" k = false → k ≠ "samples" →
  logged l a kw !! k = log_after_bleu l a kw !! k.
Proof.
  intros Hk Hne. unfold logged. rewrite lookup_insert_ne by done.
  assert (log_after_bert l a kw !! k = log_after_rouge l a kw !! k) as ->.
  { unfold log_after_bert.
    destruct (py_in Sweep.SCORE_BERT_SCORE (Sweep.scores a)); [|done].
    apply lookup_assign_all_other, plain_key_not_dashed; [done|].
    apply bert_keys. }
  unfold log_after_rouge.
  destruct (py_in Sweep.SCORE_ROUGE (Sweep.scores a)); [|done].
  apply lookup_assign_all_other, plain_key_not_dashed; [done|].
  apply rouge_keys.
Qed.

Lemma logged_keeps (l : Sweep.lv) (a : Sweep.args) (kw : kwargs) (k : string) :
  is_Some (log_after_bert l a kw !! k) → is_Some (logged l a kw !! k).
Proof.
  intros Hk. unfold logged. destruct (decide ("samples" = k)) as [<-|Hne].
  - rewrite lookup_insert_eq. eauto.
  - by rewrite lookup_insert_ne.
Qed.

Lemma log_after_bert_keeps (l : Sweep.lv) (a : Sweep.args) (kw : kwargs) (k : string) :
  is_Some (log_after_rouge l a kw !! k) → is_Some (log_after_bert l a kw !! k).
Proof.
  unfold log_after_bert. destruct (py_in Sweep.SCORE_BERT_SCORE (Sweep.scores a));
    auto using lookup_assign_all_keeps.
Qed.

Lemma log_after_rouge_keeps (l : Sweep.lv) (a : Sweep.args) (kw : kwargs) (k : string) :
  is_Some (log_after_bleu l a kw !! k) → is_Some (log_after_rouge l a kw !! k).
Proof.
  unfold log_after_rouge. destruct (py_in Sweep.SCORE_ROUGE (Sweep.scores a));
    auto using lookup_assign_all_keeps.
Qed.

Lemma logged_scores_asked_for (l : Sweep.lv) (a : Sweep.args) (kw : kwargs)
    (k : string) (m : metric) (x : float) :
  logged l a kw !! k = Some (LScore m x) → asked_for a m = true.
Proof.
  unfold logged. intros Hk.
  destruct (decide ("samples" = k)) as [<-|Hne].
  { by rewrite lookup_insert_eq in Hk. }
  rewrite lookup_insert_ne in Hk by done.
  assert (log_after_rouge l a kw !! k = Some (LScore m x) ∨
          (m = BertScore ∧ asked_for a BertScore = true)) as [Hr|[-> ?]]; [|clear Hk|done].
  { unfold log_after_bert in Hk. cbn [asked_for].
    destruct (py_in Sweep.SCORE_BERT_SCORE (Sweep.scores a)); [|by left].
    apply lookup_assign_all_origin in Hk as [Hin|?]; [|by left].
    apply bert_values in Hin as [y [= -> _]]. by right. }
  assert (log_after_bleu l a kw !! k = Some (LScore m x) ∨
          (m = Rouge ∧ asked_for a Rouge = true)) as [Hb|[-> ?]]; [|clear Hr|done].
  { unfold log_after_rouge in Hr. cbn [asked_for].
    destruct (py_in Sweep.SCORE_ROUGE (Sweep.scores a)); [|by left].
    apply lookup_assign_all_origin in Hr as [Hin|?]; [|by left].
    apply rouge_values in Hin as [y [= -> _]]. by right. }
  unfold log_after_bleu in Hb. cbv zeta in Hb.
  assert (∀ v : logval, ({["condition" := LCondition kw]} : gmap string logval) !! k
                        = Some v → v = LCondition kw) as Hcond.
  { intros v Hv. apply lookup_singleton_Some in Hv as [_ <-]. done. }
  destruct m; cbn [asked_for];
    destruct (py_in Sweep.SCORE_BLEU (Sweep.scores a)); try done;
    try (apply Hcond in Hb; discriminate);
    apply lookup_assign_all_origin in Hb as [Hin|Hc];
    try (apply Hcond in Hc; discriminate);
    apply bleu_values in Hin as [y [=]].
Qed.

(** C3.  Every call of [evaluate] predicts once, computes exactly the
    metrics named in [--scores], samples images and ends with one
    [wandb.log]; nothing else is logged.  The record holds the condition
    kwargs under ['condition'] and the sampled images under ['samples'].
    It holds the BLEU score under ['bleu'] if and only if ['bleu'] is in
    [--scores], and then also a key per BLEU precision; when ['rouge'] is in
    [--scores] it holds a key for every ROUGE kind and measure, and when
    ['bert-score'] is in [--scores] a key for every BERTScore kind; and no
    score of a metric that was not asked for is in the record. *)
Theorem evaluate_logs_selected_scores (l : Sweep.lv) (a : Sweep.args)
    (features : bool) (kw : kwargs) (d : disk) :
  let o := Sweep.evaluate l a (py_in Sweep.SCORE_BERT_SCORE (Sweep.scores a))
                          features kw d in
  let predictions := Sweep.decoder_predict l kw in
  ∃ log : gmap string logval,
    res o = inr tt ∧ final o = d ∧
    trace o =
      [EvDecoderPredict kw features]
      ++ (if py_in Sweep.SCORE_BLEU (Sweep.scores a) then [EvBleu] else [])
      ++ (if py_in Sweep.SCORE_ROUGE (Sweep.scores a) then [EvRouge] else [])
      ++ (if py_in Sweep.SCORE_BERT_SCORE (Sweep.scores a) then [EvBertScore] else [])
      ++ [EvSamples kw; EvWandbLog log] ∧
    logs_of (trace o) = [log] ∧
    log !! "condition" = Some (LCondition kw) ∧
    log !! "samples"
      = Some (LSamples (Sweep.random_neuron_wandb_images l predictions kw)) ∧
    (is_Some (log !! "bleu") ↔ In "bleu" (Sweep.scores a)) ∧
    (In "bleu" (Sweep.scores a) →
     log !! "bleu" = Some (LScore Bleu (Sweep.decoder_bleu l predictions).1)
     ∧ ∀ index precision,
         (Sweep.decoder_bleu l predictions).2 !! index = Some precision →
         is_Some (log !! String.append "bleu-" (pretty (index + 1)%nat))) ∧
    (In "rouge" (Sweep.scores a) →
     ∀ kind scores key score,
       In (kind, scores) (Sweep.decoder_rouge l predictions) →
       In (key, score) scores →
       is_Some (log !! String.append kind (String.append "-" key))) ∧
    (In "bert-score" (Sweep.scores a) →
     ∀ kind score,
       In (kind, score) (Sweep.decoder_bert_score l predictions) →
       is_Some (log !! String.append "bert_score-" kind)) ∧
    (∀ k m x,
       log !! k = Some (LScore m x) →
       In (match m with
           | Bleu => "bleu"
           | Rouge => "rouge"
           | BertScore => "bert-score"
           end) (Sweep.scores a)).
Proof.
  cbv zeta. exists (logged l a kw). rewrite evaluate_run. cbn [res final trace].
  split; [done|]. split; [done|]. split; [done|].
  split.
  { unfold evaluate_trace.
    destruct (py_in Sweep.SCORE_BLEU (Sweep.scores a));
      destruct (py_in Sweep.SCORE_ROUGE (Sweep.scores a));
      destruct (py_in Sweep.SCORE_BERT_SCORE (Sweep.scores a)); reflexivity. }
  split.
  { rewrite lookup_logged_plain, lookup_log_after_bleu_plain by done.
    apply lookup_singleton_eq. }
  split.
  { unfold logged. apply lookup_insert_eq. }
  split.
  { rewrite lookup_logged_plain, lookup_log_after_bleu_bleu by done.
    rewrite <- (py_in_In "bleu").
    change Sweep.SCORE_BLEU with "bleu"%string.
    destruct (py_in "bleu" (Sweep.scores a)); split; try done; eauto. }
  split.
  { intros Hb%py_in_In. split.
    - rewrite lookup_logged_plain, lookup_log_after_bleu_bleu by done.
      change Sweep.SCORE_BLEU with "bleu"%string. by rewrite Hb.
    - intros index precision Hp.
      apply logged_keeps, log_after_bert_keeps, log_after_rouge_keeps.
      unfold log_after_bleu. cbv zeta.
      change Sweep.SCORE_BLEU with "bleu"%string. rewrite Hb.
      apply lookup_assign_all_key. unfold Sweep.bleu_entries. cbn [map fst].
      right. apply in_map_iff.
      exists (String.append "bleu-" (pretty (index + 1)%nat), LScore Bleu precision).
      split; [done|]. apply list_elem_of_In.
      by apply (elem_of_lookup_imap_2
                  (λ index precision,
                     (String.append "bleu-" (pretty (index + 1)%nat),
                      LScore Bleu precision))). }
  split.
  { intros Hr%py_in_In kind scores key score Hkind Hkey.
    apply logged_keeps, log_after_bert_keeps.
    unfold log_after_rouge.
    change Sweep.SCORE_ROUGE with "rouge"%string. rewrite Hr.
    apply lookup_assign_all_key, in_map_iff.
    exists (String.append kind (String.append "-" key), LScore Rouge score).
    split; [done|]. unfold Sweep.rouge_entries. apply in_flat_map.
    exists (kind, scores). split; [done|]. apply in_map_iff.
    by exists (key, score). }
  split.
  { intros Hb%py_in_In kind score Hkind.
    apply logged_keeps. unfold log_after_bert.
    change Sweep.SCORE_BERT_SCORE with "bert-score"%string. rewrite Hb.
    apply lookup_assign_all_key, in_map_iff.
    exists (String.append "bert_score-" kind, LScore BertScore score).
    split; [done|]. unfold Sweep.bert_entries. apply in_map_iff.
    by exists (kind, score). }
  intros k m x Hk. apply logged_scores_asked_for in Hk.
  destruct m; by apply py_in_In.
Qed.

(** ** Loops *)

Lemma lift_bind_run {A B : Type} (r : result A) (k : A → M B) (d : disk) :
  (lift r ≫= k) d =
  match r with
  | inl e => Outcome [] d (inl e)
  | inr x => k x d
  end.
Proof. destruct r as [e|x]; unfold_m; [done|]. by destruct (k x d). Qed.

Lemma for_each_cons {A : Type} (x : A) (l : list A) (body : A → M unit) (d : disk) :
  for_each (x :: l) body d =
  match res (body x d) with
  | inl e => Outcome (trace (body x d)) (final (body x d)) (inl e)
  | inr _ =>
      let o' := for_each l body (final (body x d)) in
      Outcome (trace (body x d) ++ trace o') (final o') (res o')
  end.
Proof. reflexivity. Qed.

(** A loop whose every pass succeeds and leaves the disk alone shows the
    passes one after the other. *)
Lemma for_each_shows {A X : Type} (f : event → list X) (body : A → M unit)
    (G : A → list X) (l : list A) :
  (∀ x d, res (body x d) = inr tt ∧ final (body x d) = d
          ∧ flat_map f (trace (body x d)) = G x) →
  ∀ d, res (for_each l body d) = inr tt ∧ final (for_each l body d) = d
       ∧ flat_map f (trace (for_each l body d)) = flat_map G l.
Proof.
  intros Hbody. induction l as [|x l IH]; intros d; [done|].
  rewrite for_each_cons. destruct (Hbody x d) as (Hres & Hfinal & Hshow).
  rewrite Hres, Hfinal. cbv zeta. cbn [res final trace].
  destruct (IH d) as (-> & -> & Hrest).
  by rewrite flat_map_app, Hshow, Hrest.
Qed.

(** A loop that succeeded shows every pass, whatever the passes do to the
    disk. *)
Lemma for_each_succeeded {A X : Type} (f : event → list X) (body : A → M unit)
    (G : A → list X) (l : list A) :
  (∀ x d, In x l → res (body x d) = inr tt → flat_map f (trace (body x d)) = G x) →
  ∀ d, res (for_each l body d) = inr tt →
       flat_map f (trace (for_each l body d)) = flat_map G l.
Proof.
  induction l as [|x l IH]; intros Hbody d; [done|].
  rewrite for_each_cons. destruct (res (body x d)) as [e|[]] eqn:Hres; [done|].
  cbv zeta. cbn [res trace]. intros Hrest.
  rewrite flat_map_app. cbn [flat_map]. f_equal.
  - apply Hbody; [by left|done].
  - apply IH; [|done]. intros y d' Hy. apply Hbody. by right.
Qed.

Lemma flat_map_singleton {A B : Type} (g : A → B) (l : list A) :
  flat_map (λ x, [g x]) l = map g l.
Proof. induction l as [|x l IH]; cbn; [done|]. by rewrite IH. Qed.

Lemma flat_map_as_list_prod {A B C : Type} (g : A → B → C) (l1 : list A) (l2 : list B) :
  flat_map (λ x, map (g x) l2) l1 = map (λ xy, g xy.1 xy.2) (list_prod l1 l2).
Proof.
  induction l1 as [|x l1 IH]; cbn; [done|].
  by rewrite map_app, map_map, IH.
Qed.

(** The first list is the outer loop: position [i * len l2 + j] holds the
    pair of [l1[i]] and [l2[j]]. *)
Lemma list_prod_lookup {A B : Type} (l1 : list A) (l2 : list B) :
  ∀ (i j : nat) (x : A) (y : B),
    l1 !! i = Some x → l2 !! j = Some y →
    list_prod l1 l2 !! (i * length l2 + j)%nat = Some (x, y).
Proof.
  induction l1 as [|x' l1 IH]; intros i j x y Hx Hy; [done|].
  cbn [list_prod]. destruct i as [|i]; cbn in Hx.
  - simplify_eq. replace (0 * length l2 + j)%nat with j by lia.
    rewrite lookup_app_l.
    + change (map (pair x) l2) with (pair x <$> l2).
      by rewrite list_lookup_fmap, Hy.
    + rewrite length_map. by apply lookup_lt_Some in Hy.
  - rewrite lookup_app_r; rewrite length_map; [|cbn; lia].
    replace (S i * length l2 + j - length l2)%nat with (i * length l2 + j)%nat
      by (cbn; lia).
    by apply IH.
Qed.

Lemma grid_run (l : Sweep.lv) (a : Sweep.args) (features : bool)
    (kw : Z → float → kwargs) (d : disk) :
  let ev := Sweep.evaluate l a (py_in Sweep.SCORE_BERT_SCORE (Sweep.scores a))
                           features in
  let o := grid ev a kw d in
  match Sweep.beam_sizes a with
  | inl e => calls_of (trace o) = [] ∧ res o = inl e
  | inr bs =>
      match Sweep.temperatures a with
      | inr ts =>
          calls_of (trace o) = map (λ bt, kw bt.1 bt.2) (list_prod bs ts)
          ∧ res o = inr tt
      | inl e =>
          calls_of (trace o) = []
          ∧ res o = match bs with [] => inr tt | _ => inl e end
      end
  end.
Proof.
  cbv zeta. unfold grid. rewrite lift_bind_run.
  destruct (Sweep.beam_sizes a) as [e|bs]; [done|].
  destruct (Sweep.temperatures a) as [e|ts].
  - destruct bs as [|b bs]; [done|].
    rewrite for_each_cons, lift_bind_run. done.
  - rewrite <- flat_map_as_list_prod.
    destruct (for_each_shows
                (λ e, match e with EvDecoderPredict kw _ => [kw] | _ => [] end)
                (λ beam_size,
                   ts ← lift (inr ts);
                   for_each ts (λ temperature,
                     Sweep.evaluate l a (py_in Sweep.SCORE_BERT_SCORE (Sweep.scores a))
                                    features (kw beam_size temperature)))
                (λ b, map (kw b) ts) bs) with d as (Hres & _ & Hcalls); [|done].
    intros b d'. rewrite lift_bind_run, <- flat_map_singleton.
    apply for_each_shows. intros t d''. apply evaluate_calls.
Qed.

Lemma run_sweep_other (ev : kwargs → M unit) (a : Sweep.args) (sweep : string) (d : disk) :
  ¬ In sweep Sweep.SWEEPS →
  Sweep.run_sweep ev a sweep d = Outcome [] d (inl AssertionError).
Proof.
  intros Hnot. unfold Sweep.run_sweep.
  assert (∀ s, In s Sweep.SWEEPS → String.eqb sweep s = false) as Hne.
  { intros s Hs. apply String.eqb_neq. by intros ->. }
  rewrite !Hne; [done|unfold Sweep.SWEEPS; cbn; auto 10..].
Qed.

(** C2.  Each element of [--sweeps] takes exactly one of the five branches.
    ['greedy'] evaluates once with strategy ['greedy'] and [mi=False];
    ['beam'] evaluates strategy ['beam'] with [mi=False] once per beam
    size; ['greedy-mi'] evaluates strategy ['greedy'] with [mi=True] once
    per temperature; ['beam-mi'] evaluates strategy ['beam'] with [mi=True]
    once per pair of a beam size and a temperature; anything else is
    asserted to be ['rerank'], which evaluates strategy ['rerank'] once per
    pair, and an element that is none of the five stops the run with an
    AssertionError before any evaluation.  A range that cannot be built (a
    zero step) stops the sweep the same way, with its exception. *)
Theorem sweep_dispatch (l : Sweep.lv) (a : Sweep.args) (features : bool)
    (sweep : string) (d : disk) :
  let ev := Sweep.evaluate l a (py_in Sweep.SCORE_BERT_SCORE (Sweep.scores a))
                           features in
  let o := Sweep.run_sweep ev a sweep d in
  let pairs (kw : Z → float → kwargs) :=
    match Sweep.beam_sizes a with
    | inl e => calls_of (trace o) = [] ∧ res o = inl e
    | inr bs =>
        match Sweep.temperatures a with
        | inr ts =>
            calls_of (trace o) = map (λ bt, kw bt.1 bt.2) (list_prod bs ts)
            ∧ res o = inr tt
        | inl e =>
            calls_of (trace o) = []
            ∧ res o = match bs with [] => inr tt | _ => inl e end
        end
    end in
  (sweep = "greedy" →
   calls_of (trace o) = [[("strategy", VStr "greedy"); ("mi", VBool false)]]
   ∧ res o = inr tt) ∧
  (sweep = "beam" →
   match Sweep.beam_sizes a with
   | inl e => calls_of (trace o) = [] ∧ res o = inl e
   | inr bs =>
       calls_of (trace o)
       = map (λ beam_size,
                [("strategy", VStr "beam"); ("mi", VBool false);
                 ("beam_size", VInt beam_size)]) bs
       ∧ res o = inr tt
   end) ∧
  (sweep = "greedy-mi" →
   match Sweep.temperatures a with
   | inl e => calls_of (trace o) = [] ∧ res o = inl e
   | inr ts =>
       calls_of (trace o)
       = map (λ temperature,
                [("strategy", VStr "greedy"); ("mi", VBool true);
                 ("temperature", VFloat temperature)]) ts
       ∧ res o = inr tt
   end) ∧
  (sweep = "beam-mi" →
   pairs (λ beam_size temperature,
            [("strategy", VStr "beam"); ("beam_size", VInt beam_size);
             ("mi", VBool true); ("temperature", VFloat temperature)])) ∧
  (sweep = "rerank" →
   pairs (λ beam_size temperature,
            [("strategy", VStr "rerank"); ("beam_size", VInt beam_size);
             ("temperature", VFloat temperature)])) ∧
  (¬ In sweep ["greedy"; "beam"; "greedy-mi"; "beam-mi"; "rerank"] →
   calls_of (trace o) = [] ∧ res o = inl AssertionError).
Proof.
  cbv zeta. split; [|split; [|split; [|split; [|split]]]].
  - intros ->. change (Sweep.run_sweep ?ev a "greedy" d) with (ev Sweep.kw_greedy d).
    destruct (evaluate_calls l a features Sweep.kw_greedy d) as (-> & _ & ->). done.
  - intros ->.
    change (Sweep.run_sweep ?ev a "beam" d)
      with ((bs ← lift (Sweep.beam_sizes a);
             for_each bs (λ beam_size, ev (Sweep.kw_beam beam_size))) d).
    rewrite lift_bind_run. destruct (Sweep.beam_sizes a) as [e|bs]; [done|].
    rewrite <- flat_map_singleton.
    destruct (for_each_shows
                (λ e, match e with EvDecoderPredict kw _ => [kw] | _ => [] end)
                (λ beam_size,
                   Sweep.evaluate l a (py_in Sweep.SCORE_BERT_SCORE (Sweep.scores a))
                                  features (Sweep.kw_beam beam_size))
                (λ b, [Sweep.kw_beam b]) bs) with d as (Hres & _ & Hcalls); [|done].
    intros b d'. apply evaluate_calls.
  - intros ->.
    change (Sweep.run_sweep ?ev a "greedy-mi" d)
      with ((ts ← lift (Sweep.temperatures a);
             for_each ts (λ temperature, ev (Sweep.kw_greedy_mi temperature))) d).
    rewrite lift_bind_run. destruct (Sweep.temperatures a) as [e|ts]; [done|].
    rewrite <- flat_map_singleton.
    destruct (for_each_shows
                (λ e, match e with EvDecoderPredict kw _ => [kw] | _ => [] end)
                (λ temperature,
                   Sweep.evaluate l a (py_in Sweep.SCORE_BERT_SCORE (Sweep.scores a))
                                  features (Sweep.kw_greedy_mi temperature))
                (λ t, [Sweep.kw_greedy_mi t]) ts) with d as (Hres & _ & Hcalls); [|done].
    intros t d'. apply evaluate_calls.
  - intros ->. apply (grid_run l a features Sweep.kw_beam_mi d).
  - intros ->. apply (grid_run l a features Sweep.kw_rerank d).
  - intros Hnot. by rewrite run_sweep_other.
Qed.

(** The sample's greedy sweep: one evaluation, whose record has the BLEU
    score and no ROUGE or BERTScore entry. *)
Lemma sample_greedy_sweep :
  let ev := Sweep.evaluate Sample.sweep_lv Sample.greedy_args
              (py_in Sweep.SCORE_BERT_SCORE (Sweep.scores Sample.greedy_args))
              false in
  let o := Sweep.run_sweep ev Sample.greedy_args "greedy" ∅ in
  calls_of (trace o) = [[("strategy", VStr "greedy"); ("mi", VBool false)]]
  ∧ res o = inr tt.
Proof.
  apply (proj1 (sweep_dispatch Sample.sweep_lv Sample.greedy_args false "greedy" ∅)).
  reflexivity.
Defined.

Lemma sample_record_has_bleu :
  ∃ log,
    logs_of (trace (Sweep.evaluate Sample.sweep_lv Sample.greedy_args false false
                      Sweep.kw_greedy ∅)) = [log]
    ∧ log !! "bleu" = Some (LScore Bleu 0.5)
    ∧ ∀ k x, log !! k ≠ Some (LScore Rouge x).
Proof.
  destruct (evaluate_logs_selected_scores Sample.sweep_lv Sample.greedy_args false
              Sweep.kw_greedy ∅)
    as (log & _ & _ & _ & Hlogs & _ & _ & _ & Hbleu & _ & _ & Honly).
  exists log. split; [exact Hlogs|]. split.
  - apply Hbleu. cbn. auto.
  - intros k x Hk. apply Honly in Hk. cbn in Hk. destruct Hk as [Hk|[]].
    discriminate.
Defined.

(** ** The ablation loops *)

Lemma bind_succeeded {A B : Type} (m : M A) (k : A → M B) (d : disk) (b : B) :
  res ((m ≫= k) d) = inr b →
  ∃ a, res (m d) = inr a ∧ res (k a (final (m d))) = inr b
       ∧ trace ((m ≫= k) d) = trace (m d) ++ trace (k a (final (m d))).
Proof. rewrite bind_run. destruct (res (m d)) as [e|a]; cbn; [done|eauto]. Qed.

Lemma trials_of_app (t1 t2 : list event) :
  trials_of (t1 ++ t2) = trials_of t1 ++ trials_of t2.
Proof. apply flat_map_app. Qed.

Lemma silent_bind {A B : Type} (m : M A) (k : A → M B) :
  silent m → (∀ a, silent (k a)) → silent (m ≫= k).
Proof.
  intros Hm Hk d. rewrite bind_run. destruct (res (m d)) as [e|a]; cbn [trace].
  - apply Hm.
  - by rewrite trials_of_app, Hm, Hk.
Qed.

Lemma silent_ret {A : Type} (a : A) : silent (mret a : M A).
Proof. done. Qed.

Lemma silent_raise {A : Type} (e : error) : silent (raise e : M A).
Proof. done. Qed.

Lemma silent_lift {A : Type} (r : result A) : silent (lift r).
Proof. by destruct r. Qed.

Lemma silent_py_assert (b : bool) : silent (py_assert b).
Proof. by destruct b. Qed.

Lemma silent_get_disk : silent get_disk.
Proof. done. Qed.

Lemma silent_put_disk (d' : disk) : silent (put_disk d').
Proof. done. Qed.

Lemma silent_path_exists (p : path) : silent (path_exists p).
Proof. done. Qed.

Lemma silent_emit (e : event) : trials_of [e] = [] → silent (emit e).
Proof. by intros He d. Qed.

Lemma silent_for_each {A : Type} (l : list A) (body : A → M unit) :
  (∀ x, silent (body x)) → silent (for_each l body).
Proof.
  intros Hbody. induction l as [|x l IH]; [done|].
  cbn [for_each]. apply silent_bind; [apply Hbody|]. intros _. apply IH.
Qed.

Lemma silent_if {A : Type} (b : bool) (m1 m2 : M A) :
  silent m1 → silent m2 → silent (if b then m1 else m2).
Proof. by destruct b. Qed.

Lemma silent_update_disk (e : event) (f : disk → result disk) :
  trials_of [e] = [] → silent (update_disk e f).
Proof.
  intros He. unfold update_disk.
  repeat (apply silent_bind; [|intros ?]);
    auto using silent_emit, silent_get_disk, silent_lift, silent_put_disk.
Qed.

Create HintDb silent.

#[local] Hint Resolve silent_ret silent_raise silent_lift silent_py_assert
  silent_get_disk silent_put_disk silent_path_exists silent_for_each : silent.

Ltac silence :=
  repeat first
    [ solve [auto with silent]
    | apply silent_update_disk; reflexivity
    | apply silent_emit; reflexivity
    | apply silent_for_each; intros ?
    | apply silent_if
    | apply silent_bind; [|intros ?] ].

Lemma silent_setup_results_dir (clear_results_dir : bool) (rd : path) :
  silent (setup_results_dir clear_results_dir rd).
Proof. unfold setup_results_dir. silence. Qed.

Lemma silent_target_words (l : Cert.lv) (experiment : string) :
  silent (Cert.target_words l experiment).
Proof. unfold Cert.target_words. silence. Qed.

Lemma silent_load_splits (f : path) (key : string) : silent (load_splits f key).
Proof.
  unfold load_splits. apply silent_bind.
  - unfold torch_load. silence.
  - intros x. destruct x; silence.
Qed.

#[local] Hint Resolve silent_load_splits : silent.

Lemma silent_cert_splits (ed : path) : silent (Cert.load_or_make_splits ed).
Proof.
  unfold Cert.load_or_make_splits, torch_save. silence.
Qed.

Lemma silent_load_or_fit_cnn (a : Cert.args) (ed : path) (version : string) :
  silent (Cert.load_or_fit_cnn a ed version).
Proof. unfold Cert.load_or_fit_cnn, torch_load, torch_save. cbv zeta. silence. Qed.

Lemma silent_captions (l : Cert.lv) (a : Cert.args) (experiment : string) (ed : path)
    (version : string) :
  silent (Cert.load_or_predict_captions l a experiment ed version).
Proof. unfold Cert.load_or_predict_captions. cbv zeta. silence. Qed.

Lemma silent_scores (l : Cert.lv) (a : Cert.args) (experiment : string) (ed : path)
    (version : string) :
  silent (Cert.load_or_compute_scores l a experiment ed version).
Proof.
  unfold Cert.load_or_compute_scores, torch_load, torch_save. cbv zeta. silence.
Qed.

Lemma silent_choose_indices (l : Cert.lv) (experiment version condition : string)
    (trial n : nat) (candidates : list nat) (scores : option payload) :
  silent (Cert.choose_indices l experiment version condition trial n candidates scores).
Proof.
  unfold Cert.choose_indices. destruct scores; silence.
Qed.

Lemma keys_of_trials (t : list event) :
  flat_map key_of t = map trial_key (trials_of t).
Proof.
  induction t as [|e t IH]; [done|].
  cbn [flat_map trials_of]. unfold trials_of in *. cbn [flat_map].
  rewrite map_app, IH. by destruct e.
Qed.

Lemma silent_no_keys {A : Type} (m : M A) (d : disk) :
  silent m → flat_map key_of (trace (m d)) = [].
Proof. intros Hm. by rewrite keys_of_trials, Hm. Qed.

Lemma bind_keys {A B : Type} (m : M A) (k : A → M B) (d : disk) (b : B) :
  res ((m ≫= k) d) = inr b →
  ∃ a, res (m d) = inr a ∧ res (k a (final (m d))) = inr b
       ∧ flat_map key_of (trace ((m ≫= k) d))
         = flat_map key_of (trace (m d))
           ++ flat_map key_of (trace (k a (final (m d)))).
Proof.
  intros Hres. destruct (bind_succeeded _ _ _ _ Hres) as (x & Hm & Hk & ->).
  exists x. by rewrite flat_map_app.
Qed.

Lemma silent_bind_keys {A B : Type} (m : M A) (k : A → M B) (d : disk) (b : B) :
  silent m → res ((m ≫= k) d) = inr b →
  ∃ a, res (k a (final (m d))) = inr b
       ∧ flat_map key_of (trace ((m ≫= k) d))
         = flat_map key_of (trace (k a (final (m d)))).
Proof.
  intros Hm Hres. destruct (bind_keys _ _ _ _ Hres) as (x & _ & Hk & ->).
  exists x. by rewrite silent_no_keys.
Qed.

Lemma run_fraction_run (l : Cert.lv) (a : Cert.args) (experiment version condition : string)
    (trial : nat) (indices : list nat) (fraction : float) (d : disk) :
  Cert.run_fraction l a experiment version condition trial indices fraction d =
  match Cert.n_to_ablate fraction indices with
  | inl e => Outcome [] d (inl e)
  | inr k =>
      let ablated := Cert.slice_to indices k in
      Outcome ((if Cert.fine_tune a then [EvFineTune ablated] else [])
               ++ [EvTestAccuracy ablated;
                   EvWandbTrial
                     {| tl_experiment := experiment;
                        tl_version := version;
                        tl_condition := condition;
                        tl_trial := trial;
                        tl_frac_ablated := fraction;
                        tl_n_ablated := length ablated;
                        tl_accuracy :=
                          Cert.ablated_accuracy l experiment version ablated |}])
              d (inr tt)
  end.
Proof.
  unfold Cert.run_fraction. rewrite lift_bind_run.
  destruct (Cert.n_to_ablate fraction indices) as [e|k]; [done|].
  unfold_m. by destruct (Cert.fine_tune a).
Qed.

Lemma run_fraction_key (l : Cert.lv) (a : Cert.args) (experiment version condition : string)
    (trial : nat) (indices : list nat) (fraction : float) (d : disk) :
  res (Cert.run_fraction l a experiment version condition trial indices fraction d)
  = inr tt →
  flat_map key_of
    (trace (Cert.run_fraction l a experiment version condition trial indices fraction d))
  = [(experiment, version, condition, trial, fraction)].
Proof.
  rewrite run_fraction_run.
  destruct (Cert.n_to_ablate fraction indices) as [e|k]; [done|].
  intros _. cbv zeta. cbn [trace]. by destruct (Cert.fine_tune a).
Qed.

Lemma run_conditions_keys (l : Cert.lv) (a : Cert.args) (experiment version : string)
    (n : nat) (candidates : list nat) (scores : option payload) (fs : list float)
    (d : disk) :
  Cert.fractions a = inr fs →
  res (Cert.run_conditions l a experiment version n candidates scores d) = inr tt →
  flat_map key_of
    (trace (Cert.run_conditions l a experiment version n candidates scores d))
  = flat_map (λ condition,
      flat_map (λ trial,
        map (λ fraction, (experiment, version, condition, trial, fraction)) fs)
        (Cert.trials a condition))
      (Cert.conditions a).
Proof.
  intros Hfs. unfold Cert.run_conditions.
  apply for_each_succeeded. intros condition d1 _.
  apply for_each_succeeded. intros trial d2 _ Hres.
  apply silent_bind_keys in Hres as (indices & Hres & ->);
    [|apply silent_choose_indices].
  rewrite Hfs, lift_bind_run in *. rewrite <- flat_map_singleton.
  revert Hres. apply for_each_succeeded. intros fraction d3 _.
  apply run_fraction_key.
Qed.

Lemma run_version_keys (l : Cert.lv) (a : Cert.args) (experiment : string) (ed : path)
    (words : list string) (version : string) (fs : list float) (d : disk) :
  Cert.fractions a = inr fs →
  res (Cert.run_version l a experiment ed words version d) = inr tt →
  flat_map key_of (trace (Cert.run_version l a experiment ed words version d))
  = flat_map (λ condition,
      flat_map (λ trial,
        map (λ fraction, (experiment, version, condition, trial, fraction)) fs)
        (Cert.trials a condition))
      (Cert.conditions a).
Proof.
  intros Hfs Hres. unfold Cert.run_version in *.
  apply silent_bind_keys in Hres as (? & Hres & ->); [|apply silent_cert_splits].
  apply silent_bind_keys in Hres as (? & Hres & ->); [|by apply silent_emit].
  apply silent_bind_keys in Hres as (? & Hres & ->); [|apply silent_load_or_fit_cnn].
  apply silent_bind_keys in Hres as (? & Hres & ->);
    [|apply silent_for_each; intros ?; by apply silent_emit].
  apply silent_bind_keys in Hres as (captions & Hres & ->); [|apply silent_captions].
  cbv zeta in *.
  apply silent_bind_keys in Hres as (? & Hres & ->);
    [|by apply silent_update_disk].
  apply silent_bind_keys in Hres as (scores & Hres & ->); [|apply silent_scores].
  by apply run_conditions_keys.
Qed.

Lemma main_keys (l : Cert.lv) (a : Cert.args) (fs : list float) (d : disk) :
  Cert.fractions a = inr fs →
  res (Cert.main l a d) = inr tt →
  map trial_key (trials_of (trace (Cert.main l a d))) = trial_nest a fs.
Proof.
  intros Hfs Hres. rewrite <- keys_of_trials. unfold Cert.main in *. cbv zeta in *.
  apply silent_bind_keys in Hres as (? & Hres & ->);
    [|apply silent_setup_results_dir].
  revert Hres. apply for_each_succeeded. intros experiment d1 _ Hres.
  apply silent_bind_keys in Hres as (? & Hres & ->); [|by apply silent_update_disk].
  apply silent_bind_keys in Hres as (words & Hres & ->); [|apply silent_target_words].
  revert Hres. apply for_each_succeeded. intros version d2 _.
  by apply run_version_keys.
Qed.

(** ** Ranges *)

Lemma ceil_div_above (a b i : Z) : 0 < b → i < Numpy.ceil_div a b → i * b < a.
Proof.
  unfold Numpy.ceil_div. intros Hb Hi.
  pose proof (Z.div_mod (- a) b ltac:(lia)).
  pose proof (Z.mod_pos_bound (- a) b Hb). nia.
Qed.

Lemma ceil_div_below (a b i : Z) : b < 0 → i < Numpy.ceil_div a b → a < i * b.
Proof.
  unfold Numpy.ceil_div. intros Hb Hi.
  pose proof (Z.div_mod (- a) b ltac:(lia)).
  pose proof (Z.mod_neg_bound (- a) b Hb). nia.
Qed.

Lemma arange_int_lookup (start stop step : Z) (bs : list Z) (i : nat) (b : Z) :
  Numpy.arange_int start stop step = inr bs → bs !! i = Some b →
  step ≠ 0 ∧ b = start + Z.of_nat i * step
  ∧ Z.of_nat i < Numpy.ceil_div (stop - start) step.
Proof.
  unfold Numpy.arange_int. destruct (Z.eqb_spec step 0) as [|Hstep]; [done|].
  intros [= <-] Hb.
  change (map ?f ?l) with (f <$> l) in Hb. rewrite list_lookup_fmap in Hb.
  destruct (seq 0 _ !! i) as [j|] eqn:Hj; [|done].
  apply lookup_seq in Hj as [-> Hlt]. cbn in Hb. simplify_eq. lia.
Qed.

(** C4, as the code has it.  The ['beam-mi'] and ['rerank'] sweeps evaluate
    once per pair of a beam size and a temperature, beam sizes outermost:
    call number [i * len(temperatures) + j] has beam size [i] and
    temperature [j].  Beam size [i] is [min + i * step], it is never
    [--beam-size-max], and for a positive step every beam size is at least
    the min and below the max.  The temperatures are as many float64 values
    as the float64 quotient [(max - min) / step] rounds up to, the first
    being [--mi-temperature-min]; nothing keeps the last below the max.  A
    run of the ablation script that completes logs one record per
    experiment, version, condition, trial number and ablation fraction,
    nested in that order. *)
Theorem sweep_pairs_and_trial_nest :
  (∀ (l : Sweep.lv) (a : Sweep.args) (features : bool) (d : disk)
     (bs : list Z) (ts : list float),
     Sweep.beam_sizes a = inr bs → Sweep.temperatures a = inr ts →
     let ev := Sweep.evaluate l a (py_in Sweep.SCORE_BERT_SCORE (Sweep.scores a))
                              features in
     let beam_mi := Sweep.run_sweep ev a "beam-mi" d in
     let rerank := Sweep.run_sweep ev a "rerank" d in
     res beam_mi = inr tt ∧ res rerank = inr tt
     ∧ calls_of (trace beam_mi)
       = map (λ bt, Sweep.kw_beam_mi bt.1 bt.2) (list_prod bs ts)
     ∧ calls_of (trace rerank)
       = map (λ bt, Sweep.kw_rerank bt.1 bt.2) (list_prod bs ts)
     ∧ ∀ (i j : nat) b t,
         bs !! i = Some b → ts !! j = Some t →
         calls_of (trace beam_mi) !! (i * length ts + j)%nat
         = Some (Sweep.kw_beam_mi b t)
         ∧ calls_of (trace rerank) !! (i * length ts + j)%nat
           = Some (Sweep.kw_rerank b t)) ∧
  (∀ (a : Sweep.args) (bs : list Z),
     Sweep.beam_sizes a = inr bs →
     (∀ (i : nat) b,
        bs !! i = Some b →
        b = Sweep.beam_size_min a + Z.of_nat i * Sweep.beam_size_step a)
     ∧ ¬ In (Sweep.beam_size_max a) bs
     ∧ (0 < Sweep.beam_size_step a →
        Forall (λ b, Sweep.beam_size_min a ≤ b < Sweep.beam_size_max a) bs)) ∧
  (∀ (a : Sweep.args) (ts : list float),
     Sweep.temperatures a = inr ts →
     (∀ t, head ts = Some t → t = Sweep.mi_temperature_min a)
     ∧ ∃ n, Numpy.float_ceil
              ((Sweep.mi_temperature_max a - Sweep.mi_temperature_min a)
               / Sweep.mi_temperature_step a)%float = inr n
            ∧ length ts = Z.to_nat n) ∧
  (∀ (l : Cert.lv) (a : Cert.args) (fs : list float) (d : disk),
     Cert.fractions a = inr fs →
     res (Cert.main l a d) = inr tt →
     map trial_key (trials_of (trace (Cert.main l a d))) = trial_nest a fs).
Proof.
  split; [|split; [|split]].
  - intros l a features d bs ts Hbs Hts. cbv zeta.
    pose proof (grid_run l a features Sweep.kw_beam_mi d) as Hb.
    pose proof (grid_run l a features Sweep.kw_rerank d) as Hr.
    cbv zeta in Hb, Hr. rewrite Hbs, Hts in Hb, Hr.
    destruct Hb as [Hb1 Hb2], Hr as [Hr1 Hr2].
    change (Sweep.run_sweep ?ev a "beam-mi" d) with (grid ev a Sweep.kw_beam_mi d).
    assert (∀ ev, res (Sweep.run_sweep ev a "rerank" d)
                  = res (grid ev a Sweep.kw_rerank d)) as -> by done.
    assert (∀ ev, trace (Sweep.run_sweep ev a "rerank" d)
                  = trace (grid ev a Sweep.kw_rerank d)) as -> by done.
    rewrite Hb1, Hb2, Hr1, Hr2. repeat (split; [done|]).
    intros i j b t Hi Hj.
    change (map ?f ?l) with (f <$> l). rewrite !list_lookup_fmap.
    by rewrite (list_prod_lookup bs ts i j b t Hi Hj).
  - intros a bs Hbs. unfold Sweep.beam_sizes in Hbs. split; [|split].
    + intros i b Hb. by destruct (arange_int_lookup _ _ _ _ _ _ Hbs Hb) as (_ & -> & _).
    + intros Hin. apply list_elem_of_In, list_elem_of_lookup in Hin as [i Hi].
      destruct (arange_int_lookup _ _ _ _ _ _ Hbs Hi) as (Hstep & Heq & Hlt).
      destruct (Z.lt_trichotomy (Sweep.beam_size_step a) 0) as [Hneg|[?|Hpos]];
        [|done|].
      * pose proof (ceil_div_below _ _ _ Hneg Hlt). lia.
      * pose proof (ceil_div_above _ _ _ Hpos Hlt). lia.
    + intros Hpos. apply Forall_forall. intros b Hin.
      apply list_elem_of_lookup in Hin as [i Hi].
      destruct (arange_int_lookup _ _ _ _ _ _ Hbs Hi) as (Hstep & Heq & Hlt).
      pose proof (ceil_div_above _ _ _ Hpos Hlt). nia.
  - intros a ts. unfold Sweep.temperatures, Numpy.arange_float.
    destruct (PrimFloat.eqb _ _); [done|].
    destruct (Numpy.float_ceil _) as [e|n]; [done|].
    intros [= <-]. split.
    + intros t. destruct (Z.to_nat n) as [|k]; cbn; [done|]. by intros [= <-].
    + exists n. split; [done|]. by rewrite length_map, length_seq.
  - apply main_keys.
Qed.

(** C4 as stated fails on the temperatures: with
    [--mi-temperature-min 1 --mi-temperature-max 1.3 --mi-temperature-step .1]
    the quotient [(1.3 - 1) / .1] is [3.0000000000000004] in float64, so the
    range has four values and the last one lies above the max; the
    ['rerank'] sweep evaluates with it. *)
Lemma temperature_range_passes_its_max :
  let a := Sample.rerank_args in
  let ev := Sweep.evaluate Sample.sweep_lv a
              (py_in Sweep.SCORE_BERT_SCORE (Sweep.scores a)) false in
  ((Sweep.mi_temperature_max a - Sweep.mi_temperature_min a)
   / Sweep.mi_temperature_step a)%float = 3.0000000000000004%float
  ∧ Sweep.temperatures a
    = inr [1; 1.1; 1.2000000000000002; 1.3000000000000003]%float
  ∧ PrimFloat.ltb (Sweep.mi_temperature_max a) 1.3000000000000003 = true
  ∧ calls_of (trace (Sweep.run_sweep ev a "rerank" ∅))
    = [Sweep.kw_rerank 5 1; Sweep.kw_rerank 5 1.1;
       Sweep.kw_rerank 5 1.2000000000000002;
       Sweep.kw_rerank 5 1.3000000000000003]%float.
Proof. vm_compute. repeat split. Qed.

(** The nest on a complete run of the sample: three conditions, two random
    trials, fractions 0 and 0.5. *)
Lemma trial_nest_of_sample_run :
  map trial_key
      (trials_of (trace (Cert.main Sample.cert_lv Sample.cert_args ∅)))
  = trial_nest Sample.cert_args [0; 0.5]%float.
Proof.
  apply (proj2 (proj2 (proj2 sweep_pairs_and_trial_nest))); vm_compute; reflexivity.
Defined.

(** ** Candidate units *)

Lemma append_cons (c : ascii) (s t : string) :
  String.append (String c s) t = String c (String.append s t).
Proof. reflexivity. Qed.

Lemma prefix_occurs (w s : string) :
  String.prefix w s = true ↔ ∃ after, s = String.append w after.
Proof.
  revert s. induction w as [|c w IH]; intros s.
  - split; [|by destruct s]. intros _. by exists s.
  - destruct s as [|b s]; cbn [String.prefix].
    + split; [done|]. by intros [after Heq].
    + destruct (ascii_dec c b) as [<-|Hne].
      * rewrite IH. split.
        -- intros [after ->]. by exists after.
        -- intros [after Heq]. rewrite append_cons in Heq. exists after. congruence.
      * split; [done|]. intros [after Heq]. rewrite append_cons in Heq. congruence.
Qed.

Lemma contains_unfold (w s : string) :
  Str.contains w s =
  (String.prefix w s ||
   match s with
   | EmptyString => false
   | String _ s' => Str.contains w s'
   end)%bool.
Proof. by destruct s. Qed.

(** [w in s] is true exactly when [w] occurs in [s]. *)
Lemma contains_occurs (w s : string) : Str.contains w s = true ↔ occurs_in w s.
Proof.
  unfold occurs_in. induction s as [|c s IH]; rewrite contains_unfold.
  - rewrite orb_false_r, prefix_occurs. split.
    + intros [after ->]. by exists EmptyString, after.
    + intros (before & after & Heq). destruct before as [|b before].
      * by exists after.
      * by rewrite append_cons in Heq.
  - rewrite orb_true_iff, prefix_occurs, IH. split.
    + intros [[after ->]|(before & after & ->)].
      * by exists EmptyString, after.
      * by exists (String c before), after.
    + intros (before & after & Heq). destruct before as [|b before].
      * left. by exists after.
      * right. rewrite append_cons in Heq. exists before, after. congruence.
Qed.

Lemma candidates_from (words : list string) (l : list string) :
  ∀ k : nat,
    map fst
        (List.filter (λ ic : nat * string, names_target words ic.2)
                     (imap (λ index caption, ((k + index)%nat, caption)) l))
    = List.filter
        (λ i, match l !! (i - k)%nat with
              | Some caption => names_target words caption
              | None => false
              end)
        (seq k (length l)).
Proof.
  induction l as [|x l IH]; intros k; [done|].
  rewrite imap_cons. cbn [List.filter length seq].
  replace (k - k)%nat with O by lia. cbn [lookup list_lookup].
  replace (k + 0)%nat with k by lia.
  rewrite (imap_ext _ (λ index caption, ((S k + index)%nat, caption)));
    [|intros; cbn; f_equal; lia].
  change ((k, x).2) with x.
  assert (List.filter
            (λ i, match (x :: l) !! (i - k)%nat with
                  | Some caption => names_target words caption
                  | None => false
                  end) (seq (S k) (length l))
          = List.filter
              (λ i, match l !! (i - S k)%nat with
                    | Some caption => names_target words caption
                    | None => false
                    end) (seq (S k) (length l))) as ->.
  { apply filter_ext_in. intros i Hi%in_seq.
    replace (i - k)%nat with (S (i - S k)) by lia. done. }
  destruct (names_target words x); cbn [map fst]; by rewrite IH.
Qed.

Lemma candidate_indices_filter (words captions : list string) :
  Cert.candidate_indices words captions
  = List.filter
      (λ i, match captions !! i with
            | Some caption => names_target words caption
            | None => false
            end)
      (seq 0 (length captions)).
Proof.
  unfold Cert.candidate_indices.
  transitivity
    (map fst
       (List.filter (λ ic : nat * string, names_target words ic.2)
          (imap (λ index caption, ((0 + index)%nat, caption)) captions)));
    [reflexivity|].
  rewrite (candidates_from words captions 0).
  apply filter_ext_in. intros i _. by replace (i - 0)%nat with i by lia.
Qed.

Lemma names_target_spec (words : list string) (caption : string) :
  names_target words caption = true
  ↔ ∃ word, In word words ∧ occurs_in word (Str.lower caption).
Proof.
  unfold names_target. rewrite existsb_exists.
  split; intros (word & Hin & Hw); exists word; by rewrite contains_occurs in *.
Qed.

Lemma candidate_indices_spec (words captions : list string) (i : nat) :
  In i (Cert.candidate_indices words captions)
  ↔ ∃ caption word,
      captions !! i = Some caption ∧ In word words
      ∧ occurs_in word (Str.lower caption).
Proof.
  rewrite candidate_indices_filter, filter_In, in_seq. split.
  - intros [_ Hi]. destruct (captions !! i) as [caption|]; [|done].
    apply names_target_spec in Hi as (word & ? & ?). eauto.
  - intros (caption & word & Hc & Hw & Ho). rewrite Hc. split.
    + apply lookup_lt_Some in Hc. lia.
    + apply names_target_spec. eauto.
Qed.

(** C5.  For the spurious-text experiment the target words are ['word'],
    ['text'] and ['letter'], for the spurious-color experiment the ten
    colors, and any other experiment fails the assertion.  The candidate
    units are the indices of the captions, in increasing order and each
    once, whose lowercased text contains at least one target word: an index
    is a candidate exactly when its caption, lowercased, has a target word
    somewhere in it. *)
Theorem candidates_name_a_target_word (l : Cert.lv)
    (Hkeys : Cert.KEY_SPURIOUS_IMAGENET_TEXT l ≠ Cert.KEY_SPURIOUS_IMAGENET_COLOR l) :
  (∀ d, res (Cert.target_words l (Cert.KEY_SPURIOUS_IMAGENET_TEXT l) d)
        = inr ["word"; "text"; "letter"]) ∧
  (∀ d, res (Cert.target_words l (Cert.KEY_SPURIOUS_IMAGENET_COLOR l) d)
        = inr ["red"; "yellow"; "green"; "blue"; "cyan"; "purple"; "brown";
               "black"; "white"; "gray"]) ∧
  (∀ experiment d,
     ¬ In experiment (Cert.EXPERIMENTS l) →
     res (Cert.target_words l experiment d) = inl AssertionError) ∧
  (∀ words captions,
     Cert.candidate_indices words captions
     = List.filter
         (λ i, match captions !! i with
               | Some caption =>
                   existsb (λ word, Str.contains word (Str.lower caption)) words
               | None => false
               end)
         (seq 0 (length captions))) ∧
  (∀ words captions i,
     In i (Cert.candidate_indices words captions)
     ↔ ∃ caption word,
         captions !! i = Some caption ∧ In word words
         ∧ occurs_in word (Str.lower caption)) ∧
  (∀ words captions, List.NoDup (Cert.candidate_indices words captions)).
Proof.
  split; [|split; [|split; [|split; [|split]]]].
  - intros d. unfold Cert.target_words. by rewrite String.eqb_refl.
  - intros d. unfold Cert.target_words.
    destruct (String.eqb_spec (Cert.KEY_SPURIOUS_IMAGENET_COLOR l)
                              (Cert.KEY_SPURIOUS_IMAGENET_TEXT l)) as [Heq|_];
      [by destruct Hkeys|].
    by rewrite String.eqb_refl.
  - intros experiment d Hnot. unfold Cert.target_words, Cert.EXPERIMENTS in *.
    destruct (String.eqb_spec experiment (Cert.KEY_SPURIOUS_IMAGENET_TEXT l))
      as [->|_]; [destruct Hnot; by left|].
    destruct (String.eqb_spec experiment (Cert.KEY_SPURIOUS_IMAGENET_COLOR l))
      as [->|_]; [destruct Hnot; right; by left|].
    done.
  - apply candidate_indices_filter.
  - apply candidate_indices_spec.
  - intros words captions. rewrite candidate_indices_filter.
    apply List.NoDup_filter, NoDup_ListNoDup, NoDup_seq.
Qed.

(** The text experiment of the sample: units 0, 2 and 3 name a target word. *)
Lemma candidates_of_sample :
  res (Cert.target_words Sample.cert_lv "spurious-imagenet-text" ∅)
  = inr ["word"; "text"; "letter"]
  ∧ Cert.candidate_indices ["word"; "text"; "letter"]
      ["Red text"; "a dog"; "LETTERS"; "the word"] = [0; 2; 3]%nat.
Proof.
  split.
  - apply (proj1 (candidates_name_a_target_word Sample.cert_lv ltac:(done))).
  - reflexivity.
Defined.

(** ** The captions file *)

Lemma has_char_cons (c a : ascii) (s : string) :
  Str.has_char c (String a s) = (Ascii.eqb a c || Str.has_char c s)%bool.
Proof. reflexivity. Qed.

Lemma has_char_app (c : ascii) (s t : string) :
  Str.has_char c (String.append s t) = (Str.has_char c s || Str.has_char c t)%bool.
Proof.
  induction s as [|a s IH]; [done|].
  rewrite append_cons, !has_char_cons, IH. by rewrite orb_assoc.
Qed.

Lemma universal_newlines_cons (a : ascii) (s : string) :
  Ascii.eqb a Str.CR = false →
  Str.universal_newlines (String a s) = String a (Str.universal_newlines s).
Proof. intros Ha. cbn [Str.universal_newlines]. by rewrite Ha. Qed.

(** Text without a carriage return is read back as it was written. *)
Lemma universal_newlines_plain (s : string) :
  Str.has_char Str.CR s = false → Str.universal_newlines s = s.
Proof.
  induction s as [|a s IH]; [done|].
  rewrite has_char_cons. intros [Ha Hs]%orb_false_iff.
  by rewrite universal_newlines_cons, IH.
Qed.

Lemma split_cons (c a : ascii) (s : string) :
  Str.split c (String a s) =
  if Ascii.eqb a c then EmptyString :: Str.split c s
  else match Str.split c s with
       | h :: t => String a h :: t
       | [] => [String a EmptyString]
       end.
Proof. reflexivity. Qed.

Lemma split_plain (c : ascii) (s : string) :
  Str.has_char c s = false → Str.split c s = [s].
Proof.
  induction s as [|a s IH]; [done|].
  rewrite has_char_cons. intros [Ha Hs]%orb_false_iff.
  by rewrite split_cons, Ha, IH.
Qed.

Lemma split_at_separator (c : ascii) (s t : string) :
  Str.has_char c s = false →
  Str.split c (String.append s (String c t)) = s :: Str.split c t.
Proof.
  induction s as [|a s IH].
  - intros _. change (String.append EmptyString (String c t)) with (String c t).
    by rewrite split_cons, Ascii.eqb_refl.
  - rewrite has_char_cons. intros [Ha Hs]%orb_false_iff.
    by rewrite append_cons, split_cons, Ha, IH.
Qed.

Lemma join_cons (sep x y : string) (rest : list string) :
  Str.join sep (x :: y :: rest)
  = String.append x (String.append sep (Str.join sep (y :: rest))).
Proof. reflexivity. Qed.

Lemma has_char_join (c : ascii) (sep : string) (l : list string) :
  Str.has_char c sep = false → Forall (λ x, Str.has_char c x = false) l →
  Str.has_char c (Str.join sep l) = false.
Proof.
  intros Hsep. induction 1 as [|x l Hx Hl IH]; [done|].
  destruct l as [|y l]; [done|].
  by rewrite join_cons, !has_char_app, Hx, Hsep, IH.
Qed.

Lemma split_join (captions : list string) :
  captions ≠ [] → Forall (λ c, Str.has_char Str.LF c = false) captions →
  Str.split Str.LF (Str.join Cert.newline captions) = captions.
Proof.
  intros Hne Hall. induction Hall as [|x l Hx Hl IH]; [done|].
  destruct l as [|y l].
  - by apply split_plain.
  - rewrite join_cons.
    change (String.append Cert.newline ?s) with (String Str.LF s).
    rewrite split_at_separator by done. f_equal. by apply IH.
Qed.

Lemma round_trip (captions : list string) :
  captions ≠ [] →
  Forall (λ c, Str.has_char Str.LF c = false ∧ Str.has_char Str.CR c = false)
         captions →
  Str.split Str.LF (Str.universal_newlines (Str.join Cert.newline captions))
  = captions.
Proof.
  intros Hne Hall. apply Forall_and in Hall as [Hlf Hcr].
  rewrite universal_newlines_plain; [by apply split_join|].
  by apply has_char_join.
Qed.

(** C10, as the code has it.  Writing ['\n'.join(captions)] and reading it
    back with [read().split('\n')] gives the captions again when the list
    is not empty and no caption contains a line feed or a carriage return
    (which a text-mode read hands back as a line feed).  So a run that
    predicts such captions, one per dissected unit, into an existing
    experiment directory leaves a file from which the next run loads the
    same captions, passing [assert len(captions) == len(dissected)]. *)
Theorem captions_round_trip (l : Cert.lv) (a : Cert.args) (experiment : string)
    (ed : path) (version : string) (d : disk) :
  let captions := Cert.decoder_predict l experiment version in
  let first_run := Cert.load_or_predict_captions l a experiment ed version d in
  let next_run :=
    Cert.load_or_predict_captions l a experiment ed version (final first_run) in
  captions ≠ [] →
  Forall (λ c, Str.has_char Str.LF c = false ∧ Str.has_char Str.CR c = false)
         captions →
  Str.split Str.LF (Str.universal_newlines (Str.join Cert.newline captions))
  = captions
  ∧ (length captions = Cert.n_units l experiment version →
     exists_ d (Cert.captions_file a ed version) = false →
     is_dir d ed = true →
     res first_run = inr captions
     ∧ trace next_run = [EvReadText (Cert.captions_file a ed version)]
     ∧ res next_run = inr captions).
Proof.
  cbv zeta. intros Hne Hall.
  pose proof (round_trip _ Hne Hall) as Hrt. split; [done|].
  intros Hlen Hex Hed. rewrite !load_or_predict_captions_run. cbv zeta.
  rewrite Hex. unfold Cert.captions_file in *.
  rewrite write_fresh_child by done. cbn [final res].
  unfold exists_, read_text.
  rewrite !lookup_is_node_at by apply child_not_root.
  rewrite lookup_insert_eq, Hrt, Hlen, Nat.eqb_refl. done.
Qed.

(** The sample's four captions written to a fresh disk and read back. *)
Lemma captions_of_sample_round_trip :
  let run := Cert.load_or_predict_captions Sample.cert_lv Sample.cert_args
               "spurious-imagenet-text" Sample.experiment_dir "50pct" in
  Str.split Str.LF
    (Str.universal_newlines
       (Str.join Cert.newline ["Red text"; "a dog"; "LETTERS"; "the word"]))
  = ["Red text"; "a dog"; "LETTERS"; "the word"]
  ∧ res (run (final (run Sample.fresh_disk)))
    = inr ["Red text"; "a dog"; "LETTERS"; "the word"].
Proof.
  cbv zeta.
  destruct (captions_round_trip Sample.cert_lv Sample.cert_args
              "spurious-imagenet-text" Sample.experiment_dir "50pct"
              Sample.fresh_disk) as [Hrt Hrun].
  - done.
  - repeat constructor.
  - split; [exact Hrt|].
    destruct Hrun as (_ & _ & Hnext); [reflexivity|reflexivity|reflexivity|].
    exact Hnext.
Defined.

(** C10 as stated fails on the empty list, which has no caption with a
    newline: nothing is written, and the empty text splits into one empty
    caption, so on a network with no unit the reload fails the length
    assertion.  And a carriage return inside a caption comes back as a line
    break, so one caption is reloaded as two. *)
Lemma empty_captions_do_not_round_trip :
  let run := Cert.load_or_predict_captions Sample.empty_cert_lv Sample.cert_args
               "spurious-imagenet-text" Sample.experiment_dir "50pct" in
  let a_cr_b := String "a" (String Str.CR (String "b" EmptyString)) in
  Str.join Cert.newline [] = EmptyString
  ∧ Str.split Str.LF (Str.universal_newlines (Str.join Cert.newline []))
    = [EmptyString]
  ∧ res (run Sample.fresh_disk) = inr []
  ∧ res (run (final (run Sample.fresh_disk))) = inl AssertionError
  ∧ Str.has_char Str.LF a_cr_b = false
  ∧ Str.split Str.LF (Str.universal_newlines (Str.join Cert.newline [a_cr_b]))
    = ["a"; "b"].
Proof. vm_compute. repeat split. Qed.

(** ** Rounding to the nearest integer, ties to even *)



Lemma rne_bounds (m n : Z) :
  0 ≤ n → m / 2 ^ n ≤ rne m n ≤ m / 2 ^ n + 1.
Proof.
  intros Hn. unfold rne. cbv zeta.
  destruct (2 * (m mod 2 ^ n) ?= 2 ^ n); [destruct (Z.even _)|..]; lia.
Qed.

Lemma rne_of_parts (m n q r : Z) :
  0 ≤ n → m = q * 2 ^ n + r → 0 ≤ r < 2 ^ n →
  rne m n = match 2 * r ?= 2 ^ n with
            | Lt => q
            | Eq => if Z.even q then q else q + 1
            | Gt => q + 1
            end.
Proof.
  intros Hn Hm Hr. unfold rne. cbv zeta.
  assert (m / 2 ^ n = q) as ->.
  { symmetry. apply (Z.div_unique_pos m (2 ^ n) q r); lia. }
  assert (m mod 2 ^ n = r) as ->.
  { symmetry. apply (Z.mod_unique_pos m (2 ^ n) q r); lia. }
  done.
Qed.

Lemma rne_exact (N n : Z) : 0 ≤ n → rne (N * 2 ^ n) n = N.
Proof.
  intros Hn. assert (0 < 2 ^ n) by (apply Z.pow_pos_nonneg; lia).
  rewrite (rne_of_parts (N * 2 ^ n) n N 0) by lia.
  destruct (Z.compare_spec (2 * 0) (2 ^ n)); lia.
Qed.

Lemma rne_mono (m1 m2 n : Z) : 0 ≤ n → m1 ≤ m2 → rne m1 n ≤ rne m2 n.
Proof.
  intros Hn Hm. assert (0 < 2 ^ n) as Hp by (apply Z.pow_pos_nonneg; lia).
  pose proof (Z.div_mod m1 (2 ^ n) ltac:(lia)) as H1.
  pose proof (Z.div_mod m2 (2 ^ n) ltac:(lia)) as H2.
  pose proof (Z.mod_pos_bound m1 (2 ^ n) Hp) as B1.
  pose proof (Z.mod_pos_bound m2 (2 ^ n) Hp) as B2.
  pose proof (Z.div_le_mono m1 m2 (2 ^ n) Hp Hm) as Hq.
  pose proof (rne_bounds m1 n Hn). pose proof (rne_bounds m2 n Hn).
  destruct (Z.eq_dec (m1 / 2 ^ n) (m2 / 2 ^ n)) as [Heq|Hne]; [|lia].
  assert (m1 mod 2 ^ n ≤ m2 mod 2 ^ n) as Hr by nia.
  unfold rne. cbv zeta. rewrite Heq.
  destruct (Z.compare_spec (2 * (m1 mod 2 ^ n)) (2 ^ n)),
           (Z.compare_spec (2 * (m2 mod 2 ^ n)) (2 ^ n));
    destruct (Z.even (m2 / 2 ^ n)); lia.
Qed.

Lemma rne_scale (m n k : Z) :
  0 ≤ n → 0 ≤ k → rne (m * 2 ^ k) (n + k) = rne m n.
Proof.
  intros Hn Hk. assert (0 < 2 ^ n) as Hp by (apply Z.pow_pos_nonneg; lia).
  assert (0 < 2 ^ k) as Hpk by (apply Z.pow_pos_nonneg; lia).
  pose proof (Z.div_mod m (2 ^ n) ltac:(lia)) as H1.
  pose proof (Z.mod_pos_bound m (2 ^ n) Hp) as B1.
  rewrite (rne_of_parts (m * 2 ^ k) (n + k) (m / 2 ^ n) (m mod 2 ^ n * 2 ^ k));
    rewrite ?Z.pow_add_r by lia; [|lia|nia|nia].
  unfold rne. cbv zeta.
  destruct (Z.compare_spec (2 * (m mod 2 ^ n)) (2 ^ n)),
           (Z.compare_spec (2 * (m mod 2 ^ n * 2 ^ k)) (2 ^ n * 2 ^ k));
    try done; nia.
Qed.

Lemma rne_nonneg (m n : Z) : 0 ≤ n → 0 ≤ m → 0 ≤ rne m n.
Proof.
  intros Hn Hm. pose proof (rne_bounds m n Hn).
  assert (0 ≤ m / 2 ^ n) by (apply Z.div_pos; [lia|apply Z.pow_pos_nonneg; lia]).
  lia.
Qed.

Lemma rnd_exp_mono (c X Y : Z) : X ≤ Y → rnd_exp c X ≤ rnd_exp c Y.
Proof.
  intros H. unfold rnd_exp. pose proof (Z.log2_le_mono X Y H). lia.
Qed.

(** Rounding keeps the order of the values. *)
Lemma rnd_mono (c X Y : Z) : 0 ≤ c → 0 < X → X ≤ Y → rnd c X ≤ rnd c Y.
Proof.
  intros Hc HX HXY. pose proof (rnd_exp_mono c X Y HXY) as Ht.
  assert (0 ≤ rnd_exp c X) as HtX by (unfold rnd_exp; lia).
  unfold rnd. destruct (Z.eq_dec (rnd_exp c X) (rnd_exp c Y)) as [<-|Hne].
  - apply Z.mul_le_mono_nonneg_r; [apply Z.pow_nonneg; lia|by apply rne_mono].
  - pose proof (Z.log2_spec X HX) as [_ HuX].
    pose proof (Z.log2_spec Y ltac:(lia)) as [HlY _].
    pose proof (Z.log2_nonneg X). pose proof (Z.log2_nonneg Y).
    set (tX := rnd_exp c X) in *. set (tY := rnd_exp c Y) in *.
    assert (tY = Z.log2 Y + 1 - prec) as HtY by (unfold tX, tY, rnd_exp in *; lia).
    assert (Z.log2 X + 1 - prec ≤ tX) as HtX' by (unfold tX, rnd_exp; lia).
    unfold prec in *.
    assert (Z.log2 X + 1 ≤ Z.log2 Y) as Hlog by lia.
    assert (2 ^ Z.succ (Z.log2 X) ≤ 2 ^ Z.log2 Y) as Hpow
      by (apply Z.pow_le_mono_r; lia).
    transitivity (2 ^ Z.log2 Y).
    + replace (2 ^ Z.log2 Y) with (2 ^ (Z.log2 Y - tX) * 2 ^ tX)
        by (rewrite <- Z.pow_add_r by lia; f_equal; lia).
      apply Z.mul_le_mono_nonneg_r; [apply Z.pow_nonneg; lia|].
      rewrite <- (rne_exact (2 ^ (Z.log2 Y - tX)) tX) by lia.
      apply rne_mono; [lia|].
      rewrite <- Z.pow_add_r by lia. replace (Z.log2 Y - tX + tX) with (Z.log2 Y) by lia.
      lia.
    + replace (2 ^ Z.log2 Y) with (2 ^ 52 * 2 ^ tY)
        by (rewrite <- Z.pow_add_r by lia; f_equal; lia).
      apply Z.mul_le_mono_nonneg_r; [apply Z.pow_nonneg; lia|].
      rewrite <- (rne_exact (2 ^ 52) tY) at 1 by lia.
      apply rne_mono; [lia|].
      rewrite <- Z.pow_add_r by lia. replace (52 + tY) with (Z.log2 Y) by lia.
      lia.
Qed.

(** ** The shift of [SpecFloat] and what it remembers of the bits it drops *)


Lemma iter_pos_nat {A : Type} (f : A → A) (p : positive) (x : A) :
  SpecFloat.iter_pos f p x = Nat.iter (Pos.to_nat p) f x.
Proof.
  revert x. induction p as [p IH|p IH|]; intros x; cbn [SpecFloat.iter_pos].
  - rewrite !IH, Pos2Nat.inj_xI.
    replace (S (2 * Pos.to_nat p)) with (Pos.to_nat p + (Pos.to_nat p + 1))%nat by lia.
    by rewrite !Nat.iter_add.
  - rewrite !IH, Pos2Nat.inj_xO.
    replace (2 * Pos.to_nat p)%nat with (Pos.to_nat p + Pos.to_nat p)%nat by lia.
    by rewrite Nat.iter_add.
  - done.
Qed.

Lemma shr_1_parts (q : Z) (r s : bool) :
  0 ≤ q →
  shr_1 {| shr_m := q; shr_r := r; shr_s := s |}
  = {| shr_m := q / 2; shr_r := Z.odd q; shr_s := r || s |}.
Proof.
  intros Hq. destruct q as [|[p|p|]|p]; try done; cbn [shr_1 Z.odd]; f_equal.
  - rewrite Pos2Z.inj_xI. apply (Z.div_unique_pos _ 2 _ 1); lia.
  - rewrite Pos2Z.inj_xO. apply (Z.div_unique_pos _ 2 _ 0); lia.
Qed.

Lemma shifted_start (m : Z) :
  0 ≤ m → shifted m 0 {| shr_m := m; shr_r := false; shr_s := false |}.
Proof. intros Hm. exists 0. cbn. split_and!; try lia; split; try done; lia. Qed.

Lemma shifted_step (m k : Z) (mrs : shr_record) :
  0 ≤ k → shifted m k mrs → shifted m (k + 1) (shr_1 mrs).
Proof.
  intros Hk (r & Hq & Hm & Hr & Hrb & Hsb). destruct mrs as [q rb sb]. cbn [shr_m shr_r shr_s] in *.
  rewrite shr_1_parts by done. unfold shifted. cbn [shr_m shr_r shr_s].
  assert (0 < 2 ^ k) as Hp by (apply Z.pow_pos_nonneg; lia).
  rewrite Z.pow_add_r, Z.pow_1_r by lia.
  pose proof (Z.div_mod q 2 ltac:(lia)) as Hdiv.
  pose proof (Z.mod_pos_bound q 2 ltac:(lia)) as Hmod.
  assert (0 ≤ q / 2) as Hq2 by (apply Z.div_pos; lia).
  exists (r + q mod 2 * 2 ^ k). rewrite orb_true_iff, Hrb, Hsb.
  rewrite Zmod_odd in *. destruct (Z.odd q).
  - split_and!; try nia; try (split; [nia|done]).
  - split_and!; try nia; try (split; [done|nia]).
Qed.

Lemma shifted_iter (m : Z) (n : nat) :
  0 ≤ m →
  shifted m (Z.of_nat n)
          (Nat.iter n shr_1 {| shr_m := m; shr_r := false; shr_s := false |}).
Proof.
  intros Hm. induction n as [|n IH]; [by apply shifted_start|].
  rewrite Nat2Z.inj_succ, <- Z.add_1_r. cbn [Nat.iter].
  apply shifted_step; [lia|done].
Qed.

(** After the shift, rounding to nearest even is [rne]. *)
Lemma round_shifted (m k : Z) (mrs : shr_record) :
  0 ≤ k → shifted m k mrs →
  round_nearest_even (shr_m mrs) (loc_of_shr_record mrs) = rne m k.
Proof.
  intros Hk (r & Hq & Hm & Hr & Hrb & Hsb). destruct mrs as [q rb sb]. cbn [shr_m shr_r shr_s] in *.
  rewrite (rne_of_parts m k q r) by done.
  destruct (Z.compare_spec (2 * r) (2 ^ k)) as [He|Hl|Hg];
    destruct rb, sb; cbn [round_nearest_even]; try done; lia.
Qed.

(** [shr_fexp] on an exact positive mantissa. *)
Lemma shr_fexp_exact (m e : Z) :
  0 ≤ m →
  let t := fexp prec emax (Zdigits2 m + e) in
  ∃ mrs, shr_fexp prec emax m e loc_Exact = (mrs, Z.max e t)
         ∧ shifted m (Z.max e t - e) mrs.
Proof.
  intros Hm t. unfold shr_fexp. fold t. cbn [shr_record_of_loc].
  destruct (t - e) as [|p|p] eqn:Hd; cbn [shr].
  - eexists. split; [f_equal; lia|].
    replace (Z.max e t - e) with 0 by lia. by apply shifted_start.
  - rewrite iter_pos_nat. eexists. split; [f_equal; lia|].
    replace (Z.max e t - e) with (Z.of_nat (Pos.to_nat p)) by lia.
    by apply shifted_iter.
  - eexists. split; [f_equal; lia|].
    replace (Z.max e t - e) with 0 by lia. by apply shifted_start.
Qed.

(** ** What [binary_round_aux] returns *)


Lemma digits2_size (m : positive) : digits2_pos m = Pos.size m.
Proof. induction m as [m IH|m IH|]; cbn; by rewrite ?IH. Qed.

Lemma Zdigits2_log2 (m : Z) : 0 < m → Zdigits2 m = Z.log2 m + 1.
Proof.
  intros Hm. destruct m as [|m|m]; [lia| |lia].
  cbn [Zdigits2]. rewrite digits2_size.
  destruct m as [m|m|]; cbn [Z.log2 Pos.size]; lia.
Qed.

Lemma fexp_unfold (z : Z) : fexp prec emax z = Z.max (z - 53) (-1074).
Proof. reflexivity. Qed.

Lemma pow2_pos (n : Z) : 0 ≤ n → 0 < 2 ^ n.
Proof. intros. apply Z.pow_pos_nonneg; lia. Qed.

(** The exponent the product is rounded at, in terms of its value. *)
Lemma rnd_exp_scaled (m e B : Z) :
  0 < m → B ≤ e →
  rnd_exp (-1074 - B) (m * 2 ^ (e - B)) = fexp prec emax (Zdigits2 m + e) - B.
Proof.
  intros Hm HB. unfold rnd_exp. rewrite fexp_unfold, Zdigits2_log2 by done.
  rewrite Z.log2_mul_pow2 by lia. unfold prec. lia.
Qed.

(** The second shift of [binary_round_aux] drops no set bit: it happens
    only when rounding has carried into a new bit. *)
Lemma second_shift_exact (m2 e' : Z) (mrs : shr_record) (k : Z) :
  0 ≤ m2 ≤ 2 ^ 53 → -1074 ≤ e' →
  k = Z.max e' (fexp prec emax (Zdigits2 m2 + e')) - e' →
  shifted m2 k mrs →
  0 ≤ k ∧ 0 ≤ shr_m mrs ∧ shr_m mrs * 2 ^ k = m2.
Proof.
  intros Hm He Hk (r & Hq & Heq & Hr & _). rewrite fexp_unfold in Hk.
  destruct (Z.eq_dec m2 0) as [->|H0].
  - cbn [Zdigits2] in Hk. assert (k = 0) as -> by lia. cbn in *. lia.
  - rewrite Zdigits2_log2 in Hk by lia.
    destruct (Z.eq_dec m2 (2 ^ 53)) as [H53|H53].
    + rewrite H53 in Hk. rewrite Z.log2_pow2 in Hk by lia.
      assert (k = 1) as -> by lia. rewrite H53 in Heq.
      change (2 ^ 53) with 9007199254740992 in Heq. cbn in Hr. lia.
    + assert (Z.log2 m2 < 53) as Hlog.
      { apply Z.log2_lt_pow2; lia. }
      assert (k = 0) as -> by lia. cbn in *. lia.
Qed.

Lemma binary_round_aux_value (m e B : Z) :
  0 < m → B ≤ e → B ≤ -1074 →
  rounds_to B (rnd (-1074 - B) (m * 2 ^ (e - B)))
            (binary_round_aux prec emax false m e loc_Exact).
Proof.
  intros Hm HBe HB. unfold rnd. rewrite rnd_exp_scaled by done.
  unfold binary_round_aux.
  destruct (shr_fexp_exact m e ltac:(lia)) as (mrs & -> & Hsh).
  remember (fexp prec emax (Zdigits2 m + e)) as t eqn:Et.
  assert (-1074 ≤ t) as Ht by (rewrite Et, fexp_unfold; lia).
  assert (Zdigits2 m + e - 53 ≤ t) as Ht' by (rewrite Et, fexp_unfold; lia).
  rewrite (round_shifted _ (Z.max e t - e) _ ltac:(lia) Hsh).
  set (m2 := rne m (Z.max e t - e)).
  (* the rounded mantissa, at the exponent [Z.max e t] *)
  assert (0 ≤ m2 ∧ (e < t → m2 ≤ 2 ^ 53)
          ∧ m2 * 2 ^ (Z.max e t - B) = rne (m * 2 ^ (e - B)) (t - B) * 2 ^ (t - B)
          ∧ (t ≤ e → m2 = m)) as (Hm2 & Hcarry & Hval & Hsame).
  { split_and!.
    - apply rne_nonneg; lia.
    - intros Hlt. pose proof (rne_bounds m (Z.max e t - e) ltac:(lia)) as [_ Hu].
      fold m2 in Hu. replace (Z.max e t - e) with (t - e) in Hu by lia.
      assert (m < 2 ^ (t - e) * 2 ^ 53) as Hlt2.
      { rewrite <- Z.pow_add_r by lia. rewrite Zdigits2_log2 in Ht' by done.
        apply Z.log2_lt_pow2; lia. }
      pose proof (Z.div_lt_upper_bound m (2 ^ (t - e)) (2 ^ 53)
                    (pow2_pos (t - e) ltac:(lia)) Hlt2). lia.
    - destruct (Z.le_gt_cases t e) as [Hle|Hlt].
      + unfold m2. replace (Z.max e t - e) with 0 by lia.
        replace (Z.max e t) with e by lia.
        rewrite <- (Z.mul_1_r m) at 1. change 1 with (2 ^ 0) at 1.
        rewrite rne_exact by lia.
        replace (m * 2 ^ (e - B)) with (m * 2 ^ (e - t) * 2 ^ (t - B)).
        * by rewrite rne_exact by lia.
        * rewrite <- Z.mul_assoc, <- Z.pow_add_r by lia. do 2 f_equal. lia.
      + unfold m2. replace (Z.max e t - e) with (t - e) by lia.
        replace (Z.max e t) with t by lia.
        rewrite <- (rne_scale m (t - e) (e - B)) by lia.
        by replace (t - e + (e - B)) with (t - B) by lia.
    - intros Hle. unfold m2. replace (Z.max e t - e) with 0 by lia.
      rewrite <- (Z.mul_1_r m) at 1. change 1 with (2 ^ 0) at 1.
      by rewrite rne_exact by lia. }
  clearbody m2.
  destruct (shr_fexp_exact m2 (Z.max e t) Hm2) as (mrs2 & -> & Hsh2).
  remember (Z.max (Z.max e t) (fexp prec emax (Zdigits2 m2 + Z.max e t))) as e2 eqn:Ee2.
  assert (0 ≤ e2 - Z.max e t ∧ 0 ≤ shr_m mrs2
          ∧ shr_m mrs2 * 2 ^ (e2 - Z.max e t) = m2) as (Hk & Hq & Hexact).
  { destruct (Z.le_gt_cases t e) as [Hle|Hlt].
    - (* no rounding: the mantissa is unchanged, and so is its exponent *)
      destruct Hsh2 as (r & Hq & Heq & Hr & _).
      assert (e2 = e) as He2.
      { rewrite Ee2, (Hsame Hle). replace (Z.max e t) with e by lia.
        rewrite <- Et. lia. }
      rewrite He2 in *. replace (e - Z.max e t) with 0 in * by lia.
      cbn in *. lia.
    - eapply second_shift_exact; [| |by rewrite Ee2|exact Hsh2]; [|lia].
      split; [done|by apply Hcarry]. }
  assert (shr_m mrs2 * 2 ^ (e2 - B)
          = rne (m * 2 ^ (e - B)) (t - B) * 2 ^ (t - B)) as Hfinal.
  { rewrite <- Hval, <- Hexact, <- Z.mul_assoc, <- Z.pow_add_r by lia.
    do 2 f_equal. lia. }
  destruct (shr_m mrs2) as [|p|p] eqn:Hp; [| |lia].
  - cbn. lia.
  - destruct (e2 <=? emax - prec); cbn; [|done]. split; [lia|done].
Qed.

(** ** [int(fraction * len(indices))] as the fraction grows *)

Lemma rnd_nonneg (c X : Z) : 0 ≤ c → 0 ≤ X → 0 ≤ rnd c X.
Proof.
  intros Hc HX. unfold rnd.
  assert (0 ≤ rnd_exp c X) by (unfold rnd_exp; lia).
  apply Z.mul_nonneg_nonneg; [by apply rne_nonneg|apply Z.pow_nonneg; lia].
Qed.

(** [int] of a float that is not negative cuts its value down to an integer. *)
Lemma float_to_int_rounds (f : float) (B V k : Z) :
  B ≤ 0 → rounds_to B V (Prim2SF f) → Numpy.float_to_int f = inr k →
  k = V / 2 ^ (- B).
Proof.
  intros HB. unfold Numpy.float_to_int.
  destruct (Prim2SF f) as [[]|[]| |[] m e]; cbn [rounds_to]; try done.
  - intros -> [= <-]. by rewrite Z.div_0_l by (apply Z.pow_nonzero; lia).
  - intros [He <-] [= <-]. destruct (Z.leb_spec 0 e) as [Hpos|Hneg].
    + replace (e - B) with (e + - B) by lia.
      rewrite Z.pow_add_r, Z.mul_assoc by lia.
      by rewrite Z.div_mul by (apply Z.pow_nonzero; lia).
    + replace (- B) with (- e + (e - B)) by lia.
      rewrite Z.pow_add_r by lia.
      by rewrite Z.div_mul_cancel_r by (apply Z.pow_nonzero; lia).
Qed.

(** A valid float has an exponent of at least [emin] and at most 53 bits;
    above [emin] it has exactly 53. *)
Lemma valid_finite (s : bool) (m : positive) (e : Z) :
  valid_binary (S754_finite s m e) = true →
  -1074 ≤ e ∧ Z.pos m < 2 ^ 53 ∧ (-1074 < e → 2 ^ 52 ≤ Z.pos m).
Proof.
  cbn [SpecFloat.valid_binary]. unfold bounded, canonical_mantissa.
  intros [Hc _]%andb_true_iff. apply Z.eqb_eq in Hc.
  rewrite fexp_unfold in Hc.
  change (Z.pos (digits2_pos m)) with (Zdigits2 (Z.pos m)) in Hc.
  rewrite Zdigits2_log2 in Hc by lia.
  pose proof (Z.log2_spec (Z.pos m) ltac:(lia)) as [Hl Hu].
  split_and!; [lia| |intros He].
  - apply Z.log2_lt_pow2; lia.
  - etransitivity; [|exact Hl]. apply Z.pow_le_mono_r; lia.
Qed.

(** On valid positive floats [<=] is the order of the values. *)
Lemma valid_finite_order (m1 m2 : positive) (e1 e2 : Z) :
  valid_binary (S754_finite false m1 e1) = true →
  valid_binary (S754_finite false m2 e2) = true →
  SFleb (S754_finite false m1 e1) (S754_finite false m2 e2) = true →
  Z.pos m1 * 2 ^ (e1 + 1074) ≤ Z.pos m2 * 2 ^ (e2 + 1074).
Proof.
  intros (He1 & Hu1 & _)%valid_finite (He2 & _ & Hl2)%valid_finite.
  unfold SFleb. cbn [SFcompare].
  destruct (Z.compare_spec e1 e2) as [->|Hlt|Hgt]; [| |done].
  - fold (Pos.compare m1 m2). intros Hc.
    apply Z.mul_le_mono_nonneg_r; [apply Z.pow_nonneg; lia|].
    destruct (Pos.compare_spec m1 m2); [lia|lia|done].
  - intros _. specialize (Hl2 ltac:(lia)).
    transitivity (2 ^ 53 * 2 ^ (e1 + 1074)).
    { apply Z.mul_le_mono_nonneg_r; [apply Z.pow_nonneg; lia|lia]. }
    transitivity (2 ^ 52 * 2 ^ (e2 + 1074)).
    { rewrite <- !Z.pow_add_r by lia. apply Z.pow_le_mono_r; lia. }
    apply Z.mul_le_mono_nonneg_r; [apply Z.pow_nonneg; lia|lia].
Qed.

(** The product of two positive floats, as [mul_spec] gives it. *)
Lemma product_rounds (m my : positive) (e ey : Z) :
  -1074 ≤ e → -1074 ≤ ey →
  rounds_to (-2148)
    (rnd 1074 (Z.pos m * 2 ^ (e + 1074) * (Z.pos my * 2 ^ (ey + 1074))))
    (SF64mul (S754_finite false m e) (S754_finite false my ey)).
Proof.
  intros He Hey. unfold SF64mul. cbn [SFmul xorb].
  pose proof (binary_round_aux_value (Z.pos (m * my)) (e + ey) (-2148)
                ltac:(lia) ltac:(lia) ltac:(lia)) as H.
  replace (Z.pos m * 2 ^ (e + 1074) * (Z.pos my * 2 ^ (ey + 1074)))
    with (Z.pos (m * my) * 2 ^ (e + ey - -2148)); [exact H|].
  replace (e + ey - -2148) with ((e + 1074) + (ey + 1074)) by lia.
  rewrite Z.pow_add_r, Pos2Z.inj_mul by lia. ring.
Qed.

(** A list length as a float is not negative. *)
Lemma float_of_nat_sign (n : nat) :
  match Prim2SF (Numpy.float_of_nat n) with
  | S754_zero false | S754_finite false _ _ | S754_infinity false => True
  | _ => False
  end.
Proof.
  unfold Numpy.float_of_nat. rewrite of_uint63_spec.
  pose proof (Uint63.to_Z_bounded (Uint63.of_Z (Z.of_nat n))) as [Hpos _].
  destruct (Uint63.to_Z _) as [|p|p]; [done| |lia].
  cbn [binary_normalize]. unfold binary_round.
  destruct (shl_align _ _ _) as [mz ez].
  pose proof (binary_round_aux_value (Z.pos mz) ez (Z.min ez (-1074))
                ltac:(lia) ltac:(lia) ltac:(lia)) as H.
  destruct (binary_round_aux _ _ _ _ _ _) as [[]|[]| |[] m e]; done.
Qed.

Lemma float_to_int_product (m my : positive) (e ey : Z) (g : float) (k : Z) :
  -1074 ≤ e → -1074 ≤ ey →
  Prim2SF g = SF64mul (S754_finite false m e) (S754_finite false my ey) →
  Numpy.float_to_int g = inr k →
  k = rnd 1074 (Z.pos m * 2 ^ (e + 1074) * (Z.pos my * 2 ^ (ey + 1074))) / 2 ^ 2148.
Proof.
  intros He Hey Hg Hk. pose proof (product_rounds m my e ey He Hey) as H.
  rewrite <- Hg in H. by apply (float_to_int_rounds g (-2148) _ k) in H.
Qed.

(** [int(x * y)] for floats [0 <= x1 <= x2] and [y] not negative. *)
Lemma float_to_int_mul_mono (x1 x2 y : float) (k1 k2 : Z) :
  PrimFloat.leb 0 x1 = true → PrimFloat.leb x1 x2 = true →
  match Prim2SF y with
  | S754_zero false | S754_finite false _ _ | S754_infinity false => True
  | _ => False
  end →
  Numpy.float_to_int (x1 * y) = inr k1 →
  Numpy.float_to_int (x2 * y) = inr k2 →
  0 ≤ k1 ≤ k2.
Proof.
  rewrite !leb_spec. change (Prim2SF 0) with (S754_zero false).
  pose proof (Prim2SF_valid x1) as V1. pose proof (Prim2SF_valid x2) as V2.
  pose proof (Prim2SF_valid y) as Vy.
  pose proof (mul_spec x1 y) as M1. pose proof (mul_spec x2 y) as M2.
  intros H0 H12 Hy.
  destruct (Prim2SF y) as [[]|[]| |[] my ey]; try done.
  - (* y is 0 *)
    unfold Numpy.float_to_int. rewrite M1, M2.
    destruct (Prim2SF x1) as [[]|[]| |[] m1 e1], (Prim2SF x2) as [[]|[]| |[] m2 e2];
      try done; cbn; intros [= <-] [= <-]; lia.
  - (* y is infinite *)
    unfold Numpy.float_to_int. rewrite M1.
    by destruct (Prim2SF x1) as [[]|[]| |[] m1 e1].
  - (* y is positive *)
    apply valid_finite in Vy as (Hey & _).
    destruct (Prim2SF x1) as [s1|[]| |[] m1 e1]; try done.
    + (* x1 is 0 *)
      intros H1. assert (k1 = 0) as ->.
      { unfold Numpy.float_to_int in H1. rewrite M1 in H1.
        destruct s1; cbn in H1; by injection H1. }
      destruct (Prim2SF x2) as [s2|[]| |[] m2 e2]; try done.
      * unfold Numpy.float_to_int. rewrite M2. destruct s2; cbn; intros [= <-]; lia.
      * unfold Numpy.float_to_int. by rewrite M2.
      * apply valid_finite in V2 as (He2 & _). intros H2.
        rewrite (float_to_int_product _ _ _ _ _ _ He2 Hey M2 H2).
        split; [done|]. apply Z.div_pos; [|lia]. apply rnd_nonneg; lia.
    + unfold Numpy.float_to_int. by rewrite M1.
    + (* x1 is positive *)
      destruct (Prim2SF x2) as [s2|[]| |[] m2 e2]; try done.
      { unfold Numpy.float_to_int. intros _. by rewrite M2. }
      pose proof (valid_finite_order _ _ _ _ V1 V2 H12) as Hle.
      apply valid_finite in V1 as (He1 & _). apply valid_finite in V2 as (He2 & _).
      intros H1 H2.
      rewrite (float_to_int_product _ _ _ _ _ _ He1 Hey M1 H1).
      rewrite (float_to_int_product _ _ _ _ _ _ He2 Hey M2 H2).
      assert (0 < Z.pos my * 2 ^ (ey + 1074)) as Hy'.
      { apply Z.mul_pos_pos; [lia|apply Z.pow_pos_nonneg; lia]. }
      assert (0 < Z.pos m1 * 2 ^ (e1 + 1074)) as Hx1.
      { apply Z.mul_pos_pos; [lia|apply Z.pow_pos_nonneg; lia]. }
      split.
      * apply Z.div_pos; [|lia]. apply rnd_nonneg; nia.
      * apply Z.div_le_mono; [lia|]. apply rnd_mono; [lia|nia|].
        apply Z.mul_le_mono_nonneg_r; lia.
Qed.

(** For fractions from 0 on, [int(fraction * len(indices))] is not negative
    and does not decrease as the fraction grows. *)
Lemma n_to_ablate_mono (indices : list nat) (f1 f2 : float) (k1 k2 : Z) :
  PrimFloat.leb 0 f1 = true → PrimFloat.leb f1 f2 = true →
  Cert.n_to_ablate f1 indices = inr k1 →
  Cert.n_to_ablate f2 indices = inr k2 →
  0 ≤ k1 ≤ k2.
Proof.
  intros H0 H12. apply float_to_int_mul_mono; try done. apply float_of_nat_sign.
Qed.

(** ** Fractions up to 1 *)

(** A value of at most 53 bits above the rounding exponent is not changed. *)
Lemma rnd_exact (c M s : Z) :
  0 ≤ c → c ≤ s → 0 < M < 2 ^ 53 → rnd c (M * 2 ^ s) = M * 2 ^ s.
Proof.
  intros Hc Hs HM. unfold rnd.
  assert (c ≤ rnd_exp c (M * 2 ^ s) ≤ s) as Ht.
  { unfold rnd_exp, prec. rewrite Z.log2_mul_pow2 by lia.
    assert (Z.log2 M < 53) by (apply Z.log2_lt_pow2; lia). lia. }
  set (t := rnd_exp c (M * 2 ^ s)) in *. clearbody t.
  replace (M * 2 ^ s) with (M * 2 ^ (s - t) * 2 ^ t) at 1.
  - rewrite rne_exact by lia. rewrite <- Z.mul_assoc, <- Z.pow_add_r by lia.
    do 2 f_equal. lia.
  - rewrite <- Z.mul_assoc, <- Z.pow_add_r by lia. do 2 f_equal. lia.
Qed.

Lemma iter_xO (m d : positive) : Z.pos (Pos.iter xO m d) = Z.pos m * 2 ^ Z.pos d.
Proof.
  induction d as [|d IH] using Pos.peano_ind.
  - cbn [Pos.iter]. lia.
  - rewrite Pos.iter_succ, Pos2Z.inj_xO, IH, Pos2Z.inj_succ, Z.pow_succ_r by lia. lia.
Qed.

(** Aligning a mantissa to a lower exponent keeps the value. *)
Lemma shl_align_value (mx : positive) (ex ex' B : Z) :
  B ≤ ex → B ≤ ex' →
  let '(mz, ez) := shl_align mx ex ex' in
  B ≤ ez ∧ Z.pos mz * 2 ^ (ez - B) = Z.pos mx * 2 ^ (ex - B).
Proof.
  intros Hx Hx'. unfold shl_align. destruct (ex' - ex) as [|d|d] eqn:Hd; [done|done|].
  split; [done|]. rewrite iter_xO, <- Z.mul_assoc, <- Z.pow_add_r by lia.
  do 2 f_equal. lia.
Qed.

(** A list length below 2^53 is its float exactly. *)
Lemma float_of_nat_value (n : nat) :
  Z.of_nat n < 2 ^ 53 →
  match Prim2SF (Numpy.float_of_nat n) with
  | S754_zero false => n = 0%nat
  | S754_finite false my ey =>
      -1074 ≤ ey ∧ Z.pos my * 2 ^ (ey + 1074) = Z.of_nat n * 2 ^ 1074
  | S754_infinity false => True
  | _ => False
  end.
Proof.
  intros Hn. unfold Numpy.float_of_nat. rewrite of_uint63_spec, Uint63.of_Z_spec.
  rewrite Z.mod_small by (change Uint63.wB with (2 ^ 63); split; [lia|];
    eapply Z.lt_trans; [exact Hn|done]).
  destruct (Z.of_nat n) as [|p|p] eqn:Hp; [cbn; lia| |lia].
  cbn [binary_normalize]. unfold binary_round.
  assert (-1074 ≤ fexp prec emax (Z.pos (digits2_pos p) + 0)) as Hf
    by (rewrite fexp_unfold; lia).
  pose proof (shl_align_value p 0 _ (-1074) ltac:(lia) Hf) as Hal.
  destruct (shl_align _ _ _) as [mz ez]. destruct Hal as [Hez Hval].
  pose proof (binary_round_aux_value (Z.pos mz) ez (-1074)
                ltac:(lia) Hez ltac:(lia)) as H.
  rewrite Hval in H. change (-1074 - -1074) with 0 in H.
  change (0 - -1074) with 1074 in H.
  rewrite rnd_exact in H by lia.
  destruct (binary_round_aux _ _ _ _ _ _) as [[]|[]| |[] m e]; done.
Qed.

Lemma leb_refl_from_0 (f : float) :
  PrimFloat.leb 0 f = true → PrimFloat.leb f f = true.
Proof.
  rewrite !leb_spec. change (Prim2SF 0) with (S754_zero false).
  destruct (Prim2SF f) as [[]|[]| |[] m e]; try done.
  intros _. unfold SFleb. cbn [SFcompare]. rewrite Z.compare_refl.
  fold (Pos.compare m m). by rewrite Pos.compare_refl.
Qed.

(** For a fraction between 0 and 1, [int(fraction * len(indices))] is at
    most [len(indices)]. *)
Lemma n_to_ablate_unit (indices : list nat) (f : float) (k : Z) :
  Z.of_nat (length indices) < 2 ^ 53 →
  PrimFloat.leb 0 f = true → PrimFloat.leb f 1 = true →
  Cert.n_to_ablate f indices = inr k →
  0 ≤ k ≤ Z.of_nat (length indices).
Proof.
  intros Hn H0 H1 Hk. split.
  { eapply (n_to_ablate_mono indices f f k k); try done. by apply leb_refl_from_0. }
  revert H0 H1 Hk. unfold Cert.n_to_ablate.
  pose proof (float_of_nat_value (length indices) Hn) as Hy.
  set (y := Numpy.float_of_nat (length indices)) in *. clearbody y.
  rewrite !leb_spec. change (Prim2SF 0) with (S754_zero false).
  pose proof (Prim2SF_valid f) as Vf. pose proof (Prim2SF_valid 1) as V1.
  pose proof (mul_spec f y) as M.
  pose proof (Prim2SF_valid y) as Vy.
  change (Prim2SF 1) with (S754_finite false 4503599627370496 (-52)) in *.
  intros H0 H1.
  destruct (Prim2SF y) as [[]|[]| |[] my ey]; try done.
  - unfold Numpy.float_to_int. rewrite M.
    destruct (Prim2SF f) as [[]|[]| |[] m e]; try done; cbn; intros [= <-]; lia.
  - unfold Numpy.float_to_int. rewrite M.
    by destruct (Prim2SF f) as [[]|[]| |[] m e].
  - destruct Hy as [Hey Hy]. apply valid_finite in Vy as (_ & Hmy & _).
    destruct (Prim2SF f) as [s|[]| |[] m e]; try done.
    + unfold Numpy.float_to_int. rewrite M. destruct s; cbn; intros [= <-]; lia.
    + pose proof (valid_finite_order _ _ _ _ Vf V1 H1) as Hle.
      apply valid_finite in Vf as (He & _). intros Hk.
      rewrite (float_to_int_product _ _ _ _ _ _ He Hey M Hk).
      change (Z.pos 4503599627370496 * 2 ^ (-52 + 1074)) with (2 ^ 1074) in Hle.
      assert (0 < Z.pos m * 2 ^ (e + 1074)) as Hx.
      { apply Z.mul_pos_pos; [lia|apply Z.pow_pos_nonneg; lia]. }
      assert (0 < Z.pos my * 2 ^ (ey + 1074)) as Hy'.
      { apply Z.mul_pos_pos; [lia|apply Z.pow_pos_nonneg; lia]. }
      transitivity (rnd 1074 (Z.of_nat (length indices) * 2 ^ 2148) / 2 ^ 2148).
      * apply Z.div_le_mono; [lia|]. apply rnd_mono; [lia|nia|].
        replace (Z.of_nat (length indices) * 2 ^ 2148)
          with (2 ^ 1074 * (Z.of_nat (length indices) * 2 ^ 1074))
          by (change (2 ^ 2148) with (2 ^ 1074 * 2 ^ 1074); ring).
        rewrite Hy. apply Z.mul_le_mono_nonneg_r; [lia|done].
      * rewrite rnd_exact by (try lia; nia).
        by rewrite Z.div_mul by lia.
Qed.


(** ** Units to ablate *)

Lemma candidate_indices_below (words captions : list string) (i : nat) :
  In i (Cert.candidate_indices words captions) → (i < length captions)%nat.
Proof.
  intros (caption & _ & Hc & _)%candidate_indices_spec.
  by apply lookup_lt_Some in Hc.
Qed.

Lemma length_candidate_indices (words captions : list string) :
  (length (Cert.candidate_indices words captions) ≤ length captions)%nat.
Proof.
  rewrite candidate_indices_filter.
  etransitivity; [apply filter_length_le|]. by rewrite length_seq.
Qed.

Lemma keyed_fst (scores : payload) (indices : list nat) (ks : list (nat * float)) :
  Cert.keyed scores indices = inr ks → map fst ks = indices.
Proof.
  revert ks. induction indices as [|i indices IH]; intros ks; cbn [Cert.keyed].
  - by intros [= <-].
  - destruct (Cert.getitem scores i) as [e|x]; [done|]. cbn [result_bind].
    destruct (Cert.keyed scores indices) as [e|tl]; [done|]. cbn [result_bind].
    intros [= <-]. cbn. f_equal. by apply IH.
Qed.

Lemma keyed_in_range (xs : list float) (indices : list nat) :
  Forall (λ i, (i < length xs)%nat) indices →
  ∃ ks, Cert.keyed (PScores xs) indices = inr ks.
Proof.
  induction 1 as [|i indices Hi _ [ks IH]]; cbn [Cert.keyed]; [eauto|].
  unfold Cert.getitem. destruct (lookup_lt_is_Some_2 xs i Hi) as [x ->].
  cbn [result_bind]. rewrite IH. cbn [result_bind]. eauto.
Qed.

Lemma length_insert_desc (x : nat * float) (sorted : list (nat * float)) :
  length (Cert.insert_desc x sorted) = S (length sorted).
Proof.
  induction sorted as [|y sorted IH]; [done|].
  cbn [Cert.insert_desc]. destruct (PrimFloat.ltb _ _); cbn; [done|]. by rewrite IH.
Qed.

Lemma length_insertion_sort (ks acc : list (nat * float)) :
  length (fold_left (λ acc x, Cert.insert_desc x acc) ks acc)
  = (length ks + length acc)%nat.
Proof.
  revert acc. induction ks as [|x ks IH]; intros acc; [done|].
  cbn [fold_left]. rewrite IH, length_insert_desc. cbn. lia.
Qed.

Lemma length_sorted_by_score (scores : payload) (indices sorted : list nat) :
  Cert.sorted_by_score scores indices = inr sorted → length sorted = length indices.
Proof.
  unfold Cert.sorted_by_score.
  destruct (Cert.keyed scores indices) as [e|ks] eqn:Hks; [done|].
  cbn [result_bind]. intros [= <-].
  rewrite length_map, length_insertion_sort.
  apply keyed_fst in Hks. apply (f_equal length) in Hks.
  rewrite length_map in Hks. cbn. lia.
Qed.

Lemma sorted_by_score_in_range (xs : list float) (indices : list nat) :
  Forall (λ i, (i < length xs)%nat) indices →
  ∃ sorted, Cert.sorted_by_score (PScores xs) indices = inr sorted.
Proof.
  intros Hin. unfold Cert.sorted_by_score.
  destruct (keyed_in_range xs indices Hin) as [ks ->]. cbn [result_bind]. eauto.
Qed.

Lemma length_sample_pool (draw : nat → nat → nat) (k : nat) :
  ∀ (pool : list nat) (n i : nat), length (Cert.sample_pool draw pool n i k) = k.
Proof.
  induction k as [|k IH]; intros pool n i; [done|].
  cbn [Cert.sample_pool length]. by rewrite IH.
Qed.

Lemma length_slice_to {A : Type} (l : list A) (k : Z) :
  (length (Cert.slice_to l k) ≤ length l)%nat
  ∧ (0 ≤ k → length (Cert.slice_to l k) = Nat.min (Z.to_nat k) (length l)).
Proof.
  unfold Cert.slice_to. destruct (Z.leb_spec 0 k); rewrite length_take; lia.
Qed.

Lemma choose_indices_length (l : Cert.lv) (experiment version condition : string)
    (trial n : nat) (candidates : list nat) (scores : option payload)
    (indices : list nat) (d : disk) :
  (length candidates ≤ n)%nat →
  res (Cert.choose_indices l experiment version condition trial n candidates scores d)
  = inr indices →
  length indices = length candidates.
Proof.
  intros Hle. unfold Cert.choose_indices.
  destruct (String.eqb condition Cert.CONDITION_SORT_SPURIOUS).
  { destruct scores as [s|]; [|done].
    destruct (Cert.sorted_by_score s candidates) as [e|sorted] eqn:Hs; [done|].
    intros [= <-]. by apply length_sorted_by_score in Hs. }
  destruct (String.eqb condition Cert.CONDITION_SORT_ALL).
  { destruct scores as [s|]; [|done]. rewrite lift_bind_run.
    destruct (Cert.sorted_by_score s (seq 0 n)) as [e|sorted] eqn:Hs; [done|].
    intros [= <-]. apply length_sorted_by_score in Hs.
    rewrite length_take, Hs, length_seq. lia. }
  destruct (String.eqb condition Cert.CONDITION_RANDOM); [|done].
  unfold Cert.random_sample. rewrite length_seq.
  destruct (Nat.ltb_spec n (length candidates)); [done|].
  intros [= <-]. apply length_sample_pool.
Qed.

Lemma choose_indices_succeeds (l : Cert.lv) (experiment version condition : string)
    (trial n : nat) (candidates : list nat) (xs : list float) (d : disk) :
  In condition Cert.CONDITIONS →
  (length candidates ≤ n)%nat → length xs = n →
  Forall (λ i, (i < n)%nat) candidates →
  ∃ indices,
    res (Cert.choose_indices l experiment version condition trial n candidates
                             (Some (PScores xs)) d) = inr indices.
Proof.
  intros Hc Hle Hxs Hin. unfold Cert.CONDITIONS in Hc. cbn [In] in Hc.
  destruct Hc as [<-|[<-|[<-|[]]]].
  - change (Cert.choose_indices _ _ _ Cert.CONDITION_SORT_SPURIOUS _ _ _ _)
      with (lift (Cert.sorted_by_score (PScores xs) candidates) : M (list nat)).
    destruct (sorted_by_score_in_range xs candidates) as [sorted ->]; [|by eauto].
    by rewrite Hxs.
  - change (Cert.choose_indices _ _ _ Cert.CONDITION_SORT_ALL _ _ _ _)
      with (all ← lift (Cert.sorted_by_score (PScores xs) (seq 0 n));
            (mret (firstn (length candidates) all) : M (list nat))).
    rewrite lift_bind_run.
    destruct (sorted_by_score_in_range xs (seq 0 n)) as [sorted ->]; [|by eauto].
    apply Forall_forall. intros i Hi%list_elem_of_In%in_seq. lia.
  - change (Cert.choose_indices _ ?e ?v Cert.CONDITION_RANDOM ?t _ _ _)
      with (py_assert true ;;
            (lift (Cert.random_sample
                     (Cert.randbelow l e v Cert.CONDITION_RANDOM t)
                     (seq 0 n) (length candidates)) : M (list nat))).
    unfold Cert.random_sample. rewrite length_seq.
    destruct (Nat.ltb_spec n (length candidates)); [lia|]. by eauto.
Qed.
(** C9, as the code has it.  With one caption per dissected unit, every
    list of indices a condition produces has exactly
    [len(candidate_indices)] entries, and with a score for every unit each
    of the three conditions does produce one.  Within a trial the ablated
    units are [indices[:k]] for [k = int(fraction * len(indices))]; their
    number, which is what the trial logs as [n_ablated], never exceeds
    [len(indices)] and is [min(k, len(indices))] when [k] is not negative.
    For fractions from 0 on, [k] is not negative and does not decrease as
    the fraction grows, and neither does the number of ablated units; for a
    fraction between 0 and 1 the two are the same number.  ['random'] runs
    [--n-random-trials] trials, numbered from 1, and the two sorting
    conditions run exactly one. *)
Theorem ablation_indices_and_counts (l : Cert.lv) (a : Cert.args)
    (experiment version : string) (trial : nat) (words captions : list string)
    (xs : list float)
    (Hcaptions : length captions = Cert.n_units l experiment version)
    (Hscores : length xs = Cert.n_units l experiment version) :
  let n := Cert.n_units l experiment version in
  let candidates := Cert.candidate_indices words captions in
  (∀ condition d,
     In condition ["sort-spurious"; "sort-all"; "random"] →
     ∃ indices,
       res (Cert.choose_indices l experiment version condition trial n candidates
                                (Some (PScores xs)) d) = inr indices
       ∧ length indices = length candidates) ∧
  (∀ condition scores d indices,
     res (Cert.choose_indices l experiment version condition trial n candidates
                              scores d) = inr indices →
     length indices = length candidates) ∧
  (∀ (indices : list nat) (k : Z),
     (length (Cert.slice_to indices k) ≤ length indices)%nat
     ∧ (0 ≤ k →
        length (Cert.slice_to indices k) = Nat.min (Z.to_nat k) (length indices))) ∧
  (∀ (indices : list nat) (k1 k2 : Z),
     0 ≤ k1 ≤ k2 →
     (length (Cert.slice_to indices k1) ≤ length (Cert.slice_to indices k2))%nat) ∧
  (∀ (indices : list nat) (fraction1 fraction2 : float) (k1 k2 : Z),
     PrimFloat.leb 0 fraction1 = true →
     PrimFloat.leb fraction1 fraction2 = true →
     Cert.n_to_ablate fraction1 indices = inr k1 →
     Cert.n_to_ablate fraction2 indices = inr k2 →
     0 ≤ k1 ≤ k2
     ∧ (length (Cert.slice_to indices k1) ≤ length (Cert.slice_to indices k2))%nat) ∧
  (∀ (indices : list nat) (fraction : float) (k : Z),
     Z.of_nat (length indices) < 2 ^ 53 →
     PrimFloat.leb 0 fraction = true →
     PrimFloat.leb fraction 1 = true →
     Cert.n_to_ablate fraction indices = inr k →
     0 ≤ k ≤ Z.of_nat (length indices)
     ∧ Z.of_nat (length (Cert.slice_to indices k)) = k) ∧
  (∀ condition indices fraction d,
     res (Cert.run_fraction l a experiment version condition trial indices fraction d)
     = inr tt →
     ∃ k, Cert.n_to_ablate fraction indices = inr k
          ∧ map tl_n_ablated
              (trials_of
                 (trace (Cert.run_fraction l a experiment version condition trial
                                           indices fraction d)))
            = [length (Cert.slice_to indices k)]) ∧
  (Cert.trials a "random" = seq 1 (Z.to_nat (Cert.n_random_trials a))
   ∧ length (Cert.trials a "random") = Z.to_nat (Cert.n_random_trials a)
   ∧ Cert.trials a "sort-spurious" = [1%nat]
   ∧ Cert.trials a "sort-all" = [1%nat]).
Proof.
  cbv zeta.
  assert (length (Cert.candidate_indices words captions)
          ≤ Cert.n_units l experiment version)%nat as Hle.
  { rewrite <- Hcaptions. apply length_candidate_indices. }
  assert (∀ (indices : list nat) (k1 k2 : Z),
            0 ≤ k1 ≤ k2 →
            (length (Cert.slice_to indices k1)
             ≤ length (Cert.slice_to indices k2))%nat) as Hslices.
  { intros indices k1 k2 [H1 H2].
    destruct (length_slice_to indices k1) as [_ Hk1].
    destruct (length_slice_to indices k2) as [_ Hk2].
    rewrite Hk1, Hk2 by lia. lia. }
  split; [|split; [|split; [|split; [|split; [|split; [|split]]]]]].
  - intros condition d Hc.
    destruct (choose_indices_succeeds l experiment version condition trial
                (Cert.n_units l experiment version)
                (Cert.candidate_indices words captions) xs d)
      as [indices Hres]; try done.
    { apply Forall_forall. intros i Hi%list_elem_of_In.
      rewrite <- Hcaptions. by apply candidate_indices_below in Hi. }
    exists indices. split; [done|]. by eapply choose_indices_length.
  - intros condition scores d indices. by apply choose_indices_length.
  - intros indices k. apply length_slice_to.
  - exact Hslices.
  - intros indices fraction1 fraction2 k1 k2 H0 H12 Hk1 Hk2.
    pose proof (n_to_ablate_mono indices fraction1 fraction2 k1 k2 H0 H12 Hk1 Hk2).
    split; [done|]. by apply Hslices.
  - intros indices fraction k Hlen H0 H1 Hk.
    pose proof (n_to_ablate_unit indices fraction k Hlen H0 H1 Hk) as Hbound.
    split; [done|].
    destruct (length_slice_to indices k) as [_ ->]; lia.
  - intros condition indices fraction d. rewrite run_fraction_run.
    destruct (Cert.n_to_ablate fraction indices) as [e|k]; [done|].
    intros _. exists k. split; [done|]. cbv zeta. cbn [trace].
    by destruct (Cert.fine_tune a).
  - unfold Cert.trials. cbn [String.eqb]. repeat split. by rewrite length_seq.
Qed.

(** The sample's three candidates under the ['sort-all'] condition, and
    the fractions 0.25 and 0.5 of them: no unit and one unit. *)
Lemma sample_indices_have_candidate_length :
  (∃ indices,
     res (Cert.choose_indices Sample.cert_lv "spurious-imagenet-text" "50pct"
            "sort-all" 1 4
            (Cert.candidate_indices Cert.TEXT_WORDS
               ["Red text"; "a dog"; "LETTERS"; "the word"])
            (Some (PScores [0; 1; 2; 3]%float)) ∅) = inr indices
     ∧ length indices = 3%nat)
  ∧ Cert.n_to_ablate 0.25 [3; 2; 0]%nat = inr 0
  ∧ Cert.n_to_ablate 0.5 [3; 2; 0]%nat = inr 1
  ∧ (length (Cert.slice_to [3; 2; 0]%nat 0)
     ≤ length (Cert.slice_to [3; 2; 0]%nat 1))%nat.
Proof.
  pose proof (ablation_indices_and_counts Sample.cert_lv Sample.cert_args
                "spurious-imagenet-text" "50pct" 1 Cert.TEXT_WORDS
                ["Red text"; "a dog"; "LETTERS"; "the word"]
                [0; 1; 2; 3]%float eq_refl eq_refl)
    as (Hsucceeds & _ & _ & _ & Hfractions & _).
  split; [apply Hsucceeds; cbn; auto|].
  split; [reflexivity|]. split; [reflexivity|].
  exact (proj2 (Hfractions [3; 2; 0]%nat 0.25%float 0.5%float 0 1
                  eq_refl eq_refl eq_refl eq_refl)).
Defined.

(** C9 as stated fails for a negative fraction, which [--ablation-min]
    does not exclude: with ten indices a fraction of -0.5 ablates five units
    where the larger fraction 0 ablates none.  And with
    [--ablation-min 1.5 --ablation-max 2 --ablation-step-size .5] the one
    fraction is 1.5 and [int(fraction * len(indices))] is 15, more than the
    ten candidates, while ten units are ablated. *)
Lemma fractions_outside_the_unit_interval :
  let indices := seq 0 10 in
  Numpy.arange_float 1.5 2 0.5 = inr [1.5%float]
  ∧ Cert.n_to_ablate 1.5 indices = inr 15
  ∧ length indices = 10%nat
  ∧ length (Cert.slice_to indices 15) = 10%nat
  ∧ PrimFloat.ltb (-0.5) 0 = true
  ∧ Cert.n_to_ablate (-0.5) indices = inr (-5)
  ∧ length (Cert.slice_to indices (-5)) = 5%nat
  ∧ Cert.n_to_ablate 0 indices = inr 0
  ∧ length (Cert.slice_to indices 0) = 0%nat.
Proof. vm_compute. repeat split. Qed.
